(** * Quine-McCluskey Boolean minimizer

    A shallow embedding of the class [QuineMcCluskey] of
    [src/Quine_McCluskey_Algorithm/Quine_McCluskey_Algorithm.cpp] and the
    properties its specification states about it.

    Conventions of the embedding:
    - a C++ [int] is a [Z]; every [int] the validated algorithm computes stays
      far below [2^31], so no wrap-around is ever written out;
    - a [std::string] is a [string], a [std::vector] a [list], a
      [std::set<int>] an ascending duplicate-free [list Z], and the
      [std::map<int, std::vector<Implicant>>] an association list kept in
      ascending key order (the order in which a [std::map] is iterated);
    - the two [while] loops take a [fuel] and answer [None] when it runs out;
      the theorems show how much fuel is enough;
    - an index loop [for (i = 0; i < v.size(); i++)] that only reads [v[i]]
      walks the list with the index as an explicit argument. *)

From Stdlib Require Import ZArith String Ascii Bool Lia Arith List Sorted Permutation.
Import ListNotations.
Local Open Scope Z_scope.
Local Open Scope list_scope.

(** ** The standard algorithms the source calls *)

Section StdAlgorithms.
Context {A : Type}.

(** [std::sort(first, last, lt)], as an insertion sort.  The standard leaves
    the relative order of equivalent elements open; this one keeps it. *)
Section Sort.
Variable lt : A -> A -> bool.

Fixpoint sort_insert (x : A) (l : list A) : list A :=
  match l with
  | [] => [x]
  | y :: l' => if lt y x then y :: sort_insert x l' else x :: l
  end.

Definition std_sort (l : list A) : list A := fold_right sort_insert [] l.
End Sort.

(** [v.erase(std::unique(first, last, eq), last)]: of every run of
    consecutive equivalent elements the first one stays. *)
Section Unique.
Variable eq : A -> A -> bool.

Fixpoint unique_from (kept : A) (l : list A) : list A :=
  match l with
  | [] => []
  | y :: l' => if eq kept y then unique_from kept l' else y :: unique_from y l'
  end.

Definition std_unique (l : list A) : list A :=
  match l with
  | [] => []
  | x :: l' => x :: unique_from x l'
  end.
End Unique.

(** [v.erase(v.begin() + idx)] *)
Fixpoint erase (l : list A) (idx : nat) : list A :=
  match l, idx with
  | [], _ => []
  | _ :: l', O => l'
  | x :: l', S i => x :: erase l' i
  end.
End StdAlgorithms.

(** [marked[idx] = true] on a [std::vector<bool>]; every index the source
    writes is the place of an implicant of the round (the hypotheses of
    [tryMerge_inv], which [mergeWalk_inv] discharges). *)
Fixpoint set_true (marked : list bool) (idx : nat) : list bool :=
  match marked, idx with
  | [], _ => []
  | _ :: m, O => true :: m
  | b :: m, S i => b :: set_true m i
  end.

(** [std::set<int>::insert] *)
Fixpoint set_insert (x : Z) (s : list Z) : list Z :=
  match s with
  | [] => [x]
  | y :: s' => if x <? y then x :: s else if x =? y then s else y :: set_insert x s'
  end.

(** ** Term model *)

(** [((n >> i) & 1) ? '1' : '0'] on [int].  For a non-negative [int] [n]
    and a shift below the width of [int] this is the shift and the mask of
    [Z]; the program gets there with [numVars] at most 8 only. *)
Definition bitChar (n : Z) (i : nat) : ascii :=
  if Z.land (Z.shiftr n (Z.of_nat i)) 1 =? 0 then "0"%char else "1"%char.

(** The loop [for (i = count - 1; i >= 0; i--)] of [intToBinary]. *)
Fixpoint intToBinary_from (n : Z) (count : nat) : string :=
  match count with
  | O => EmptyString
  | S i => String (bitChar n i) (intToBinary_from n i)
  end.

Definition intToBinary (n numVars : Z) : string :=
  intToBinary_from n (Z.to_nat numVars).

Module Implicant.

Record t : Type := mk {
  minterms : list Z;
  binary : string;
  isPrime : bool;
  isEssential : bool
}.

(** [Implicant(int term, int numVars)] *)
Definition of_term (term numVars : Z) : t :=
  {| minterms := [term];
     binary := intToBinary term numVars;
     isPrime := true;
     isEssential := false |}.

(** The character [s[0]] of the rest of a string; reading at the end of a
    [std::string] gives the terminating NUL. *)
Definition head (s : string) : ascii :=
  match s with String c _ => c | EmptyString => zero end.

Definition tail (s : string) : string :=
  match s with String _ s' => s' | EmptyString => EmptyString end.

Fixpoint mergeBinary (a b : string) : string :=
  match a with
  | EmptyString => EmptyString
  | String ca a' =>
      String (if negb (Ascii.eqb ca (head b)) then "-"%char else ca)
             (mergeBinary a' (tail b))
  end.

(** [Implicant(const Implicant& a, const Implicant& b)] *)
Definition merged (a b : t) : t :=
  {| minterms := std_sort Z.ltb (minterms a ++ minterms b);
     binary := mergeBinary (binary a) (binary b);
     isPrime := true;
     isEssential := false |}.

Fixpoint canMerge_loop (a b : string) (diffCount : Z) : bool :=
  match a with
  | EmptyString => diffCount =? 1
  | String ca a' =>
      if negb (Ascii.eqb ca (head b)) then
        if diffCount + 1 >? 1 then false
        else canMerge_loop a' (tail b) (diffCount + 1)
      else canMerge_loop a' (tail b) diffCount
  end.

Definition canMerge (a b : t) : bool :=
  if negb (Nat.eqb (String.length (binary a)) (String.length (binary b)))
  then false
  else canMerge_loop (binary a) (binary b) 0.

Fixpoint countOnes_str (s : string) : Z :=
  match s with
  | EmptyString => 0
  | String c s' => (if Ascii.eqb c "1" then 1 else 0) + countOnes_str s'
  end.

Definition countOnes (a : t) : Z := countOnes_str (binary a).

Fixpoint covers_loop (bin termBinary : string) : bool :=
  match bin with
  | EmptyString => true
  | String c bin' =>
      if negb (Ascii.eqb c "-") && negb (Ascii.eqb c (head termBinary))
      then false
      else covers_loop bin' (tail termBinary)
  end.

Definition covers (a : t) (term numVars : Z) : bool :=
  covers_loop (binary a) (intToBinary term numVars).

End Implicant.

(** ** The minimizer object *)

Record QuineMcCluskey : Type := mkQuineMcCluskey {
  numVars : Z;
  minterms : list Z;
  dontcares : list Z;
  varNames : list ascii
}.

(** ['A' + i] stored into a [char] *)
Definition varName (i : nat) : ascii := ascii_of_nat (65 + i).

Definition initializeVarNames (numVars : Z) : list ascii :=
  map varName (seq 0 (Z.to_nat numVars)).

(** The constructor [QuineMcCluskey(vars, m, dc)]. *)
Definition construct (vars : Z) (m dc : list Z) : QuineMcCluskey :=
  {| numVars := vars; minterms := m; dontcares := dc;
     varNames := initializeVarNames vars |}.

(** [binaryToTerm]: [i] is the position of the head of [bin] in the whole
    pattern.  [varNames[i]] is only defined below [varNames.size()]; every
    pattern the minimizer formats is that long (see [cover_patterns]). *)
Fixpoint binaryToTerm_from (names : list ascii) (i : nat) (bin : string) : string :=
  match bin with
  | EmptyString => EmptyString
  | String c bin' =>
      let rest := binaryToTerm_from names (S i) bin' in
      if Ascii.eqb c "0" then String (nth i names zero) (String "'" rest)
      else if Ascii.eqb c "1" then String (nth i names zero) rest
      else rest
  end.

Definition binaryToTerm (names : list ascii) (bin : string) : string :=
  binaryToTerm_from names 0 bin.

(** ** Step 1: prime implicants *)

Definition Groups : Type := list (Z * list Implicant.t).

(** [groups[key].push_back(imp)] *)
Fixpoint push_back_at (key : Z) (imp : Implicant.t) (groups : Groups) : Groups :=
  match groups with
  | [] => [(key, [imp])]
  | (k, v) :: rest =>
      if key <? k then (key, [imp]) :: groups
      else if key =? k then (k, v ++ [imp]) :: rest
      else (k, v) :: push_back_at key imp rest
  end.

(** [groups[key]] for a key the map holds *)
Definition at_key (groups : Groups) (key : Z) : list Implicant.t :=
  match find (fun p => fst p =? key) groups with
  | Some p => snd p
  | None => []
  end.

Definition getSortedKeys (groups : Groups) : list Z :=
  std_sort Z.ltb (map fst groups).

Definition flatten (groups : Groups) : list Implicant.t :=
  concat (map snd groups).

Record MergeState : Type := mkMergeState {
  newGroups : Groups;
  marked : list bool;
  changed : bool
}.

(** The body of the innermost loop, at [group1[j]] and [group2[k]]. *)
Definition tryMerge (a b : Implicant.t) (markIndex group1_size j k : nat)
    (st : MergeState) : MergeState :=
  if Implicant.canMerge a b then
    let merged := Implicant.merged a b in
    let nextGroupStart := (markIndex + group1_size)%nat in
    {| newGroups := push_back_at (Implicant.countOnes merged) merged (newGroups st);
       marked := set_true (set_true (marked st) (markIndex + j)) (nextGroupStart + k);
       changed := true |}
  else st.

Fixpoint scanGroup2 (a : Implicant.t) (markIndex group1_size j : nat)
    (group2 : list Implicant.t) (k : nat) (st : MergeState) : MergeState :=
  match group2 with
  | [] => st
  | b :: rest =>
      scanGroup2 a markIndex group1_size j rest (S k)
                 (tryMerge a b markIndex group1_size j k st)
  end.

Fixpoint scanGroup1 (markIndex group1_size : nat) (group1 : list Implicant.t)
    (j : nat) (group2 : list Implicant.t) (st : MergeState) : MergeState :=
  match group1 with
  | [] => st
  | a :: rest =>
      scanGroup1 markIndex group1_size rest (S j) group2
                 (scanGroup2 a markIndex group1_size j group2 0 st)
  end.

(** One pass of [for (i = 0; i < keys.size() - 1; i++)]; the state carries
    [markIndex]. *)
Definition mergeStep (groups : Groups) (keys : list Z)
    (acc : MergeState * nat) (i : nat) : MergeState * nat :=
  let (st, markIndex) := acc in
  let group1 := at_key groups (nth i keys 0) in
  let st' :=
    if nth (S i) keys 0 - nth i keys 0 =? 1 then
      let group2 := at_key groups (nth (S i) keys 0) in
      scanGroup1 markIndex (length group1) group1 0 group2 st
    else st in
  (st', (markIndex + length group1)%nat).

(** The merging half of one round of the [while (changed)] loop.
    [keys.size() - 1] is computed on [size_t]; the map is never empty here
    (see [roundGroups_good]), so it does not wrap.  [totalSize],
    [markIndex] and [nextGroupStart] are [int] in the program and counted
    in [nat] here: the two agree on a round of at most [2^31 - 1]
    implicants (see [roundFits]), and every accepted pair adds a merged
    implicant, also when its pattern is there already. *)
Definition mergeAdjacent (groups : Groups) : MergeState :=
  let totalSize := fold_left (fun n p => (n + length (snd p))%nat) groups 0%nat in
  let keys := getSortedKeys groups in
  fst (fold_left (mergeStep groups keys) (seq 0 (length keys - 1))
         ({| newGroups := []; marked := repeat false totalSize; changed := false |},
          0%nat)).

Definition setPrime (a : Implicant.t) : Implicant.t :=
  {| Implicant.minterms := Implicant.minterms a;
     Implicant.binary := Implicant.binary a;
     Implicant.isPrime := true;
     Implicant.isEssential := Implicant.isEssential a |}.

Fixpoint collectGroup (marked : list bool) (markIndex : nat)
    (group : list Implicant.t) (i : nat) (primeImplicants : list Implicant.t)
    : list Implicant.t :=
  match group with
  | [] => primeImplicants
  | a :: rest =>
      collectGroup marked markIndex rest (S i)
        (if negb (nth (markIndex + i) marked false)
         then primeImplicants ++ [setPrime a]
         else primeImplicants)
  end.

(** "Collect unmarked implicants as prime" *)
Fixpoint collectUnmarked (marked : list bool) (groups : Groups) (markIndex : nat)
    (primeImplicants : list Implicant.t) : list Implicant.t :=
  match groups with
  | [] => primeImplicants
  | (_, group) :: rest =>
      collectUnmarked marked rest (markIndex + length group)
        (collectGroup marked markIndex group 0 primeImplicants)
  end.

(** The [while (changed)] loop; one unit of fuel per round. *)
Fixpoint primeLoop (fuel : nat) (groups : Groups)
    (primeImplicants : list Implicant.t) : option (list Implicant.t) :=
  match fuel with
  | O => None
  | S fuel' =>
      let st := mergeAdjacent groups in
      let primeImplicants' := collectUnmarked (marked st) groups 0 primeImplicants in
      if changed st then primeLoop fuel' (newGroups st) primeImplicants'
      else Some primeImplicants'
  end.

Definition binary_lt (a b : Implicant.t) : bool :=
  String.ltb (Implicant.binary a) (Implicant.binary b).

Definition binary_eq (a b : Implicant.t) : bool :=
  String.eqb (Implicant.binary a) (Implicant.binary b).

(** Which of several implicants with one pattern stays is of no account:
    from here on only [binary] is read. *)
Definition removeDuplicates (implicants : list Implicant.t) : list Implicant.t :=
  std_unique binary_eq (std_sort binary_lt implicants).

(** "Create initial implicants from terms" *)
Definition initialGroups (numVars : Z) (terms : list Z) : Groups :=
  fold_left (fun groups term =>
               let imp := Implicant.of_term term numVars in
               push_back_at (Implicant.countOnes imp) imp groups)
            terms [].

Definition findPrimeImplicants (fuel : nat) (numVars : Z) (terms : list Z)
    : option (list Implicant.t) :=
  match terms with
  | [] => Some []
  | _ =>
      match primeLoop fuel (initialGroups numVars terms) [] with
      | Some primeImplicants => Some (removeDuplicates primeImplicants)
      | None => None
      end
  end.

(** ** Step 2: essential prime implicants *)

(** The inner search "Check if we already have this essential prime". *)
Definition hasBinary (bin : string) (l : list Implicant.t) : bool :=
  existsb (fun ep => String.eqb (Implicant.binary ep) bin) l.

Definition setEssential (a : Implicant.t) : Implicant.t :=
  {| Implicant.minterms := Implicant.minterms a;
     Implicant.binary := Implicant.binary a;
     Implicant.isPrime := Implicant.isPrime a;
     Implicant.isEssential := true |}.

(** The body of [for (int minterm : minterms)] in [findEssentialPrimes]. *)
Definition essentialStep (numVars : Z) (primes : list Implicant.t)
    (essentialPrimes : list Implicant.t) (minterm : Z) : list Implicant.t :=
  let coveringPrimes :=
    filter (fun imp => Implicant.covers imp minterm numVars) primes in
  match coveringPrimes with
  | [essential] =>
      if hasBinary (Implicant.binary essential) essentialPrimes
      then essentialPrimes
      else essentialPrimes ++ [setEssential essential]
  | _ => essentialPrimes
  end.

Definition findEssentialPrimes (numVars : Z) (minterms : list Z)
    (primes : list Implicant.t) : list Implicant.t :=
  fold_left (essentialStep numVars primes) minterms [].

(** ** Step 3: the cover *)

Definition coveredBy (numVars : Z) (l : list Implicant.t) (minterm : Z) : bool :=
  existsb (fun imp => Implicant.covers imp minterm numVars) l.

(** [coverCount] of one candidate over the still uncovered minterms *)
Definition coverCount (numVars : Z) (uncovered : list Z) (imp : Implicant.t) : Z :=
  fold_left (fun n minterm =>
               if Implicant.covers imp minterm numVars then n + 1 else n)
            uncovered 0.

(** The search for the candidate "that covers most uncovered minterms":
    [i] is the index of the head of [remaining]. *)
Fixpoint findBest (numVars : Z) (uncovered : list Z)
    (remaining : list Implicant.t) (i : Z) (maxCover bestIdx : Z) : Z * Z :=
  match remaining with
  | [] => (maxCover, bestIdx)
  | imp :: rest =>
      let c := coverCount numVars uncovered imp in
      if c >? maxCover
      then findBest numVars uncovered rest (i + 1) c i
      else findBest numVars uncovered rest (i + 1) maxCover bestIdx
  end.

Definition emptyImplicant : Implicant.t :=
  {| Implicant.minterms := []; Implicant.binary := EmptyString;
     Implicant.isPrime := false; Implicant.isEssential := false |}.

Definition isEmpty {A : Type} (l : list A) : bool :=
  match l with [] => true | _ => false end.

(** The greedy [while (!uncoveredMinterms.empty() && !remainingPrimes.empty())]
    loop; one unit of fuel per iteration. *)
Fixpoint greedyLoop (fuel : nat) (numVars : Z) (uncoveredMinterms : list Z)
    (remainingPrimes cover : list Implicant.t) : option (list Implicant.t) :=
  if isEmpty uncoveredMinterms || isEmpty remainingPrimes then Some cover
  else
    match fuel with
    | O => None
    | S fuel' =>
        let bestIdx := snd (findBest numVars uncoveredMinterms remainingPrimes 0 (-1) (-1)) in
        if bestIdx >=? 0 then
          let best := nth (Z.to_nat bestIdx) remainingPrimes emptyImplicant in
          let newUncovered :=
            fold_left (fun s minterm =>
                         if negb (Implicant.covers best minterm numVars)
                         then set_insert minterm s else s)
                      uncoveredMinterms [] in
          greedyLoop fuel' numVars newUncovered
                     (erase remainingPrimes (Z.to_nat bestIdx)) (cover ++ [best])
        else greedyLoop fuel' numVars uncoveredMinterms remainingPrimes cover
    end.

Definition findMinimalCover (fuel : nat) (numVars : Z) (minterms : list Z)
    (essentialPrimes allPrimes : list Implicant.t) : option (list Implicant.t) :=
  let cover := essentialPrimes in
  let uncoveredMinterms :=
    fold_left (fun s minterm =>
                 if negb (coveredBy numVars essentialPrimes minterm)
                 then set_insert minterm s else s)
              minterms [] in
  if isEmpty uncoveredMinterms then Some cover
  else
    let remainingPrimes :=
      filter (fun imp => negb (hasBinary (Implicant.binary imp) essentialPrimes))
             allPrimes in
    match greedyLoop fuel numVars uncoveredMinterms remainingPrimes cover with
    | Some cover' => Some (std_sort binary_lt cover')
    | None => None
    end.

(** ** Step 4: the text *)

Fixpoint contains (c : ascii) (s : string) : bool :=
  match s with
  | EmptyString => false
  | String d s' => Ascii.eqb d c || contains c s'
  end.

(** [binary.find('0') == npos && binary.find('1') == npos] *)
Definition noLiteral (imp : Implicant.t) : bool :=
  negb (contains "0" (Implicant.binary imp)) &&
  negb (contains "1" (Implicant.binary imp)).

Definition isEmptyString (s : string) : bool :=
  match s with EmptyString => true | _ => false end.

(** The loop [for (i = 0; i < cover.size(); i++)] of [formatSOP]; [rest] is
    what is left of the cover from index [i] on. *)
Fixpoint formatLoop (names : list ascii) (size : nat) (rest : list Implicant.t)
    (i : nat) (result : string) : string :=
  match rest with
  | [] => result
  | imp :: rest' =>
      let term := binaryToTerm names (Implicant.binary imp) in
      formatLoop names size rest' (S i)
        (if negb (isEmptyString term) then
           let result' := String.append result term in
           if (i <? size - 1)%nat then String.append result' " + " else result'
         else result)
  end.

Definition formatSOP (names : list ascii) (cover : list Implicant.t) : string :=
  if isEmpty cover then "0"%string
  else if existsb noLiteral cover then "1"%string
  else
    let result := formatLoop names (length cover) cover 0 EmptyString in
    if isEmptyString result && negb (isEmpty cover) then "1"%string else result.

(** ** [minimize] *)

(** The exceptions [minimize] throws, by their message. *)
Inductive runtime_error : Type :=
| VariablesExceedLimit              (* "Number of variables exceeds limit of 8" *)
| MintermOutOfRange (term : Z)      (* "Minterm <term> out of range" *)
| DontCareOutOfRange (term : Z).    (* "Don't care term <term> out of range" *)

(** The two kinds of failure of the specification. *)
Inductive error_kind : Type := InvalidVariableCount | TermOutOfRange.

Definition kind_of (e : runtime_error) : error_kind :=
  match e with
  | VariablesExceedLimit => InvalidVariableCount
  | MintermOutOfRange _ | DontCareOutOfRange _ => TermOutOfRange
  end.

(** What a call does: it returns, throws, runs out of fuel (an artefact of
    the embedding only), or leaves defined behaviour: [1 << numVars] with a
    negative [numVars] means nothing in C++. *)
Inductive outcome (A : Type) : Type :=
| Returned (a : A)
| Thrown (e : runtime_error)
| OutOfFuel
| Undefined.
Arguments Returned {A} a.
Arguments Thrown {A} e.
Arguments OutOfFuel {A}.
Arguments Undefined {A}.

(** The first term of a range loop that fails [term < 0 || term > maxTerm]. *)
Definition firstOutOfRange (maxTerm : Z) (terms : list Z) : option Z :=
  find (fun term => (term <? 0) || (term >? maxTerm)) terms.

(** "Combine minterms and don't cares for processing", sorted, duplicates
    removed. *)
Definition allTermsOf (minterms dontcares : list Z) : list Z :=
  std_unique Z.eqb (std_sort Z.ltb (minterms ++ dontcares)).

(** Steps 1 to 3 on a validated instance: the cover that [formatSOP] gets. *)
Definition minimalCover (fuel : nat) (self : QuineMcCluskey)
    : option (list Implicant.t) :=
  let allTerms := allTermsOf (minterms self) (dontcares self) in
  match findPrimeImplicants fuel (numVars self) allTerms with
  | None => None
  | Some primeImplicants =>
      let essentialPrimes :=
        findEssentialPrimes (numVars self) (minterms self) primeImplicants in
      findMinimalCover fuel (numVars self) (minterms self)
                       essentialPrimes primeImplicants
  end.

(** [minimize()], as a function from the object before the call to the
    outcome and the object after it. *)
Definition minimize (fuel : nat) (self : QuineMcCluskey)
    : outcome string * QuineMcCluskey :=
  if numVars self >? 8 then (Thrown VariablesExceedLimit, self)
  else if numVars self <? 0 then (Undefined, self)
  else
    let maxTerm := Z.shiftl 1 (numVars self) - 1 in
    match firstOutOfRange maxTerm (minterms self) with
    | Some term => (Thrown (MintermOutOfRange term), self)
    | None =>
        match firstOutOfRange maxTerm (dontcares self) with
        | Some term => (Thrown (DontCareOutOfRange term), self)
        | None =>
            match minimalCover fuel self with
            | Some cover => (Returned (formatSOP (varNames self) cover), self)
            | None => (OutOfFuel, self)
            end
        end
    end.


(** ** Vocabulary of the specification *)

(** A bit pattern is a string over [0], [1] and [-]; the pattern of a single
    term has no [-]. *)
Definition isSymbol (c : ascii) : bool :=
  Ascii.eqb c "0" || Ascii.eqb c "1" || Ascii.eqb c "-".

Definition isBit (c : ascii) : bool := Ascii.eqb c "0" || Ascii.eqb c "1".

Fixpoint ternary (s : string) : bool :=
  match s with
  | EmptyString => true
  | String c s' => isSymbol c && ternary s'
  end.

Fixpoint binaryString (s : string) : bool :=
  match s with
  | EmptyString => true
  | String c s' => isBit c && binaryString s'
  end.

Fixpoint dashes (s : string) : nat :=
  match s with
  | EmptyString => O
  | String c s' => ((if Ascii.eqb c "-" then 1 else 0) + dashes s')%nat
  end.

Fixpoint allDashes (s : string) : bool :=
  match s with
  | EmptyString => true
  | String c s' => Ascii.eqb c "-" && allDashes s'
  end.

(** A term of the truth table of [numVars] variables. *)
Definition inRange (numVars term : Z) : Prop := 0 <= term <= 2 ^ numVars - 1.

(** A valid problem instance, as the constructor builds it. *)
Definition valid (q : QuineMcCluskey) : Prop :=
  1 <= numVars q <= 8 /\
  varNames q = initializeVarNames (numVars q) /\
  Forall (inRange (numVars q)) (minterms q) /\
  Forall (inRange (numVars q)) (dontcares q).

(** What holds of every implicant of a round in which patterns have [d]
    dashes, over the terms [terms] given to [findPrimeImplicants]. *)
Record goodImplicant (numVars : Z) (terms : list Z) (d : nat)
    (imp : Implicant.t) : Prop := {
  good_length : String.length (Implicant.binary imp) = Z.to_nat numVars;
  good_ternary : ternary (Implicant.binary imp) = true;
  good_dashes : dashes (Implicant.binary imp) = d;
  good_minterms : forall t,
    In t (Implicant.minterms imp) <->
    In t terms /\ Implicant.covers imp t numVars = true;
  good_sound : forall t,
    inRange numVars t -> Implicant.covers imp t numVars = true -> In t terms
}.

(** The implicants of a map, each with the key it is filed under. *)
Definition entries (groups : Groups) : list (Z * Implicant.t) :=
  flat_map (fun p => map (pair (fst p)) (snd p)) groups.

(** A [std::map] holds every key once and is iterated in ascending order. *)
Definition keysAscending (groups : Groups) : Prop :=
  StronglySorted Z.lt (map fst groups).

(** The loop over [keys] of [mergeAdjacent], read as a walk along the
    entries of the map; [mergeAdjacent_walk] shows that it is the same. *)
Fixpoint mergeWalk (groups : Groups) (markIndex : nat) (st : MergeState)
    : MergeState :=
  match groups with
  | [] => st
  | (k1, group1) :: rest =>
      match rest with
      | [] => st
      | (k2, group2) :: _ =>
          mergeWalk rest (markIndex + length group1)
            (if k2 - k1 =? 1
             then scanGroup1 markIndex (length group1) group1 0 group2 st
             else st)
      end
  end.

Definition initialMergeState (totalSize : nat) : MergeState :=
  {| newGroups := []; marked := repeat false totalSize; changed := false |}.

(** What the merging half of a round keeps true of its state; [F] is the
    round's implicants in the order of the [marked] vector. *)
Record mergeInv (F : list Implicant.t) (st : MergeState) : Prop := {
  inv_length : length (marked st) = length F;
  inv_marked : forall idx, nth idx (marked st) false = true ->
    exists a m,
      nth_error F idx = Some a /\ In m (flatten (newGroups st)) /\
      forall tb, Implicant.covers_loop (Implicant.binary a) tb = true ->
                 Implicant.covers_loop (Implicant.binary m) tb = true;
  inv_origin : forall k m, In (k, m) (entries (newGroups st)) ->
    k = Implicant.countOnes m /\
    exists a b, In a F /\ In b F /\ Implicant.canMerge a b = true /\
                m = Implicant.merged a b;
  inv_unchanged : changed st = false -> newGroups st = [];
  inv_changed : changed st = true -> exists m, In m (flatten (newGroups st));
  inv_keys : keysAscending (newGroups st)
}.

(** A map of groups of a round in which patterns have [d] dashes. *)
Definition goodGroups (numVars : Z) (terms : list Z) (d : nat) (groups : Groups)
    : Prop :=
  keysAscending groups /\
  forall k x, In (k, x) (entries groups) ->
    k = Implicant.countOnes x /\ goodImplicant numVars terms d x.

(** The map [groups] at the start of the [round]-th pass through the body of
    the [while (changed)] loop (rounds count from 1), when there is one. *)
Fixpoint roundGroups (numVars : Z) (terms : list Z) (round : nat)
    : option Groups :=
  match round with
  | O => None
  | S r =>
      match r with
      | O => if isEmpty terms then None else Some (initialGroups numVars terms)
      | S _ =>
          match roundGroups numVars terms r with
          | Some groups =>
              let st := mergeAdjacent groups in
              if changed st then Some (newGroups st) else None
          | None => None
          end
      end
  end.

(** *** The text of a cover, as the specification words it

    Position [i] of a pattern, counted from the most significant bit, is the
    variable ['A' + i]; a [1] gives the plain letter, a [0] the letter and an
    apostrophe, a [-] nothing; the product terms are joined by [" + "]. *)
Definition letter_spec (i : nat) : ascii := ascii_of_nat (nat_of_ascii "A" + i).

Definition literal_spec (i : nat) (symbol : ascii) : string :=
  if Ascii.eqb symbol "1" then String (letter_spec i) EmptyString
  else if Ascii.eqb symbol "0" then String (letter_spec i) (String "'" EmptyString)
  else EmptyString.

Fixpoint productTerm_spec (i : nat) (pattern : string) : string :=
  match pattern with
  | EmptyString => EmptyString
  | String symbol rest =>
      String.append (literal_spec i symbol) (productTerm_spec (S i) rest)
  end.

Fixpoint join_spec (separator : string) (parts : list string) : string :=
  match parts with
  | [] => EmptyString
  | part :: rest =>
      match rest with
      | [] => part
      | _ => String.append part (String.append separator (join_spec separator rest))
      end
  end.

Definition sop_spec (cover : list Implicant.t) : string :=
  join_spec " + " (map (fun imp => productTerm_spec 0 (Implicant.binary imp)) cover).

(** *** The Boolean function that an expression denotes

    The input [x] of the truth table gives variable ['A' + i] the bit
    [numVars - 1 - i] of [x]. *)
Definition varValue (numVars x : Z) (name : ascii) : bool :=
  Z.testbit x (numVars - 1 - (Z.of_nat (nat_of_ascii name) - 65)).

(** The value of a sum of products; [product] is the value of the literals
    of the current product read so far. *)
Fixpoint evalProducts (numVars x : Z) (s : string) (product : bool) : bool :=
  match s with
  | EmptyString => product
  | String c rest =>
      if Ascii.eqb c " " then
        match rest with
        | String plus (String space rest') =>
            if Ascii.eqb plus "+" && Ascii.eqb space " "
            then product || evalProducts numVars x rest' true
            else false
        | _ => false
        end
      else
        match rest with
        | String q rest' =>
            if Ascii.eqb q "'"
            then evalProducts numVars x rest' (product && negb (varValue numVars x c))
            else evalProducts numVars x rest (product && varValue numVars x c)
        | EmptyString => product && varValue numVars x c
        end
  end.

Definition evalSOP (numVars : Z) (s : string) (x : Z) : bool :=
  if String.eqb s "0" then false
  else if String.eqb s "1" then true
  else evalProducts numVars x s true.

(** The [while (changed)] loop of an instance is over within [rounds]
    passes through its body. *)
Definition mergeLoopWithin (rounds : nat) (q : QuineMcCluskey) : Prop :=
  exists primes,
    findPrimeImplicants rounds (numVars q)
      (allTermsOf (minterms q) (dontcares q)) = Some primes.

(** ** Notation and tactics *)

Local Notation "a +++ b" := (String.append a b) (at level 60, right associativity).

(** Validity of a concrete instance. *)
Ltac solve_valid :=
  unfold valid, inRange; cbn [numVars minterms dontcares varNames construct];
  repeat split; try reflexivity; try lia;
  repeat (constructor; try lia).

(** ** Further vocabulary *)

(** The largest [int] of the program (32 bits). *)
Definition INT_MAX : Z := 2147483647.

(** Implicants in strictly ascending order of their patterns, as
    [std::string::operator<] orders them. *)
Definition patternLt (a b : Implicant.t) : Prop :=
  String.ltb (Implicant.binary a) (Implicant.binary b) = true.

(** The number that a string of binary digits writes, most significant
    digit first. *)
Fixpoint binaryValue_from (acc : Z) (s : string) : Z :=
  match s with
  | EmptyString => acc
  | String c s' =>
      binaryValue_from (2 * acc + (if Ascii.eqb c "1" then 1 else 0)) s'
  end.

Definition binaryValue (s : string) : Z := binaryValue_from 0 s.

(** [notAfter lt x y]: the comparison [lt] does not put [y] before [x]. *)
Definition notAfter {A : Type} (lt : A -> A -> bool) (x y : A) : Prop :=
  lt y x = false.

(** What holds of the list of essential primes while [findEssentialPrimes]
    builds it. *)
Definition essentialInv (numVars : Z) (minterms : list Z)
    (primes acc : list Implicant.t) : Prop :=
  NoDup (map Implicant.binary acc) /\
  forall e, In e acc ->
    Implicant.isEssential e = true /\
    exists p m,
      In p primes /\ In m minterms /\ e = setEssential p /\
      filter (fun imp => Implicant.covers imp m numVars) primes = [p].

(** The count of the candidate at an index of the greedy search. *)
Definition countAt (numVars : Z) (uncovered : list Z)
    (candidates : list Implicant.t) (j : nat) : Z :=
  coverCount numVars uncovered (nth j candidates emptyImplicant).

(** What [maxCover] and [bestIdx] are after the candidates below [i]. *)
Definition bestInv (numVars : Z) (uncovered : list Z)
    (candidates : list Implicant.t) (i : nat) (maxCover bestIdx : Z) : Prop :=
  (forall j, (j < i)%nat -> countAt numVars uncovered candidates j <= maxCover) /\
  ((bestIdx = -1 /\ maxCover = -1) \/
   (0 <= bestIdx < Z.of_nat i /\
    countAt numVars uncovered candidates (Z.to_nat bestIdx) = maxCover /\
    forall j, (j < Z.to_nat bestIdx)%nat ->
              countAt numVars uncovered candidates j < maxCover)).

(** One state of the merging half of a round comes after another: no mark
    and no merged implicant is ever taken back. *)
Definition grows (st st' : MergeState) : Prop :=
  length (marked st') = length (marked st) /\
  (forall idx, nth idx (marked st) false = true ->
               nth idx (marked st') false = true) /\
  (forall k m, In (k, m) (entries (newGroups st)) ->
               In (k, m) (entries (newGroups st'))).

(** The merge of [a] and [b], at the places [ia] and [ib] of the [marked]
    vector, is on record: both are marked and the merged implicant is in
    the new map under its count of ones. *)
Definition recorded (st : MergeState) (a b : Implicant.t) (ia ib : nat) : Prop :=
  nth ia (marked st) false = true /\
  nth ib (marked st) false = true /\
  In (Implicant.countOnes (Implicant.merged a b), Implicant.merged a b)
     (entries (newGroups st)).

(** Every marked implicant of the round [F] has a partner in the round that
    [canMerge] accepts. *)
Definition partnerInv (F : list Implicant.t) (st : MergeState) : Prop :=
  forall idx, nth idx (marked st) false = true ->
    exists a b, nth_error F idx = Some a /\ In b F /\
                Implicant.canMerge a b = true.

(** [m] is a minterm that makes [e] essential: the only prime that covers
    it is the one [e] was copied from. *)
Definition madeEssentialBy (numVars : Z) (primes : list Implicant.t)
    (e : Implicant.t) (m : Z) : Prop :=
  exists p,
    e = setEssential p /\
    filter (fun imp => Implicant.covers imp m numVars) primes = [p].

(** A pattern of [numVars] symbols is an implicant of the function that is
    true on [terms]: it covers no term of the truth table outside of
    [terms]. *)
Definition implicantOf (numVars : Z) (terms : list Z) (s : string) : Prop :=
  String.length s = Z.to_nat numVars /\
  ternary s = true /\
  forall t, inRange numVars t ->
    Implicant.covers_loop s (intToBinary t numVars) = true -> In t terms.

(** A prime implicant is an implicant that no other implicant subsumes;
    one pattern subsumes another when it holds, at each position, a dash
    or the symbol of the other, which is what the loop of [covers]
    tests. *)
Definition primeOf (numVars : Z) (terms : list Z) (s : string) : Prop :=
  implicantOf numVars terms s /\
  forall s', implicantOf numVars terms s' ->
             Implicant.covers_loop s' s = true -> s' = s.

(** ** The sizes the counters of a round can hold

    [totalSize], [markIndex] and [nextGroupStart] are [int] in the program
    and natural numbers here; the two agree as long as a round holds at
    most [INT_MAX] implicants (and the vectors can be allocated).  Merged
    implicants are not de-duplicated between rounds, so this is a condition
    on the instance and not a consequence of its validity. *)
Definition roundFits (groups : Groups) : Prop :=
  Z.of_nat (length (flatten groups)) <= INT_MAX.

Definition roundsFit (numVars : Z) (terms : list Z) : Prop :=
  forall round groups,
    roundGroups numVars terms round = Some groups -> roundFits groups.

(** ** The order that [std::sort] leaves open

    [std::sort] is not stable: among implicants with equal patterns it may
    leave any order, and two calls need not leave the same one.  The two
    sorts of implicants, in [removeDuplicates] and at the end of
    [findMinimalCover], are parameters of the definitions below; what is
    known of them is [sortsByPattern].  (The sorts of [int] vectors have
    one possible result, see [int_sort_unique].)  With [std_sort binary_lt]
    for both, these are the definitions above. *)
Definition sortsByPattern (sort : list Implicant.t -> list Implicant.t) : Prop :=
  forall l, Permutation (sort l) l /\
            StronglySorted (notAfter binary_lt) (sort l).

Definition sortsInts (sort : list Z -> list Z) : Prop :=
  forall l, Permutation (sort l) l /\ StronglySorted (notAfter Z.ltb) (sort l).

Section UnspecifiedOrder.
Variable sortPrimes : list Implicant.t -> list Implicant.t.
Variable sortCover : list Implicant.t -> list Implicant.t.

Definition removeDuplicatesWith (implicants : list Implicant.t)
    : list Implicant.t :=
  std_unique binary_eq (sortPrimes implicants).

Definition findPrimeImplicantsWith (fuel : nat) (numVars : Z) (terms : list Z)
    : option (list Implicant.t) :=
  match terms with
  | [] => Some []
  | _ =>
      match primeLoop fuel (initialGroups numVars terms) [] with
      | Some primeImplicants => Some (removeDuplicatesWith primeImplicants)
      | None => None
      end
  end.

Definition findMinimalCoverWith (fuel : nat) (numVars : Z) (minterms : list Z)
    (essentialPrimes allPrimes : list Implicant.t) : option (list Implicant.t) :=
  let cover := essentialPrimes in
  let uncoveredMinterms :=
    fold_left (fun s minterm =>
                 if negb (coveredBy numVars essentialPrimes minterm)
                 then set_insert minterm s else s)
              minterms [] in
  if isEmpty uncoveredMinterms then Some cover
  else
    let remainingPrimes :=
      filter (fun imp => negb (hasBinary (Implicant.binary imp) essentialPrimes))
             allPrimes in
    match greedyLoop fuel numVars uncoveredMinterms remainingPrimes cover with
    | Some cover' => Some (sortCover cover')
    | None => None
    end.

Definition minimalCoverWith (fuel : nat) (self : QuineMcCluskey)
    : option (list Implicant.t) :=
  let allTerms := allTermsOf (minterms self) (dontcares self) in
  match findPrimeImplicantsWith fuel (numVars self) allTerms with
  | None => None
  | Some primeImplicants =>
      let essentialPrimes :=
        findEssentialPrimes (numVars self) (minterms self) primeImplicants in
      findMinimalCoverWith fuel (numVars self) (minterms self)
                           essentialPrimes primeImplicants
  end.

Definition minimizeWith (fuel : nat) (self : QuineMcCluskey)
    : outcome string * QuineMcCluskey :=
  if numVars self >? 8 then (Thrown VariablesExceedLimit, self)
  else if numVars self <? 0 then (Undefined, self)
  else
    let maxTerm := Z.shiftl 1 (numVars self) - 1 in
    match firstOutOfRange maxTerm (minterms self) with
    | Some term => (Thrown (MintermOutOfRange term), self)
    | None =>
        match firstOutOfRange maxTerm (dontcares self) with
        | Some term => (Thrown (DontCareOutOfRange term), self)
        | None =>
            match minimalCoverWith fuel self with
            | Some cover => (Returned (formatSOP (varNames self) cover), self)
            | None => (OutOfFuel, self)
            end
        end
    end.
End UnspecifiedOrder.

(** ** Counting the copies of a pattern

    [newGroups[...].push_back(merged)] runs once for every accepted pair,
    also when an implicant with the merged pattern is in the map already;
    nothing removes the copies before the next round. *)
Definition hasPattern (s : string) (a : Implicant.t) : bool :=
  String.eqb (Implicant.binary a) s.

(** The implicants of a map that have the pattern [s]. *)
Definition copies (s : string) (groups : Groups) : nat :=
  length (filter (hasPattern s) (flatten groups)).

(** [canMerge] accepts the pair and its merged pattern is [s]. *)
Definition acceptsAs (s : string) (a b : Implicant.t) : bool :=
  Implicant.canMerge a b && hasPattern s (Implicant.merged a b).

(** The pairs of [group1] and [group2] that merge to the pattern [s]. *)
Fixpoint pairCount (s : string) (group1 group2 : list Implicant.t) : nat :=
  match group1 with
  | [] => O
  | a :: rest =>
      (length (filter (acceptsAs s a) group2) + pairCount s rest group2)%nat
  end.

(** The same over all neighbouring groups of a map whose keys differ by
    one. *)
Fixpoint walkCount (s : string) (groups : Groups) : nat :=
  match groups with
  | [] => O
  | (k1, group1) :: rest =>
      match rest with
      | [] => O
      | (k2, group2) :: _ =>
          ((if (k2 - k1 =? 1)%Z then pairCount s group1 group2 else O)
           + walkCount s rest)%nat
      end
  end.

(** A lower bound of the number of copies of a pattern with [d] dashes:
    1, 1, 2, 8, 128, 32768, 2^31, ... *)
Fixpoint copiesBound (d : nat) : Z :=
  match d with
  | O => 1
  | S d' =>
      match d' with
      | O => 1
      | S _ => 2 * copiesBound d' * copiesBound d'
      end
  end.

(** * Properties *)

(** ** The standard algorithms *)

#[local] Arguments Z.add _ _ : simpl never.
#[local] Arguments Z.sub _ _ : simpl never.
#[local] Arguments Z.mul _ _ : simpl never.
#[local] Arguments Z.pow _ _ : simpl never.
#[local] Arguments Z.of_nat _ : simpl never.
#[local] Arguments Z.to_nat _ : simpl never.

Section StdAlgorithmFacts.
Context {A : Type}.

Lemma sort_insert_In (lt : A -> A -> bool) (x y : A) (l : list A) :
  In y (sort_insert lt x l) <-> y = x \/ In y l.
Proof.
  induction l as [|z l IH]; simpl.
  - intuition.
  - destruct (lt z x); simpl; rewrite ?IH; intuition.
Qed.

Lemma std_sort_In (lt : A -> A -> bool) (y : A) (l : list A) :
  In y (std_sort lt l) <-> In y l.
Proof.
  induction l as [|x l IH]; simpl.
  - reflexivity.
  - rewrite sort_insert_In, IH. intuition.
Qed.

Lemma sort_insert_length (lt : A -> A -> bool) (x : A) (l : list A) :
  length (sort_insert lt x l) = S (length l).
Proof.
  induction l as [|z l IH]; simpl; auto.
  destruct (lt z x); simpl; auto.
Qed.

Lemma std_sort_length (lt : A -> A -> bool) (l : list A) :
  length (std_sort lt l) = length l.
Proof.
  induction l as [|x l IH]; simpl; auto.
  rewrite sort_insert_length. auto.
Qed.

Lemma unique_from_In (eq : A -> A -> bool) (l : list A) :
  forall kept y, In y (unique_from eq kept l) -> In y l.
Proof.
  induction l as [|x l IH]; simpl; intros kept y H; auto.
  destruct (eq kept x).
  - right. eapply IH; eauto.
  - destruct H as [H|H]; auto. right. eapply IH; eauto.
Qed.

Lemma std_unique_In (eq : A -> A -> bool) (l : list A) (y : A) :
  In y (std_unique eq l) -> In y l.
Proof.
  destruct l as [|x l]; simpl; auto.
  intros [H|H]; auto. right. eapply unique_from_In; eauto.
Qed.

(** Every element dropped by [std_unique] is equivalent to one that stays. *)
Lemma unique_from_repr (eq : A -> A -> bool) (l : list A) :
  forall kept y, In y l ->
    eq kept y = true \/ exists z, In z (unique_from eq kept l) /\ (z = y \/ eq z y = true).
Proof.
  induction l as [|x l IH]; simpl; intros kept y H; [tauto|].
  destruct H as [->|H].
  - destruct (eq kept y) eqn:E; auto.
    right. exists y. simpl. auto.
  - destruct (eq kept x) eqn:E.
    + apply IH; auto.
    + destruct (IH x y H) as [H1|(z & Hz & Hzy)].
      * right. exists x. simpl. auto.
      * right. exists z. simpl. auto.
Qed.

Lemma std_unique_repr (eq : A -> A -> bool) (l : list A) (y : A) :
  In y l -> exists z, In z (std_unique eq l) /\ (z = y \/ eq z y = true).
Proof.
  destruct l as [|x l]; simpl; [tauto|].
  intros [->|H].
  - exists y. auto.
  - destruct (unique_from_repr eq l x y H) as [H1|(z & Hz & Hzy)].
    + exists x. auto.
    + exists z. auto.
Qed.

Lemma erase_length (l : list A) :
  forall idx, (idx < length l)%nat -> length (erase l idx) = pred (length l).
Proof.
  induction l as [|x l IH]; simpl; intros idx H; [lia|].
  destruct idx as [|i]; simpl; auto.
  rewrite IH by lia. lia.
Qed.

Lemma erase_In (l : list A) :
  forall idx y, In y (erase l idx) -> In y l.
Proof.
  induction l as [|x l IH]; simpl; intros idx y H; auto.
  destruct idx as [|i]; simpl in H; auto.
  destruct H as [H|H]; eauto.
Qed.

Lemma erase_keeps (d : A) (l : list A) :
  forall idx y, In y l -> y = nth idx l d \/ In y (erase l idx).
Proof.
  induction l as [|x l IH]; simpl; intros idx y H; [tauto|].
  destruct idx as [|i]; simpl.
  - destruct H; auto.
  - destruct H as [H|H]; auto.
    destruct (IH i y H); auto.
Qed.
End StdAlgorithmFacts.

Lemma std_sort_sorted (l : list Z) :
  StronglySorted Z.lt l -> std_sort Z.ltb l = l.
Proof.
  induction 1 as [|x l Hs IH Hall]; simpl; auto.
  rewrite IH. destruct l as [|y l']; simpl; auto.
  inversion Hall; subst.
  destruct (Z.ltb_spec y x); [lia|reflexivity].
Qed.

Lemma set_true_length (m : list bool) :
  forall idx, length (set_true m idx) = length m.
Proof.
  induction m as [|b m IH]; simpl; intros idx; auto.
  destruct idx; simpl; auto.
Qed.

Lemma set_true_nth (m : list bool) :
  forall idx i, nth i (set_true m idx) false = true ->
    i = idx \/ nth i m false = true.
Proof.
  induction m as [|b m IH]; simpl; intros idx i H.
  - destruct i; discriminate.
  - destruct idx as [|idx]; destruct i as [|i]; simpl in *; auto.
    destruct (IH idx i H); auto.
Qed.

Lemma nth_repeat_false (n i : nat) : nth i (repeat false n) false = false.
Proof.
  revert i; induction n as [|n IH]; intros [|i]; simpl; auto.
Qed.

Lemma set_insert_In (x y : Z) (s : list Z) :
  In y (set_insert x s) <-> y = x \/ In y s.
Proof.
  induction s as [|z s IH]; simpl.
  - intuition.
  - destruct (Z.ltb_spec x z); simpl; [intuition|].
    destruct (Z.eqb_spec x z); simpl; [subst; intuition|].
    rewrite IH. intuition.
Qed.

(** ** Strings and patterns *)

Lemma append_empty_r (s : string) : s +++ EmptyString = s.
Proof. induction s; simpl; congruence. Qed.

Lemma append_assoc (a b c : string) : (a +++ b) +++ c = a +++ (b +++ c).
Proof. induction a; simpl; congruence. Qed.

Lemma append_length (a b : string) :
  String.length (a +++ b) = (String.length a + String.length b)%nat.
Proof. induction a; simpl; congruence. Qed.

Lemma ascii_eqb_true (a b : ascii) : Ascii.eqb a b = true <-> a = b.
Proof. apply Ascii.eqb_eq. Qed.

Lemma ascii_eqb_false (a b : ascii) : Ascii.eqb a b = false <-> a <> b.
Proof. apply Ascii.eqb_neq. Qed.

Lemma isBit_cases (c : ascii) : isBit c = true -> c = "0"%char \/ c = "1"%char.
Proof.
  unfold isBit. rewrite orb_true_iff, !ascii_eqb_true. tauto.
Qed.

Lemma isSymbol_cases (c : ascii) :
  isSymbol c = true -> c = "0"%char \/ c = "1"%char \/ c = "-"%char.
Proof.
  unfold isSymbol. rewrite !orb_true_iff, !ascii_eqb_true. tauto.
Qed.

Lemma intToBinary_from_length (n : Z) (k : nat) :
  String.length (intToBinary_from n k) = k.
Proof. induction k; simpl; congruence. Qed.

Lemma bitChar_isBit (n : Z) (i : nat) : isBit (bitChar n i) = true.
Proof. unfold bitChar. destruct (_ =? 0); reflexivity. Qed.

Lemma intToBinary_from_binary (n : Z) (k : nat) :
  binaryString (intToBinary_from n k) = true.
Proof. induction k; simpl; auto. rewrite bitChar_isBit. auto. Qed.

Lemma binaryString_ternary (s : string) :
  binaryString s = true -> ternary s = true.
Proof.
  induction s as [|c s IH]; simpl; auto.
  rewrite !andb_true_iff. intros [Hc Hs]. split; auto.
  unfold isSymbol. unfold isBit in Hc. rewrite Hc. reflexivity.
Qed.

Lemma binaryString_dashes (s : string) :
  binaryString s = true -> dashes s = O.
Proof.
  induction s as [|c s IH]; simpl; auto.
  rewrite andb_true_iff. intros [Hc Hs]. rewrite IH by auto.
  destruct (isBit_cases c Hc); subst; reflexivity.
Qed.

Lemma bitChar_mod2 (n : Z) (i : nat) :
  bitChar n i = if (n / 2 ^ Z.of_nat i) mod 2 =? 0 then "0"%char else "1"%char.
Proof.
  unfold bitChar.
  change 1 with (Z.ones 1) at 1. rewrite Z.land_ones by lia.
  rewrite Z.shiftr_div_pow2 by lia. reflexivity.
Qed.

(** [bitChar n i] reads bit [i] of [n]. *)
Lemma bitChar_testbit (n : Z) (i : nat) :
  bitChar n i = if Z.testbit n (Z.of_nat i) then "1"%char else "0"%char.
Proof.
  rewrite bitChar_mod2. rewrite <- Z.testbit_spec' by lia.
  destruct (Z.testbit n (Z.of_nat i)); reflexivity.
Qed.

(** Two terms with the same [k] low bits are equal modulo [2^k]. *)
Lemma intToBinary_from_inj (k : nat) (t t' : Z) :
  intToBinary_from t k = intToBinary_from t' k ->
  t mod 2 ^ Z.of_nat k = t' mod 2 ^ Z.of_nat k.
Proof.
  induction k as [|k IH]; simpl intToBinary_from; intros H.
  - simpl. rewrite !Z.mod_1_r. reflexivity.
  - injection H as Hc Hr. specialize (IH Hr).
    rewrite Nat2Z.inj_succ, Z.pow_succ_r by lia.
    rewrite (Z.mul_comm 2).
    rewrite !Z.rem_mul_r by lia. rewrite IH. f_equal. f_equal.
    rewrite !bitChar_mod2 in Hc.
    pose proof (Z.mod_pos_bound (t / 2 ^ Z.of_nat k) 2 ltac:(lia)).
    pose proof (Z.mod_pos_bound (t' / 2 ^ Z.of_nat k) 2 ltac:(lia)).
    destruct (Z.eqb_spec ((t / 2 ^ Z.of_nat k) mod 2) 0);
      destruct (Z.eqb_spec ((t' / 2 ^ Z.of_nat k) mod 2) 0);
      try discriminate; lia.
Qed.

Lemma intToBinary_inj (numVars t t' : Z) :
  0 <= numVars -> inRange numVars t -> inRange numVars t' ->
  intToBinary t numVars = intToBinary t' numVars -> t = t'.
Proof.
  unfold intToBinary, inRange. intros Hn Ht Ht' H.
  apply intToBinary_from_inj in H.
  rewrite Z2Nat.id in H by lia.
  rewrite !Z.mod_small in H by lia. exact H.
Qed.

(** *** The merge test *)

Lemma canMerge_loop_one (a : string) :
  forall b, String.length a = String.length b ->
    Implicant.canMerge_loop a b 1 = true -> a = b.
Proof.
  induction a as [|ca a IH]; intros [|cb b]; simpl; try discriminate; auto.
  intros Hl H. injection Hl as Hl.
  destruct (Ascii.eqb ca cb) eqn:E; simpl in H; [|discriminate].
  apply ascii_eqb_true in E. subst. f_equal. auto.
Qed.

(** Two patterns pass [canMerge] only if they are equal but for one
    position. *)
Lemma canMerge_loop_zero (a : string) :
  forall b, String.length a = String.length b ->
    Implicant.canMerge_loop a b 0 = true ->
    exists pre ca cb suf,
      a = pre +++ String ca suf /\ b = pre +++ String cb suf /\ ca <> cb.
Proof.
  induction a as [|ca a IH]; intros [|cb b]; simpl; try discriminate.
  intros Hl H. injection Hl as Hl.
  destruct (Ascii.eqb ca cb) eqn:E; simpl in H.
  - apply ascii_eqb_true in E. subst cb.
    destruct (IH b Hl H) as (pre & xa & xb & suf & -> & -> & Hne).
    exists (String ca pre), xa, xb, suf. simpl. auto.
  - apply ascii_eqb_false in E.
    apply canMerge_loop_one in H; auto. subst b.
    exists EmptyString, ca, cb, a. simpl. auto.
Qed.

Lemma canMerge_split (a b : Implicant.t) :
  Implicant.canMerge a b = true ->
  exists pre ca cb suf,
    Implicant.binary a = pre +++ String ca suf /\
    Implicant.binary b = pre +++ String cb suf /\ ca <> cb.
Proof.
  unfold Implicant.canMerge.
  destruct (Nat.eqb_spec (String.length (Implicant.binary a))
                         (String.length (Implicant.binary b))); simpl.
  - apply canMerge_loop_zero; auto.
  - discriminate.
Qed.

Lemma mergeBinary_same (s : string) : Implicant.mergeBinary s s = s.
Proof.
  induction s as [|c s IH]; simpl; auto.
  rewrite Ascii.eqb_refl. simpl. congruence.
Qed.

Lemma mergeBinary_split (pre suf : string) (ca cb : ascii) :
  ca <> cb ->
  Implicant.mergeBinary (pre +++ String ca suf) (pre +++ String cb suf)
  = pre +++ String "-" suf.
Proof.
  intros Hne. induction pre as [|c pre IH]; simpl.
  - apply ascii_eqb_false in Hne. rewrite Hne. simpl.
    rewrite mergeBinary_same. reflexivity.
  - rewrite Ascii.eqb_refl. simpl. congruence.
Qed.

Lemma dashes_append (a b : string) :
  dashes (a +++ b) = (dashes a + dashes b)%nat.
Proof. induction a; simpl; lia. Qed.

Lemma ternary_append (a b : string) :
  ternary (a +++ b) = ternary a && ternary b.
Proof.
  induction a; simpl; auto. rewrite IHa. apply andb_assoc.
Qed.

Lemma countOnes_append (a b : string) :
  Implicant.countOnes_str (a +++ b)
  = Implicant.countOnes_str a + Implicant.countOnes_str b.
Proof. induction a; simpl; lia. Qed.

(** *** Coverage of a term by a pattern *)

Lemma covers_loop_widen (pre suf : string) (c : ascii) :
  forall tb,
    Implicant.covers_loop (pre +++ String c suf) tb = true ->
    Implicant.covers_loop (pre +++ String "-" suf) tb = true.
Proof.
  induction pre as [|x pre IH]; simpl; intros tb H.
  - destruct (negb (Ascii.eqb c "-") && _); [discriminate|auto].
  - destruct (negb (Ascii.eqb x "-") && _); [discriminate|auto].
Qed.

Lemma covers_loop_narrow (pre suf : string) :
  forall tb,
    binaryString tb = true ->
    (String.length pre < String.length tb)%nat ->
    Implicant.covers_loop (pre +++ String "-" suf) tb = true ->
    Implicant.covers_loop (pre +++ String "0" suf) tb = true \/
    Implicant.covers_loop (pre +++ String "1" suf) tb = true.
Proof.
  induction pre as [|x pre IH]; simpl; intros tb Hb Hl H.
  - destruct tb as [|c tb]; simpl in *; [lia|].
    apply andb_true_iff in Hb. destruct Hb as [Hc _].
    destruct (isBit_cases c Hc); subst c; simpl; auto.
  - destruct tb as [|c tb]; simpl in *; [lia|].
    apply andb_true_iff in Hb. destruct Hb as [_ Hb].
    destruct (negb (Ascii.eqb x "-") && _); [discriminate|].
    apply IH; auto. lia.
Qed.

(** A pattern without [-] covers its own term only. *)
Lemma covers_loop_binary (s : string) :
  forall tb, binaryString s = true ->
    String.length s = String.length tb ->
    (Implicant.covers_loop s tb = true <-> s = tb).
Proof.
  induction s as [|c s IH]; intros [|d tb]; simpl; try discriminate.
  - tauto.
  - rewrite andb_true_iff. intros [Hc Hs] Hl. injection Hl as Hl.
    assert (Hd : Ascii.eqb c "-" = false)
      by (destruct (isBit_cases c Hc); subst; reflexivity).
    rewrite Hd. simpl.
    destruct (Ascii.eqb c d) eqn:E; simpl.
    + apply ascii_eqb_true in E. subst d. rewrite IH by auto.
      split; [congruence|]. intros H. injection H. auto.
    + apply ascii_eqb_false in E. split; [discriminate|]. congruence.
Qed.

(** ** Implicants *)

Lemma intToBinary_length (t numVars : Z) :
  String.length (intToBinary t numVars) = Z.to_nat numVars.
Proof. apply intToBinary_from_length. Qed.

Lemma intToBinary_binary (t numVars : Z) :
  binaryString (intToBinary t numVars) = true.
Proof. apply intToBinary_from_binary. Qed.

Section GoodImplicants.
Variable numVars : Z.
Variable terms : list Z.
Hypothesis numVars_nonneg : 0 <= numVars.
Hypothesis terms_inRange : Forall (inRange numVars) terms.

Lemma of_term_good (t : Z) :
  In t terms -> goodImplicant numVars terms 0 (Implicant.of_term t numVars).
Proof.
  intros Ht.
  assert (Hcov : forall t', inRange numVars t' ->
            Implicant.covers (Implicant.of_term t numVars) t' numVars = true ->
            t' = t).
  { intros t' Hr H. unfold Implicant.covers in H. simpl in H.
    apply covers_loop_binary in H.
    - symmetry. apply (intToBinary_inj numVars); auto.
      eapply Forall_forall in terms_inRange; eauto.
    - apply intToBinary_binary.
    - rewrite !intToBinary_length. reflexivity. }
  constructor; simpl.
  - apply intToBinary_length.
  - apply binaryString_ternary, intToBinary_binary.
  - apply binaryString_dashes, intToBinary_binary.
  - intros t'. split.
    + intros [<-|[]]. split; auto.
      unfold Implicant.covers. simpl.
      apply covers_loop_binary; auto using intToBinary_binary.
    + intros [Hin H]. left. symmetry. apply Hcov; auto.
      eapply Forall_forall in terms_inRange; eauto.
  - intros t' Hr H. rewrite (Hcov t' Hr H). exact Ht.
Qed.

(** The shape of a pair that [canMerge] accepts in a round: the one
    position at which the patterns differ holds [0] in one and [1] in the
    other. *)
Lemma canMerge_bits (d : nat) (a b : Implicant.t) :
  goodImplicant numVars terms d a -> goodImplicant numVars terms d b ->
  Implicant.canMerge a b = true ->
  exists pre ca cb suf,
    Implicant.binary a = pre +++ String ca suf /\
    Implicant.binary b = pre +++ String cb suf /\
    ((ca = "0" /\ cb = "1") \/ (ca = "1" /\ cb = "0"))%char.
Proof.
  intros Ga Gb H.
  destruct (canMerge_split a b H) as (pre & ca & cb & suf & Ea & Eb & Hne).
  exists pre, ca, cb, suf. split; auto. split; auto.
  pose proof (good_ternary _ _ _ _ Ga) as Ta.
  pose proof (good_ternary _ _ _ _ Gb) as Tb.
  pose proof (good_dashes _ _ _ _ Ga) as Da.
  pose proof (good_dashes _ _ _ _ Gb) as Db.
  rewrite Ea in Ta, Da. rewrite Eb in Tb, Db.
  rewrite ternary_append in Ta, Tb. simpl in Ta, Tb.
  rewrite dashes_append in Da, Db. simpl in Da, Db.
  apply andb_true_iff in Ta. destruct Ta as [_ Ta].
  apply andb_true_iff in Ta. destruct Ta as [Ta _].
  apply andb_true_iff in Tb. destruct Tb as [_ Tb].
  apply andb_true_iff in Tb. destruct Tb as [Tb _].
  destruct (isSymbol_cases ca Ta) as [->|[->| ->]];
    destruct (isSymbol_cases cb Tb) as [->|[->| ->]];
    simpl in Da, Db; try congruence; auto; lia.
Qed.

Lemma merged_covers (d : nat) (a b : Implicant.t) :
  goodImplicant numVars terms d a -> goodImplicant numVars terms d b ->
  Implicant.canMerge a b = true ->
  forall t,
    Implicant.covers (Implicant.merged a b) t numVars = true <->
    Implicant.covers a t numVars = true \/ Implicant.covers b t numVars = true.
Proof.
  intros Ga Gb H t.
  destruct (canMerge_bits d a b Ga Gb H) as (pre & ca & cb & suf & Ea & Eb & Hc).
  unfold Implicant.covers. simpl. rewrite Ea, Eb.
  assert (Hne : ca <> cb) by (destruct Hc as [[-> ->]|[-> ->]]; discriminate).
  rewrite mergeBinary_split by auto.
  split.
  - intros Hm. apply covers_loop_narrow in Hm.
    + destruct Hc as [[-> ->]|[-> ->]]; tauto.
    + apply intToBinary_binary.
    + rewrite intToBinary_length.
      rewrite <- (good_length _ _ _ _ Ga), Ea, append_length. simpl. lia.
  - intros [Hm|Hm]; eapply covers_loop_widen; eauto.
Qed.

Lemma merged_good (d : nat) (a b : Implicant.t) :
  goodImplicant numVars terms d a -> goodImplicant numVars terms d b ->
  Implicant.canMerge a b = true ->
  goodImplicant numVars terms (S d) (Implicant.merged a b).
Proof.
  intros Ga Gb H.
  pose proof (merged_covers d a b Ga Gb H) as Hcov.
  destruct (canMerge_bits d a b Ga Gb H) as (pre & ca & cb & suf & Ea & Eb & Hc).
  assert (Hne : ca <> cb) by (destruct Hc as [[-> ->]|[-> ->]]; discriminate).
  assert (Eb' : Implicant.binary (Implicant.merged a b) = pre +++ String "-" suf).
  { simpl. rewrite Ea, Eb. apply mergeBinary_split; auto. }
  pose proof (good_length _ _ _ _ Ga) as La.
  pose proof (good_ternary _ _ _ _ Ga) as Ta.
  pose proof (good_dashes _ _ _ _ Ga) as Da.
  rewrite Ea in La, Ta, Da.
  rewrite append_length in La. rewrite ternary_append in Ta.
  rewrite dashes_append in Da. simpl in La, Ta, Da.
  constructor.
  - rewrite Eb', append_length. simpl. exact La.
  - rewrite Eb', ternary_append. simpl.
    apply andb_true_iff in Ta. destruct Ta as [T1 T2].
    apply andb_true_iff in T2. destruct T2 as [_ T2].
    rewrite T1, T2. reflexivity.
  - rewrite Eb', dashes_append. simpl.
    destruct Hc as [[-> ->]|[-> ->]]; simpl in Da; lia.
  - intros t. simpl Implicant.minterms.
    rewrite std_sort_In, in_app_iff, Hcov.
    rewrite (good_minterms _ _ _ _ Ga), (good_minterms _ _ _ _ Gb). tauto.
  - intros t Hr Ht. apply Hcov in Ht. destruct Ht as [Ht|Ht].
    + eapply (good_sound _ _ _ _ Ga); eauto.
    + eapply (good_sound _ _ _ _ Gb); eauto.
Qed.

(** In a pair from adjacent groups the lower one holds the [0]. *)
Lemma canMerge_adjacent (d : nat) (a b : Implicant.t) :
  goodImplicant numVars terms d a -> goodImplicant numVars terms d b ->
  Implicant.canMerge a b = true ->
  Implicant.countOnes b - Implicant.countOnes a = 1 ->
  exists pre suf,
    Implicant.binary a = pre +++ String "0" suf /\
    Implicant.binary b = pre +++ String "1" suf.
Proof.
  intros Ga Gb H Hk.
  destruct (canMerge_bits d a b Ga Gb H) as (pre & ca & cb & suf & Ea & Eb & Hc).
  exists pre, suf.
  unfold Implicant.countOnes in Hk. rewrite Ea, Eb in Hk.
  rewrite !countOnes_append in Hk.
  destruct Hc as [[-> ->]|[-> ->]]; [split; assumption|].
  simpl in Hk. lia.
Qed.
End GoodImplicants.

(** ** The map of groups *)

Lemma push_back_at_entries (key : Z) (imp : Implicant.t) (groups : Groups) :
  forall k x,
    In (k, x) (entries (push_back_at key imp groups)) <->
    (k = key /\ x = imp) \/ In (k, x) (entries groups).
Proof.
  unfold entries.
  induction groups as [|[k0 v0] rest IH]; intros k x; simpl.
  - split.
    + intros [H|[]]. injection H as <- <-. auto.
    + intros [[-> ->]|[]]. auto.
  - destruct (Z.ltb_spec key k0); simpl.
    + rewrite !in_app_iff. split.
      * intros [H1|H1]; auto. injection H1 as <- <-. auto.
      * intros [[-> ->]|H1]; auto.
    + destruct (Z.eqb_spec key k0); simpl.
      * subst k0. rewrite !in_app_iff, map_app, in_app_iff. simpl. split.
        -- intros [[H1|[H1|[]]]|H1]; auto. injection H1 as <- <-. auto.
        -- intros [[-> ->]|[H1|H1]]; auto.
      * rewrite !in_app_iff, IH. tauto.
Qed.

Lemma push_back_at_keys_In (key : Z) (imp : Implicant.t) (groups : Groups) :
  forall k, In k (map fst (push_back_at key imp groups)) <->
            k = key \/ In k (map fst groups).
Proof.
  induction groups as [|[k0 v0] rest IH]; intros k; simpl.
  - intuition.
  - destruct (Z.ltb_spec key k0); simpl; [intuition|].
    destruct (Z.eqb_spec key k0); simpl; [subst; intuition|].
    rewrite IH. intuition.
Qed.

Lemma push_back_at_keys (key : Z) (imp : Implicant.t) (groups : Groups) :
  keysAscending groups -> keysAscending (push_back_at key imp groups).
Proof.
  unfold keysAscending.
  induction groups as [|[k0 v0] rest IH]; simpl; intros Hs.
  - constructor; constructor.
  - inversion Hs as [|? ? Hs' Hall]; subst.
    destruct (Z.ltb_spec key k0); simpl.
    + constructor; auto. constructor; auto.
      eapply Forall_impl; [|exact Hall]. simpl. intros; lia.
    + destruct (Z.eqb_spec key k0); simpl.
      * constructor; auto.
      * constructor; auto.
        apply Forall_forall. intros k Hk.
        apply push_back_at_keys_In in Hk. destruct Hk as [->|Hk]; [lia|].
        eapply Forall_forall in Hall; eauto.
Qed.

Lemma push_back_at_nonempty (key : Z) (imp : Implicant.t) (groups : Groups) :
  push_back_at key imp groups <> [].
Proof.
  destruct groups as [|[k0 v0] rest]; simpl; [discriminate|].
  destruct (key <? k0); [discriminate|].
  destruct (key =? k0); discriminate.
Qed.

Lemma flatten_entries (groups : Groups) (x : Implicant.t) :
  In x (flatten groups) <-> exists k, In (k, x) (entries groups).
Proof.
  unfold flatten, entries.
  induction groups as [|[k0 v0] rest IH]; simpl.
  - split; [tauto|]. intros [k []].
  - rewrite in_app_iff, IH. split.
    + intros [H|[k H]].
      * exists k0. apply in_or_app. left. apply in_map. exact H.
      * exists k. apply in_or_app. auto.
    + intros [k H]. apply in_app_or in H. destruct H as [H|H].
      * left. apply in_map_iff in H. destruct H as (y & E & Hy).
        injection E as _ <-. exact Hy.
      * right. exists k. exact H.
Qed.

Lemma entries_groups (groups : Groups) (k : Z) (x : Implicant.t) :
  In (k, x) (entries groups) <-> exists v, In (k, v) groups /\ In x v.
Proof.
  unfold entries. rewrite in_flat_map. split.
  - intros ([k0 v0] & Hg & Hx). simpl in Hx.
    apply in_map_iff in Hx. destruct Hx as (y & E & Hy).
    injection E as <- <-. eauto.
  - intros (v & Hg & Hx). exists (k, v). split; auto.
    simpl. apply in_map. exact Hx.
Qed.

Lemma totalSize_flatten (groups : Groups) :
  forall n, fold_left (fun n p => (n + length (snd p))%nat) groups n
            = (n + length (flatten groups))%nat.
Proof.
  unfold flatten.
  induction groups as [|[k v] rest IH]; simpl; intros n; [lia|].
  rewrite IH, length_app. lia.
Qed.

Lemma keysAscending_NoDup (groups : Groups) :
  keysAscending groups -> NoDup (map fst groups).
Proof.
  unfold keysAscending. induction 1 as [|k l Hs IH Hall]; constructor; auto.
  intros Hin. eapply Forall_forall in Hall; eauto. lia.
Qed.

Lemma at_key_middle (pre suf : Groups) (k : Z) (v : list Implicant.t) :
  NoDup (map fst (pre ++ (k, v) :: suf)) ->
  at_key (pre ++ (k, v) :: suf) k = v.
Proof.
  unfold at_key. induction pre as [|[k0 v0] pre IH]; simpl; intros Hnd.
  - rewrite Z.eqb_refl. reflexivity.
  - inversion Hnd as [|? ? Hnot Hnd']; subst.
    destruct (Z.eqb_spec k0 k).
    + subst k0. exfalso. apply Hnot.
      rewrite map_app, in_app_iff. simpl. auto.
    + auto.
Qed.

(** The loop over the sorted keys walks the entries of the map. *)
Lemma mergeStep_walk (groups : Groups) :
  NoDup (map fst groups) ->
  forall suf pre st markIndex,
    groups = pre ++ suf ->
    fst (fold_left (mergeStep groups (map fst groups))
                   (seq (length pre) (length suf - 1)) (st, markIndex))
    = mergeWalk suf markIndex st.
Proof.
  intros Hnd suf.
  induction suf as [|[k1 v1] suf IH]; intros pre st markIndex Hg; simpl.
  - reflexivity.
  - destruct suf as [|[k2 v2] suf']; simpl.
    + reflexivity.
    + assert (Hk1 : nth (length pre) (map fst groups) 0 = k1).
      { rewrite Hg, map_app, app_nth2; rewrite length_map; [|lia].
        rewrite Nat.sub_diag. reflexivity. }
      assert (Hk2 : nth (S (length pre)) (map fst groups) 0 = k2).
      { rewrite Hg, map_app, app_nth2; rewrite length_map; [|lia].
        replace (S (length pre) - length pre)%nat with 1%nat by lia.
        reflexivity. }
      assert (Hv1 : at_key groups k1 = v1).
      { rewrite Hg. apply at_key_middle. rewrite <- Hg. exact Hnd. }
      assert (Hv2 : at_key groups k2 = v2).
      { rewrite Hg.
        change (pre ++ (k1, v1) :: (k2, v2) :: suf')
          with (pre ++ [(k1, v1)] ++ (k2, v2) :: suf').
        rewrite app_assoc. apply at_key_middle.
        rewrite <- app_assoc. simpl. rewrite <- Hg. exact Hnd. }
      rewrite Hk1, Hk2, Hv1, Hv2.
      specialize (IH (pre ++ [(k1, v1)])).
      rewrite length_app in IH. simpl in IH.
      rewrite Nat.add_1_r, Nat.sub_0_r in IH.
      apply IH. rewrite <- app_assoc. exact Hg.
Qed.

Lemma mergeAdjacent_walk (groups : Groups) :
  keysAscending groups ->
  mergeAdjacent groups
  = mergeWalk groups 0 (initialMergeState (length (flatten groups))).
Proof.
  intros Hk. unfold mergeAdjacent, getSortedKeys.
  rewrite std_sort_sorted by exact Hk.
  rewrite totalSize_flatten. simpl.
  rewrite length_map.
  apply (mergeStep_walk groups (keysAscending_NoDup groups Hk) groups []).
  reflexivity.
Qed.

(** ** One round of merging *)

Lemma merged_widen (a b : Implicant.t) :
  Implicant.canMerge a b = true ->
  forall tb,
    Implicant.covers_loop (Implicant.binary a) tb = true \/
    Implicant.covers_loop (Implicant.binary b) tb = true ->
    Implicant.covers_loop (Implicant.binary (Implicant.merged a b)) tb = true.
Proof.
  intros H tb Hc.
  destruct (canMerge_split a b H) as (pre & ca & cb & suf & Ea & Eb & Hne).
  simpl. rewrite Ea, Eb in *. rewrite mergeBinary_split by auto.
  destruct Hc; eapply covers_loop_widen; eauto.
Qed.

Lemma initialMergeState_inv (F : list Implicant.t) :
  mergeInv F (initialMergeState (length F)).
Proof.
  constructor; simpl.
  - apply repeat_length.
  - intros idx H. rewrite nth_repeat_false in H. discriminate.
  - intros k m [].
  - reflexivity.
  - discriminate.
  - constructor.
Qed.

Section MergeInvariant.
Variable F : list Implicant.t.

Lemma tryMerge_inv (a b : Implicant.t) (markIndex size1 j k : nat)
    (st : MergeState) :
  mergeInv F st ->
  nth_error F (markIndex + j) = Some a ->
  nth_error F (markIndex + size1 + k) = Some b ->
  mergeInv F (tryMerge a b markIndex size1 j k st).
Proof.
  intros I Ha Hb. unfold tryMerge.
  destruct (Implicant.canMerge a b) eqn:Hm; [|exact I].
  assert (Hin : In (Implicant.merged a b)
                   (flatten (push_back_at
                               (Implicant.countOnes (Implicant.merged a b))
                               (Implicant.merged a b) (newGroups st)))).
  { apply flatten_entries. eexists. apply push_back_at_entries. left. eauto. }
  constructor; simpl.
  - rewrite !set_true_length. apply (inv_length _ _ I).
  - intros idx H.
    apply set_true_nth in H. destruct H as [->|H].
    { exists b, (Implicant.merged a b). repeat split; auto.
      intros tb Hc. apply merged_widen; auto. }
    apply set_true_nth in H. destruct H as [->|H].
    { exists a, (Implicant.merged a b). repeat split; auto.
      intros tb Hc. apply merged_widen; auto. }
    destruct (inv_marked _ _ I idx H) as (x & m & Hx & Hmin & Hc).
    exists x, m. repeat split; auto.
    apply flatten_entries in Hmin. destruct Hmin as [k' Hmin].
    apply flatten_entries. exists k'. apply push_back_at_entries. auto.
  - intros k' m H. apply push_back_at_entries in H.
    destruct H as [[-> ->]|H].
    + split; auto. exists a, b. repeat split; eauto using nth_error_In.
    + apply (inv_origin _ _ I); auto.
  - discriminate.
  - intros _. eauto.
  - apply push_back_at_keys, (inv_keys _ _ I).
Qed.

Lemma scanGroup2_inv (a : Implicant.t) (markIndex size1 j : nat)
    (group2 : list Implicant.t) :
  forall k st,
    mergeInv F st ->
    nth_error F (markIndex + j) = Some a ->
    (forall i b, nth_error group2 i = Some b ->
                 nth_error F (markIndex + size1 + (k + i)) = Some b) ->
    mergeInv F (scanGroup2 a markIndex size1 j group2 k st).
Proof.
  induction group2 as [|b rest IH]; simpl; intros k st I Ha Hg; auto.
  apply IH; auto.
  - apply tryMerge_inv; auto.
    specialize (Hg O b eq_refl). rewrite Nat.add_0_r in Hg. exact Hg.
  - intros i x Hx. specialize (Hg (S i) x Hx).
    replace (S k + i)%nat with (k + S i)%nat by lia. exact Hg.
Qed.

Lemma scanGroup1_inv (markIndex size1 : nat) (group2 group1 : list Implicant.t) :
  forall j st,
    mergeInv F st ->
    (forall i a, nth_error group1 i = Some a ->
                 nth_error F (markIndex + (j + i)) = Some a) ->
    (forall i b, nth_error group2 i = Some b ->
                 nth_error F (markIndex + size1 + i) = Some b) ->
    mergeInv F (scanGroup1 markIndex size1 group1 j group2 st).
Proof.
  induction group1 as [|a rest IH]; simpl; intros j st I H1 H2; auto.
  apply IH; auto.
  - apply scanGroup2_inv; auto.
    specialize (H1 O a eq_refl). rewrite Nat.add_0_r in H1. exact H1.
  - intros i x Hx. specialize (H1 (S i) x Hx).
    replace (S j + i)%nat with (j + S i)%nat by lia. exact H1.
Qed.

Lemma mergeWalk_inv (groups : Groups) :
  forall markIndex st,
    mergeInv F st ->
    (forall i x, nth_error (flatten groups) i = Some x ->
                 nth_error F (markIndex + i) = Some x) ->
    mergeInv F (mergeWalk groups markIndex st).
Proof.
  induction groups as [|[k1 g1] rest IH]; simpl; intros markIndex st I HF; auto.
  destruct rest as [|[k2 g2] rest']; auto.
  apply IH.
  - destruct (k2 - k1 =? 1); auto.
    apply scanGroup1_inv; auto.
    + intros i a Ha. apply HF. unfold flatten. simpl.
      rewrite nth_error_app1; auto.
      apply nth_error_Some. congruence.
    + intros i b Hb.
      rewrite <- Nat.add_assoc. apply HF. unfold flatten. simpl.
      rewrite nth_error_app2 by lia.
      replace (length g1 + i - length g1)%nat with i by lia.
      rewrite nth_error_app1; auto.
      apply nth_error_Some. congruence.
  - intros i x Hx. rewrite <- Nat.add_assoc. apply HF.
    unfold flatten in *. simpl in *.
    rewrite nth_error_app2 by lia.
    replace (length g1 + i - length g1)%nat with i by lia. exact Hx.
Qed.
End MergeInvariant.

Lemma mergeAdjacent_inv (groups : Groups) :
  keysAscending groups -> mergeInv (flatten groups) (mergeAdjacent groups).
Proof.
  intros Hk. rewrite mergeAdjacent_walk by exact Hk.
  apply mergeWalk_inv.
  - apply initialMergeState_inv.
  - intros i x Hx. exact Hx.
Qed.

(** *** Collecting the unmarked implicants *)

Lemma collectGroup_In (marked : list bool) (markIndex : nat)
    (group : list Implicant.t) :
  forall i acc x,
    In x (collectGroup marked markIndex group i acc) <->
    In x acc \/
    exists j a, nth_error group j = Some a /\
                nth (markIndex + (i + j)) marked false = false /\
                x = setPrime a.
Proof.
  induction group as [|a rest IH]; simpl; intros i acc x.
  - split; auto. intros [H|(j & a & H & _)]; auto. destruct j; discriminate.
  - rewrite IH. split.
    + intros [H|(j & y & Hy & Hm & ->)].
      * destruct (nth (markIndex + i) marked false) eqn:E; simpl in H; auto.
        apply in_app_or in H. destruct H as [H|[<-|[]]]; auto.
        right. exists O, a. rewrite Nat.add_0_r. auto.
      * right. exists (S j), y. repeat split; auto.
        replace (i + S j)%nat with (S i + j)%nat by lia. exact Hm.
    + intros [H|(j & y & Hy & Hm & ->)].
      * left. destruct (negb _); auto. apply in_or_app. auto.
      * destruct j as [|j]; simpl in Hy.
        -- injection Hy as ->. rewrite Nat.add_0_r in Hm. rewrite Hm. simpl.
           left. apply in_or_app. simpl. auto.
        -- right. exists j, y. repeat split; auto.
           replace (S i + j)%nat with (i + S j)%nat by lia. exact Hm.
Qed.

Lemma collectUnmarked_In (marked : list bool) (groups : Groups) :
  forall markIndex acc x,
    In x (collectUnmarked marked groups markIndex acc) <->
    In x acc \/
    exists j a, nth_error (flatten groups) j = Some a /\
                nth (markIndex + j) marked false = false /\
                x = setPrime a.
Proof.
  unfold flatten.
  induction groups as [|[k g] rest IH]; simpl; intros markIndex acc x.
  - split; auto. intros [H|(j & a & H & _)]; auto. destruct j; discriminate.
  - rewrite IH, collectGroup_In. split.
    + intros [[H|(j & a & Ha & Hm & ->)]|(j & a & Ha & Hm & ->)]; auto.
      * right. exists j, a. repeat split; auto.
        rewrite nth_error_app1; auto. apply nth_error_Some. congruence.
      * right. exists (length g + j)%nat, a. repeat split.
        -- rewrite nth_error_app2 by lia.
           replace (length g + j - length g)%nat with j by lia. exact Ha.
        -- rewrite Nat.add_assoc. exact Hm.
    + intros [H|(j & a & Ha & Hm & ->)]; auto.
      destruct (Nat.lt_ge_cases j (length g)) as [Hlt|Hge].
      * left. right. exists j, a. rewrite nth_error_app1 in Ha by auto. auto.
      * right. exists (j - length g)%nat, a.
        rewrite nth_error_app2 in Ha by auto. repeat split; auto.
        replace (markIndex + length g + (j - length g))%nat
          with (markIndex + j)%nat by lia. exact Hm.
Qed.

(** ** The rounds of [findPrimeImplicants] *)

Lemma dashes_le_length (s : string) : (dashes s <= String.length s)%nat.
Proof.
  induction s as [|c s IH]; simpl; auto.
  destruct (Ascii.eqb c "-"); lia.
Qed.

Lemma setPrime_good (numVars : Z) (terms : list Z) (d : nat) (a : Implicant.t) :
  goodImplicant numVars terms d a -> goodImplicant numVars terms d (setPrime a).
Proof. intros [H1 H2 H3 H4 H5]. constructor; auto. Qed.

Lemma isEmpty_false {A : Type} (l : list A) :
  isEmpty l = false -> exists x, In x l.
Proof. destruct l as [|x l]; [discriminate|]. exists x. simpl. auto. Qed.

Lemma isEmpty_true {A : Type} (l : list A) : isEmpty l = true -> l = [].
Proof. destruct l; [reflexivity|discriminate]. Qed.

Section Rounds.
Variable numVars : Z.
Variable terms : list Z.
Hypothesis numVars_nonneg : 0 <= numVars.
Hypothesis terms_inRange : Forall (inRange numVars) terms.

Lemma initialGroups_from (l : list Z) :
  forall acc,
    incl l terms ->
    goodGroups numVars terms 0 acc ->
    goodGroups numVars terms 0
      (fold_left (fun groups term =>
                    let imp := Implicant.of_term term numVars in
                    push_back_at (Implicant.countOnes imp) imp groups)
                 l acc).
Proof.
  induction l as [|t l IH]; simpl; intros acc Hl Hacc; auto.
  apply IH.
  - intros x Hx. apply Hl. simpl. auto.
  - destruct Hacc as [Hk He]. split.
    + apply push_back_at_keys, Hk.
    + intros k x H. apply push_back_at_entries in H.
      destruct H as [[-> ->]|H]; auto.
      split; auto. apply of_term_good; auto. apply Hl. simpl. auto.
Qed.

Lemma initialGroups_good :
  goodGroups numVars terms 0 (initialGroups numVars terms).
Proof.
  apply initialGroups_from.
  - apply incl_refl.
  - split; [constructor|]. intros k x [].
Qed.

Lemma initialGroups_entries_from (l : list Z) :
  forall acc k x,
    In (k, x) (entries
                 (fold_left (fun groups term =>
                               let imp := Implicant.of_term term numVars in
                               push_back_at (Implicant.countOnes imp) imp groups)
                            l acc)) <->
    In (k, x) (entries acc) \/
    exists t, In t l /\ x = Implicant.of_term t numVars /\
              k = Implicant.countOnes x.
Proof.
  induction l as [|t l IH]; simpl; intros acc k x.
  - split; auto. intros [H|(t & [] & _)]; auto.
  - rewrite IH, push_back_at_entries. split.
    + intros [[[-> ->]|H]|(t' & Ht' & E)]; auto.
      * right. exists t. auto.
      * right. exists t'. tauto.
    + intros [H|(t' & [<-|Ht'] & -> & ->)]; auto.
      right. exists t'. auto.
Qed.

Lemma initialGroups_entries (t : Z) :
  In t terms ->
  In (Implicant.of_term t numVars) (flatten (initialGroups numVars terms)).
Proof.
  intros Ht. apply flatten_entries. eexists.
  apply initialGroups_entries_from. right. exists t. eauto.
Qed.

Lemma goodGroups_flatten (d : nat) (groups : Groups) (x : Implicant.t) :
  goodGroups numVars terms d groups -> In x (flatten groups) ->
  goodImplicant numVars terms d x.
Proof.
  intros [_ H] Hx. apply flatten_entries in Hx. destruct Hx as [k Hx].
  apply (H k x Hx).
Qed.

Lemma mergeAdjacent_good (d : nat) (groups : Groups) :
  goodGroups numVars terms d groups ->
  goodGroups numVars terms (S d) (newGroups (mergeAdjacent groups)).
Proof.
  intros G. pose proof (mergeAdjacent_inv groups (proj1 G)) as I.
  split; [apply (inv_keys _ _ I)|].
  intros k x H.
  destruct (inv_origin _ _ I k x H) as (Hk & a & b & Ha & Hb & Hm & ->).
  split; auto.
  eapply merged_good; eauto using goodGroups_flatten.
Qed.

(** With the map of a round whose patterns have [d] dashes, the loop is
    over after at most [numVars - d + 1] rounds; every implicant of the
    round is then subsumed by one of the collected primes, and every prime
    comes from some round. *)
Lemma primeLoop_spec (fuel : nat) :
  forall d groups primes,
    goodGroups numVars terms d groups ->
    flatten groups <> [] ->
    (Z.to_nat numVars - d < fuel)%nat ->
    exists result,
      primeLoop fuel groups primes = Some result /\
      (forall x, In x result ->
                 In x primes \/ exists d', goodImplicant numVars terms d' x) /\
      (forall x, In x primes -> In x result) /\
      (forall a tb, In a (flatten groups) ->
         Implicant.covers_loop (Implicant.binary a) tb = true ->
         exists p, In p result /\
                   Implicant.covers_loop (Implicant.binary p) tb = true).
Proof.
  induction fuel as [|fuel IH]; intros d groups primes G Hne Hfuel; [lia|].
  simpl.
  pose proof (mergeAdjacent_inv groups (proj1 G)) as I.
  set (st := mergeAdjacent groups) in *.
  set (primes' := collectUnmarked (marked st) groups 0 primes).
  assert (Hcollected : forall x, In x primes' ->
            In x primes \/ exists d', goodImplicant numVars terms d' x).
  { intros x Hx. apply collectUnmarked_In in Hx.
    destruct Hx as [Hx|(j & a & Ha & _ & ->)]; auto.
    right. exists d. apply setPrime_good.
    eapply goodGroups_flatten; eauto using nth_error_In. }
  assert (Hkept : forall x, In x primes -> In x primes').
  { intros x Hx. apply collectUnmarked_In. auto. }
  destruct (changed st) eqn:Hch.
  - destruct (inv_changed _ _ I Hch) as [m Hm].
    pose proof (mergeAdjacent_good d groups G) as G'. fold st in G'.
    pose proof (goodGroups_flatten _ _ _ G' Hm) as Gm.
    pose proof (dashes_le_length (Implicant.binary m)) as Hd.
    rewrite (good_dashes _ _ _ _ Gm), (good_length _ _ _ _ Gm) in Hd.
    destruct (IH (S d) (newGroups st) primes' G') as (result & Hr & H1 & H2 & H3).
    { intros E. rewrite E in Hm. destruct Hm. }
    { lia. }
    exists result. split; auto. split; [|split].
    + intros x Hx. destruct (H1 x Hx); auto.
    + auto.
    + intros a tb Ha Hc.
      destruct (In_nth_error _ _ Ha) as [idx Hidx].
      destruct (nth idx (marked st) false) eqn:Hmark.
      * destruct (inv_marked _ _ I idx Hmark) as (a' & m' & Ha' & Hm' & Hsub).
        rewrite Hidx in Ha'. injection Ha' as <-.
        apply (H3 m' tb Hm'). auto.
      * exists (setPrime a). split; auto.
        apply H2. apply collectUnmarked_In. right. exists idx, a. auto.
  - exists primes'. split; auto. split; [|split]; auto.
    intros a tb Ha Hc.
    destruct (In_nth_error _ _ Ha) as [idx Hidx].
    destruct (nth idx (marked st) false) eqn:Hmark.
    + destruct (inv_marked _ _ I idx Hmark) as (a' & m' & _ & Hm' & _).
      rewrite (inv_unchanged _ _ I Hch) in Hm'. destruct Hm'.
    + exists (setPrime a). split; auto.
      apply collectUnmarked_In. right. exists idx, a. auto.
Qed.

Lemma roundGroups_succ (r : nat) :
  roundGroups numVars terms (S (S r))
  = match roundGroups numVars terms (S r) with
    | Some groups =>
        if changed (mergeAdjacent groups)
        then Some (newGroups (mergeAdjacent groups)) else None
    | None => None
    end.
Proof. reflexivity. Qed.

Lemma roundGroups_good (round : nat) :
  forall groups,
    roundGroups numVars terms round = Some groups ->
    goodGroups numVars terms (pred round) groups /\ flatten groups <> [].
Proof.
  induction round as [|r IH]; intros groups H; [discriminate|].
  destruct r as [|r].
  - simpl in H. destruct (isEmpty terms) eqn:E; [discriminate|].
    injection H as <-. split.
    + apply initialGroups_good.
    + destruct (isEmpty_false _ E) as [t Ht].
      intros Hf. pose proof (initialGroups_entries t Ht) as Hin.
      rewrite Hf in Hin. exact Hin.
  - rewrite roundGroups_succ in H.
    destruct (roundGroups numVars terms (S r)) as [g|] eqn:Eg; [|discriminate].
    destruct (IH g eq_refl) as [G Hne].
    destruct (changed (mergeAdjacent g)) eqn:Hch; [|discriminate].
    injection H as <-. split.
    + apply (mergeAdjacent_good _ _ G).
    + pose proof (mergeAdjacent_inv g (proj1 G)) as I.
      destruct (inv_changed _ _ I Hch) as [m Hm].
      intros E. rewrite E in Hm. destruct Hm.
Qed.
(** The loop walks the maps of [roundGroups]: started on the map of one
    round it either stops, when that round merged nothing, or goes on with
    the map of the next. *)
Lemma primeLoop_round (r fuel : nat) (groups : Groups)
    (primes : list Implicant.t) :
roundGroups numVars terms (S r) = Some groups ->
primeLoop (S fuel) groups primes
= match roundGroups numVars terms (S (S r)) with
  | Some groups' =>
      primeLoop fuel groups'
        (collectUnmarked (marked (mergeAdjacent groups)) groups 0 primes)
  | None =>
      Some (collectUnmarked (marked (mergeAdjacent groups)) groups 0 primes)
  end.
Proof.
intros H. rewrite roundGroups_succ, H. cbn [primeLoop].
destruct (changed (mergeAdjacent groups)); reflexivity.
Qed.

Lemma findPrimeImplicants_rounds (fuel : nat) :
findPrimeImplicants fuel numVars terms
= match roundGroups numVars terms 1 with
  | Some groups =>
      match primeLoop fuel groups [] with
      | Some primes => Some (removeDuplicates primes)
      | None => None
      end
  | None => Some []
  end.
Proof.
unfold findPrimeImplicants. cbn [roundGroups].
destruct terms; reflexivity.
Qed.
End Rounds.

(** ** Fuel *)

Lemma primeLoop_more_fuel (fuel : nat) :
  forall fuel' groups primes result,
    primeLoop fuel groups primes = Some result ->
    (fuel <= fuel')%nat ->
    primeLoop fuel' groups primes = Some result.
Proof.
  induction fuel as [|fuel IH]; intros fuel' groups primes result H Hle;
    [discriminate|].
  destruct fuel' as [|fuel']; [lia|].
  simpl in *. destruct (changed (mergeAdjacent groups)); auto.
  apply IH; auto. lia.
Qed.

Lemma greedyLoop_more_fuel (numVars : Z) (fuel : nat) :
  forall fuel' uncovered remaining cover result,
    greedyLoop fuel numVars uncovered remaining cover = Some result ->
    (fuel <= fuel')%nat ->
    greedyLoop fuel' numVars uncovered remaining cover = Some result.
Proof.
  induction fuel as [|fuel IH]; intros fuel' uncovered remaining cover result H Hle.
  - simpl in H. destruct fuel'; simpl;
      destruct (isEmpty uncovered || isEmpty remaining); congruence.
  - destruct fuel' as [|fuel']; [lia|].
    simpl in *. destruct (isEmpty uncovered || isEmpty remaining); auto.
    destruct (snd (findBest numVars uncovered remaining 0 (-1) (-1)) >=? 0);
      apply IH; auto; lia.
Qed.

Lemma findPrimeImplicants_more_fuel (fuel fuel' : nat) (numVars : Z)
    (terms : list Z) (primes : list Implicant.t) :
  findPrimeImplicants fuel numVars terms = Some primes ->
  (fuel <= fuel')%nat ->
  findPrimeImplicants fuel' numVars terms = Some primes.
Proof.
  unfold findPrimeImplicants. destruct terms as [|t l]; auto.
  destruct (primeLoop fuel _ _) as [r|] eqn:E; [|discriminate].
  intros H Hle. rewrite (primeLoop_more_fuel _ _ _ _ _ E Hle). exact H.
Qed.

Lemma findMinimalCover_more_fuel (fuel fuel' : nat) (numVars : Z)
    (minterms : list Z) (essentialPrimes allPrimes cover : list Implicant.t) :
  findMinimalCover fuel numVars minterms essentialPrimes allPrimes = Some cover ->
  (fuel <= fuel')%nat ->
  findMinimalCover fuel' numVars minterms essentialPrimes allPrimes = Some cover.
Proof.
  unfold findMinimalCover. destruct (isEmpty _); auto.
  destruct (greedyLoop fuel _ _ _ _) as [r|] eqn:E; [|discriminate].
  intros H Hle. rewrite (greedyLoop_more_fuel _ _ _ _ _ _ _ E Hle). exact H.
Qed.

Lemma minimalCover_more_fuel (fuel fuel' : nat) (q : QuineMcCluskey)
    (cover : list Implicant.t) :
  minimalCover fuel q = Some cover ->
  (fuel <= fuel')%nat ->
  minimalCover fuel' q = Some cover.
Proof.
  unfold minimalCover.
  destruct (findPrimeImplicants fuel _ _) as [p|] eqn:E; [|discriminate].
  intros H Hle. rewrite (findPrimeImplicants_more_fuel _ _ _ _ _ E Hle).
  eapply findMinimalCover_more_fuel; eauto.
Qed.

(** ** Step 1 as a whole *)

Lemma covers_binary (a b : Implicant.t) (t numVars : Z) :
  Implicant.binary a = Implicant.binary b ->
  Implicant.covers a t numVars = Implicant.covers b t numVars.
Proof. unfold Implicant.covers. intros ->. reflexivity. Qed.

Lemma binary_eq_true (a b : Implicant.t) :
  binary_eq a b = true -> Implicant.binary a = Implicant.binary b.
Proof. unfold binary_eq. apply String.eqb_eq. Qed.

Lemma removeDuplicates_In (l : list Implicant.t) (x : Implicant.t) :
  In x (removeDuplicates l) -> In x l.
Proof.
  unfold removeDuplicates. intros H.
  apply std_unique_In in H. apply std_sort_In in H. exact H.
Qed.

Lemma removeDuplicates_repr (l : list Implicant.t) (x : Implicant.t) :
  In x l ->
  exists y, In y (removeDuplicates l) /\ Implicant.binary y = Implicant.binary x.
Proof.
  intros H. unfold removeDuplicates.
  destruct (std_unique_repr binary_eq (std_sort binary_lt l) x) as (z & Hz & E).
  - apply std_sort_In. exact H.
  - exists z. split; auto. destruct E as [->|E]; auto using binary_eq_true.
Qed.

Lemma findPrimeImplicants_spec (fuel : nat) (numVars : Z) (terms : list Z) :
  0 <= numVars -> Forall (inRange numVars) terms ->
  (Z.to_nat numVars < fuel)%nat ->
  exists primes,
    findPrimeImplicants fuel numVars terms = Some primes /\
    (forall p, In p primes -> exists d, goodImplicant numVars terms d p) /\
    (forall t, In t terms ->
       exists p, In p primes /\ Implicant.covers p t numVars = true).
Proof.
  intros Hn Hr Hfuel. unfold findPrimeImplicants.
  destruct (isEmpty terms) eqn:Eempty.
  { apply isEmpty_true in Eempty. subst terms. exists []. simpl. tauto. }
  destruct (primeLoop_spec numVars terms fuel 0
              (initialGroups numVars terms) [])
    as (result & Hres & H1 & _ & H3).
  - apply initialGroups_good; auto.
  - destruct (isEmpty_false _ Eempty) as [t Ht]. intros E.
    pose proof (initialGroups_entries numVars terms t Ht) as Hin.
    rewrite E in Hin. exact Hin.
  - lia.
  - rewrite Hres. destruct terms as [|t0 l0]; [discriminate|].
    exists (removeDuplicates result). split; auto. split.
    + intros p Hp. apply removeDuplicates_In in Hp.
      destruct (H1 p Hp) as [[]|H]; auto.
    + intros t Ht.
      destruct (H3 (Implicant.of_term t numVars) (intToBinary t numVars))
        as (p & Hp & Hc).
      * apply initialGroups_entries; auto.
      * simpl. apply covers_loop_binary;
          auto using intToBinary_binary, intToBinary_length.
      * destruct (removeDuplicates_repr result p Hp) as (y & Hy & E).
        exists y. split; auto.
        rewrite (covers_binary y p) by exact E. exact Hc.
Qed.

(** ** Steps 2 and 3 *)

Lemma essentialStep_In (numVars : Z) (primes acc : list Implicant.t) (m : Z)
    (e : Implicant.t) :
  In e (essentialStep numVars primes acc m) ->
  In e acc \/ exists p, In p primes /\ e = setEssential p.
Proof.
  unfold essentialStep.
  destruct (filter _ primes) as [|x [|y l]] eqn:E; auto.
  destruct (hasBinary _ acc); auto.
  intros H. apply in_app_or in H. destruct H as [H|[<-|[]]]; auto.
  right. exists x. split; auto.
  assert (Hx : In x (filter (fun imp => Implicant.covers imp m numVars) primes))
    by (rewrite E; simpl; auto).
  apply filter_In in Hx. tauto.
Qed.

Lemma findEssentialPrimes_In (numVars : Z) (primes : list Implicant.t)
    (minterms : list Z) (e : Implicant.t) :
  In e (findEssentialPrimes numVars minterms primes) ->
  exists p, In p primes /\ e = setEssential p.
Proof.
  unfold findEssentialPrimes.
  assert (H : forall acc,
             In e (fold_left (essentialStep numVars primes) minterms acc) ->
             In e acc \/ exists p, In p primes /\ e = setEssential p).
  { induction minterms as [|m l IH]; simpl; intros acc He; auto.
    destruct (IH _ He) as [H|H]; auto. eapply essentialStep_In; eauto. }
  intros He. destruct (H [] He) as [[]|Hp]. exact Hp.
Qed.

Lemma insert_if_In (f : Z -> bool) (l : list Z) :
  forall acc m,
    In m (fold_left (fun s x => if f x then set_insert x s else s) l acc) <->
    In m acc \/ (In m l /\ f m = true).
Proof.
  induction l as [|x l IH]; simpl; intros acc m.
  - tauto.
  - rewrite IH. destruct (f x) eqn:E.
    + rewrite set_insert_In. split.
      * intros [[->|H]|H]; auto. tauto.
      * intros [H|[[<-|H] Hf]]; auto.
    + split.
      * intros [H|H]; auto. tauto.
      * intros [H|[[<-|H] Hf]]; auto. congruence.
Qed.

Lemma hasBinary_true (bin : string) (l : list Implicant.t) :
  hasBinary bin l = true <-> exists e, In e l /\ Implicant.binary e = bin.
Proof.
  unfold hasBinary. rewrite existsb_exists.
  split; intros (e & He & H); exists e; split; auto; apply String.eqb_eq; auto.
Qed.

Lemma coveredBy_true (numVars : Z) (l : list Implicant.t) (m : Z) :
  coveredBy numVars l m = true <->
  exists c, In c l /\ Implicant.covers c m numVars = true.
Proof. unfold coveredBy. apply existsb_exists. Qed.

Lemma coverCount_nonneg (numVars : Z) (uncovered : list Z) (imp : Implicant.t) :
  0 <= coverCount numVars uncovered imp.
Proof.
  unfold coverCount.
  assert (H : forall l n0,
             n0 <= fold_left (fun n minterm =>
                                if Implicant.covers imp minterm numVars
                                then n + 1 else n) l n0).
  { induction l as [|x l IH]; simpl; intros n0; [lia|].
    destruct (Implicant.covers imp x numVars).
    - specialize (IH (n0 + 1)). lia.
    - apply IH. }
  apply H.
Qed.

(** Once an index is chosen, the search keeps a valid one. *)
Lemma findBest_keeps (numVars : Z) (uncovered : list Z)
    (remaining : list Implicant.t) :
  forall i maxCover bestIdx,
    0 <= bestIdx < i ->
    0 <= snd (findBest numVars uncovered remaining i maxCover bestIdx)
      < i + Z.of_nat (length remaining).
Proof.
  induction remaining as [|imp rest IH]; intros i maxCover bestIdx H.
  - simpl. lia.
  - simpl findBest. rewrite length_cons, Nat2Z.inj_succ.
    destruct (_ >? maxCover).
    + specialize (IH (i + 1) (coverCount numVars uncovered imp) i). lia.
    + specialize (IH (i + 1) maxCover bestIdx). lia.
Qed.

(** The search over a non-empty candidate list always chooses an index:
    the first count is above the initial [maxCover = -1]. *)
Lemma findBest_chooses (numVars : Z) (uncovered : list Z)
    (remaining : list Implicant.t) :
  remaining <> [] ->
  0 <= snd (findBest numVars uncovered remaining 0 (-1) (-1))
    < Z.of_nat (length remaining).
Proof.
  destruct remaining as [|imp rest]; [congruence|]. intros _.
  simpl findBest. rewrite length_cons, Nat2Z.inj_succ.
  pose proof (coverCount_nonneg numVars uncovered imp) as Hc.
  destruct (Z.gtb_spec (coverCount numVars uncovered imp) (-1)); [|lia].
  pose proof (findBest_keeps numVars uncovered rest (0 + 1)
                (coverCount numVars uncovered imp) 0).
  lia.
Qed.

(** The greedy loop needs at most one iteration per candidate; it ends with
    every uncovered minterm that some candidate covers covered. *)
Lemma greedyLoop_spec (numVars : Z) (fuel : nat) :
  forall uncovered remaining cover,
    (length remaining <= fuel)%nat ->
    exists result,
      greedyLoop fuel numVars uncovered remaining cover = Some result /\
      incl cover result /\
      (forall c, In c result -> In c cover \/ In c remaining) /\
      (forall m, In m uncovered ->
         (exists p, In p remaining /\ Implicant.covers p m numVars = true) ->
         exists c, In c result /\ Implicant.covers c m numVars = true).
Proof.
  induction fuel as [|fuel IH]; intros uncovered remaining cover Hlen.
  - destruct remaining as [|p rest]; [|simpl in Hlen; lia].
    exists cover. simpl. rewrite orb_true_r.
    split; auto. split; [apply incl_refl|]. split; auto.
    intros m _ (p & [] & _).
  - simpl. destruct (isEmpty uncovered || isEmpty remaining) eqn:Eempty.
    + exists cover. split; auto. split; [apply incl_refl|]. split; auto.
      intros m Hm (p & Hp & _).
      apply orb_true_iff in Eempty. destruct Eempty as [E|E];
        apply isEmpty_true in E; subst; contradiction.
    + apply orb_false_iff in Eempty. destruct Eempty as [_ Erem].
      assert (Hne : remaining <> [])
        by (intros ->; discriminate).
      pose proof (findBest_chooses numVars uncovered remaining Hne) as Hbest.
      set (bestIdx := snd (findBest numVars uncovered remaining 0 (-1) (-1))) in *.
      destruct (Z.geb_spec bestIdx 0); [|lia].
      set (best := nth (Z.to_nat bestIdx) remaining emptyImplicant).
      assert (Hin : In best remaining) by (apply nth_In; lia).
      destruct (IH (fold_left (fun s minterm =>
                                 if negb (Implicant.covers best minterm numVars)
                                 then set_insert minterm s else s) uncovered [])
                   (erase remaining (Z.to_nat bestIdx))
                   (cover ++ [best]))
        as (result & Hres & Hincl & Hfrom & Hcov).
      { rewrite erase_length by lia. lia. }
      exists result. split; auto. split; [|split].
      * intros c Hc. apply Hincl, in_or_app. auto.
      * intros c Hc. destruct (Hfrom c Hc) as [Hc'|Hc'].
        -- apply in_app_or in Hc'. destruct Hc' as [Hc'|[<-|[]]]; auto.
        -- right. eapply erase_In; eauto.
      * intros m Hm (p & Hp & Hpm).
        destruct (Implicant.covers best m numVars) eqn:Ebest.
        -- exists best. split; auto. apply Hincl, in_or_app. simpl. auto.
        -- apply Hcov.
           ++ apply (insert_if_In
                       (fun x => negb (Implicant.covers best x numVars))).
              right. split; auto. rewrite Ebest. reflexivity.
           ++ destruct (erase_keeps emptyImplicant remaining
                          (Z.to_nat bestIdx) p Hp) as [E|E].
              ** subst p. fold best in Hpm. congruence.
              ** exists p. auto.
Qed.

Lemma findMinimalCover_spec (numVars : Z) (fuel : nat) (minterms : list Z)
    (essentialPrimes allPrimes : list Implicant.t) :
  (length allPrimes <= fuel)%nat ->
  (forall e, In e essentialPrimes ->
     exists p, In p allPrimes /\ Implicant.binary e = Implicant.binary p) ->
  exists cover,
    findMinimalCover fuel numVars minterms essentialPrimes allPrimes
      = Some cover /\
    (forall c, In c cover ->
       exists p, In p allPrimes /\ Implicant.binary c = Implicant.binary p) /\
    (forall m, In m minterms ->
       (exists p, In p allPrimes /\ Implicant.covers p m numVars = true) ->
       exists c, In c cover /\ Implicant.covers c m numVars = true).
Proof.
  intros Hfuel Hess. unfold findMinimalCover.
  set (f := fun x => negb (coveredBy numVars essentialPrimes x)).
  set (uncovered := fold_left _ minterms []).
  assert (Hunc : forall m, In m uncovered <-> In m minterms /\ f m = true).
  { intros m.
    assert (Hi : In m uncovered <-> In m [] \/ (In m minterms /\ f m = true))
      by exact (insert_if_In f minterms [] m).
    simpl in Hi. tauto. }
  assert (Hcovered : forall m, In m minterms -> ~ In m uncovered ->
            exists c, In c essentialPrimes /\ Implicant.covers c m numVars = true).
  { intros m Hm Hnot. apply coveredBy_true.
    destruct (coveredBy numVars essentialPrimes m) eqn:E; auto.
    exfalso. apply Hnot, Hunc. unfold f. rewrite E. auto. }
  destruct (isEmpty uncovered) eqn:Eempty.
  - apply isEmpty_true in Eempty.
    exists essentialPrimes. split; auto. split; auto.
    intros m Hm _. apply Hcovered; auto. rewrite Eempty. simpl. tauto.
  - set (remaining := filter _ allPrimes).
    destruct (greedyLoop_spec numVars fuel uncovered remaining essentialPrimes)
      as (result & Hres & Hincl & Hfrom & Hcov).
    { pose proof (filter_length_le
                    (fun imp => negb (hasBinary (Implicant.binary imp)
                                                essentialPrimes)) allPrimes).
      fold remaining in H. lia. }
    rewrite Hres. exists (std_sort binary_lt result).
    split; auto. split.
    + intros c Hc. apply std_sort_In in Hc.
      destruct (Hfrom c Hc) as [H|H]; auto.
      apply filter_In in H. exists c. tauto.
    + intros m Hm (p & Hp & Hpm).
      assert (Hgoal : exists c, In c result /\
                                Implicant.covers c m numVars = true).
      { destruct (in_dec Z.eq_dec m uncovered) as [Hin|Hnot].
        - apply Hcov; auto.
          exists p. split; auto. apply filter_In. split; auto.
          destruct (hasBinary (Implicant.binary p) essentialPrimes) eqn:Eh; auto.
          exfalso. apply hasBinary_true in Eh. destruct Eh as (e & He & Eb).
          apply Hunc in Hin. destruct Hin as [_ Hf]. unfold f in Hf.
          apply negb_true_iff in Hf.
          assert (Ht : coveredBy numVars essentialPrimes m = true).
          { apply coveredBy_true. exists e. split; auto.
            rewrite (covers_binary e p); auto. }
          congruence.
        - destruct (Hcovered m Hm Hnot) as (c & Hc & Hcm).
          exists c. split; auto. }
      destruct Hgoal as (c & Hc & Hcm). exists c. split; auto.
      apply std_sort_In. exact Hc.
Qed.


(** ** Validation *)

Lemma allTermsOf_In (minterms dontcares : list Z) (t : Z) :
  In t (allTermsOf minterms dontcares) <-> In t minterms \/ In t dontcares.
Proof.
  unfold allTermsOf. rewrite <- in_app_iff. split.
  - intros H. apply std_unique_In in H. apply std_sort_In in H. exact H.
  - intros H.
    destruct (std_unique_repr Z.eqb (std_sort Z.ltb (minterms ++ dontcares)) t)
      as (z & Hz & E).
    + apply std_sort_In. exact H.
    + destruct E as [->|E]; auto. apply Z.eqb_eq in E. subst. exact Hz.
Qed.

Lemma allTermsOf_inRange (numVars : Z) (minterms dontcares : list Z) :
  Forall (inRange numVars) minterms -> Forall (inRange numVars) dontcares ->
  Forall (inRange numVars) (allTermsOf minterms dontcares).
Proof.
  rewrite !Forall_forall. intros Hm Hd t Ht.
  apply allTermsOf_In in Ht. destruct Ht; auto.
Qed.

Lemma firstOutOfRange_None (numVars : Z) (terms : list Z) :
  firstOutOfRange (2 ^ numVars - 1) terms = None <->
  Forall (inRange numVars) terms.
Proof.
  unfold firstOutOfRange, inRange.
  induction terms as [|t l IH]; simpl.
  - split; auto.
  - destruct (Z.ltb_spec t 0) as [Hlt|Hge]; simpl.
    + split; [discriminate|]. intros H. inversion H; subst. lia.
    + destruct (Z.gtb_spec t (2 ^ numVars - 1)) as [Hgt|Hle].
      * split; [discriminate|]. intros H. inversion H; subst. lia.
      * rewrite IH. split.
        -- intros H. constructor; [lia|exact H].
        -- intros H. inversion H; assumption.
Qed.

Lemma firstOutOfRange_Some (numVars : Z) (terms : list Z) (t : Z) :
  firstOutOfRange (2 ^ numVars - 1) terms = Some t ->
  In t terms /\ ~ inRange numVars t.
Proof.
  unfold firstOutOfRange, inRange. intros H.
  apply find_some in H. destruct H as [Hin H]. split; auto.
  apply orb_true_iff in H. destruct H as [H|H].
  - apply Z.ltb_lt in H. lia.
  - apply Z.gtb_lt in H. lia.
Qed.

Lemma maxTerm_pow (numVars : Z) :
  0 <= numVars -> Z.shiftl 1 numVars - 1 = 2 ^ numVars - 1.
Proof. intros H. rewrite Z.shiftl_1_l. reflexivity. Qed.

(** ** Steps 1 to 3 on a validated instance *)

(** Fuel that is enough for both loops of an instance. *)
Lemma minimalCover_spec (q : QuineMcCluskey) :
  0 <= numVars q ->
  Forall (inRange (numVars q)) (minterms q) ->
  Forall (inRange (numVars q)) (dontcares q) ->
  exists primes cover,
    findPrimeImplicants (S (Z.to_nat (numVars q))) (numVars q)
      (allTermsOf (minterms q) (dontcares q)) = Some primes /\
    (forall fuel,
       (Z.to_nat (numVars q) < fuel)%nat -> (length primes <= fuel)%nat ->
       minimalCover fuel q = Some cover) /\
    (forall c, In c cover ->
       exists p d,
         goodImplicant (numVars q) (allTermsOf (minterms q) (dontcares q)) d p /\
         Implicant.binary c = Implicant.binary p) /\
    (forall m, In m (minterms q) ->
       exists c, In c cover /\ Implicant.covers c m (numVars q) = true).
Proof.
  intros Hn Hm Hd.
  set (allTerms := allTermsOf (minterms q) (dontcares q)).
  pose proof (allTermsOf_inRange _ _ _ Hm Hd) as Hall. fold allTerms in Hall.
  destruct (findPrimeImplicants_spec (S (Z.to_nat (numVars q))) (numVars q)
              allTerms Hn Hall (Nat.lt_succ_diag_r _))
    as (primes & Hprimes & Hgood & Hcov).
  set (essential := findEssentialPrimes (numVars q) (minterms q) primes).
  assert (Hess : forall e, In e essential ->
            exists p, In p primes /\ Implicant.binary e = Implicant.binary p).
  { intros e He. apply findEssentialPrimes_In in He.
    destruct He as (p & Hp & ->). exists p. auto. }
  destruct (findMinimalCover_spec (numVars q) (length primes) (minterms q)
              essential primes (Nat.le_refl _) Hess)
    as (cover & Hcover & Hfrom & Hcovers).
  exists primes, cover. split; auto. split; [|split].
  - intros fuel H1 H2. unfold minimalCover. fold allTerms.
    rewrite (findPrimeImplicants_more_fuel _ fuel _ _ _ Hprimes) by lia.
    fold essential. eapply findMinimalCover_more_fuel; eauto.
  - intros c Hc. destruct (Hfrom c Hc) as (p & Hp & E).
    destruct (Hgood p Hp) as [d Hd']. exists p, d. auto.
  - intros m Hin. apply Hcovers; auto.
    apply Hcov. apply allTermsOf_In. auto.
Qed.

Lemma minimize_validated (fuel : nat) (q : QuineMcCluskey) :
  0 <= numVars q <= 8 ->
  Forall (inRange (numVars q)) (minterms q) ->
  Forall (inRange (numVars q)) (dontcares q) ->
  minimize fuel q
  = (match minimalCover fuel q with
     | Some cover => Returned (formatSOP (varNames q) cover)
     | None => OutOfFuel
     end, q).
Proof.
  intros Hn Hm Hd. unfold minimize.
  destruct (Z.gtb_spec (numVars q) 8); [lia|].
  destruct (Z.ltb_spec (numVars q) 0); [lia|].
  rewrite maxTerm_pow by lia.
  apply firstOutOfRange_None in Hm. apply firstOutOfRange_None in Hd.
  rewrite Hm, Hd. destruct (minimalCover fuel q); reflexivity.
Qed.

(** ** The formatter *)

#[local] Arguments varName _ : simpl never.
#[local] Arguments letter_spec _ : simpl never.

Lemma varName_plain (i : nat) :
  (i < 8)%nat ->
  Ascii.eqb (varName i) " " = false /\
  Ascii.eqb (varName i) "'" = false /\
  Ascii.eqb (varName i) "0" = false /\
  Ascii.eqb (varName i) "1" = false /\
  Z.of_nat (nat_of_ascii (varName i)) - 65 = Z.of_nat i.
Proof.
  intros H.
  do 8 (destruct i as [|i]; [vm_compute; auto|]). lia.
Qed.

Lemma letter_spec_varName (i : nat) : letter_spec i = varName i.
Proof. reflexivity. Qed.

Lemma nth_initializeVarNames (numVars : Z) (i : nat) :
  (i < Z.to_nat numVars)%nat ->
  nth i (initializeVarNames numVars) zero = varName i.
Proof.
  intros H. unfold initializeVarNames.
  rewrite nth_indep with (d' := varName 0)
    by (rewrite length_map, length_seq; lia).
  rewrite map_nth, seq_nth by lia. reflexivity.
Qed.

(** [binaryToTerm] is the product term of the specification. *)
Lemma binaryToTerm_from_spec (numVars : Z) (bin : string) :
  forall i, (i + String.length bin <= Z.to_nat numVars)%nat ->
    binaryToTerm_from (initializeVarNames numVars) i bin = productTerm_spec i bin.
Proof.
  induction bin as [|c bin IH]; simpl; intros i H; auto.
  rewrite IH by lia. unfold literal_spec.
  rewrite nth_initializeVarNames by lia. change letter_spec with varName.
  destruct (Ascii.eqb c "0") eqn:E0.
  - apply ascii_eqb_true in E0. subst c. reflexivity.
  - destruct (Ascii.eqb c "1"); reflexivity.
Qed.

Lemma productTerm_head (bin : string) :
  forall i,
    productTerm_spec i bin = EmptyString \/
    exists j rest, (i <= j < i + String.length bin)%nat /\
                   productTerm_spec i bin = String (varName j) rest.
Proof.
  induction bin as [|c bin IH]; simpl; intros i; auto.
  unfold literal_spec. change letter_spec with varName.
  destruct (Ascii.eqb c "1").
  { right. exists i. eexists. split; [lia|reflexivity]. }
  destruct (Ascii.eqb c "0").
  { right. exists i. eexists. split; [lia|reflexivity]. }
  simpl. destruct (IH (S i)) as [E|(j & rest & Hj & E)]; auto.
  right. exists j, rest. split; [lia|exact E].
Qed.

Lemma productTerm_empty (bin : string) :
  forall i, productTerm_spec i bin = EmptyString ->
            contains "0" bin = false /\ contains "1" bin = false.
Proof.
  induction bin as [|c bin IH]; simpl; intros i H; auto.
  unfold literal_spec in H.
  destruct (Ascii.eqb c "1") eqn:E1; [discriminate|].
  destruct (Ascii.eqb c "0") eqn:E0; [discriminate|].
  simpl in *. eauto.
Qed.

Lemma head_append_term (bin tail : string) (i : nat) :
  (i + String.length bin <= 8)%nat ->
  Ascii.eqb (Implicant.head tail) "'" = false ->
  Ascii.eqb (Implicant.head (productTerm_spec i bin +++ tail)) "'" = false.
Proof.
  intros Hi Ht.
  destruct (productTerm_head bin i) as [E|(j & rest & Hj & E)]; rewrite E.
  - exact Ht.
  - assert (Hj8 : (j < 8)%nat) by lia.
    destruct (varName_plain j Hj8) as (_ & Hq & _). exact Hq.
Qed.

Lemma covers_loop_zero (bin tb : string) (b : bool) :
  Implicant.covers_loop (String "0" bin)
    (String (if b then "1"%char else "0"%char) tb)
  = negb b && Implicant.covers_loop bin tb.
Proof. destruct b; reflexivity. Qed.

Lemma covers_loop_one (bin tb : string) (b : bool) :
  Implicant.covers_loop (String "1" bin)
    (String (if b then "1"%char else "0"%char) tb)
  = b && Implicant.covers_loop bin tb.
Proof. destruct b; reflexivity. Qed.

Lemma covers_loop_dash (bin tb : string) (d : ascii) :
  Implicant.covers_loop (String "-" bin) (String d tb)
  = Implicant.covers_loop bin tb.
Proof. reflexivity. Qed.

Lemma productTerm_zero (i : nat) (bin : string) :
  productTerm_spec i (String "0" bin)
  = String (varName i) (String "'" (productTerm_spec (S i) bin)).
Proof. reflexivity. Qed.

Lemma productTerm_one (i : nat) (bin : string) :
  productTerm_spec i (String "1" bin)
  = String (varName i) (productTerm_spec (S i) bin).
Proof. reflexivity. Qed.

Lemma productTerm_dash (i : nat) (bin : string) :
  productTerm_spec i (String "-" bin) = productTerm_spec (S i) bin.
Proof. reflexivity. Qed.

Lemma append_cons (c : ascii) (s tail : string) :
  String c s +++ tail = String c (s +++ tail).
Proof. reflexivity. Qed.

Section Evaluation.
Variables numVars x : Z.

Lemma evalProducts_plain (c : ascii) (rest : string) (product : bool) :
  Ascii.eqb c " " = false ->
  Ascii.eqb (Implicant.head rest) "'" = false ->
  evalProducts numVars x (String c rest) product
  = evalProducts numVars x rest (product && varValue numVars x c).
Proof.
  intros Hc Hq. simpl. rewrite Hc.
  destruct rest as [|q rest']; simpl in *; [reflexivity|].
  rewrite Hq. reflexivity.
Qed.

Lemma evalProducts_negated (c : ascii) (rest : string) (product : bool) :
  Ascii.eqb c " " = false ->
  evalProducts numVars x (String c (String "'" rest)) product
  = evalProducts numVars x rest (product && negb (varValue numVars x c)).
Proof. intros Hc. simpl. rewrite Hc. reflexivity. Qed.

Lemma evalProducts_plus (rest : string) (product : bool) :
  evalProducts numVars x (" + " +++ rest) product
  = product || evalProducts numVars x rest true.
Proof. reflexivity. Qed.

(** Reading a product term multiplies in whether its pattern covers [x]. *)
Lemma evalProducts_term (bin : string) :
  forall i product tail,
    ternary bin = true ->
    (i + String.length bin = Z.to_nat numVars)%nat ->
    numVars <= 8 ->
    Ascii.eqb (Implicant.head tail) "'" = false ->
    evalProducts numVars x (productTerm_spec i bin +++ tail) product
    = evalProducts numVars x tail
        (product &&
         Implicant.covers_loop bin (intToBinary_from x (String.length bin))).
Proof.
  induction bin as [|c bin IH]; intros i product tail Ht Hlen Hn Hq.
  - simpl. rewrite andb_true_r. reflexivity.
  - cbn [ternary String.length] in Ht, Hlen.
    apply andb_true_iff in Ht. destruct Ht as [Hc Ht].
    assert (Hi : (i < 8)%nat) by lia.
    destruct (varName_plain i Hi) as (Hsp & _ & _ & _ & Hnat).
    assert (Hval : varValue numVars x (varName i)
                   = Z.testbit x (Z.of_nat (String.length bin))).
    { unfold varValue. rewrite Hnat. f_equal. lia. }
    assert (Hhead : Ascii.eqb
                      (Implicant.head (productTerm_spec (S i) bin +++ tail))
                      "'" = false)
      by (apply head_append_term; auto; lia).
    cbn [String.length intToBinary_from]. rewrite bitChar_testbit.
    destruct (isSymbol_cases c Hc) as [->|[->| ->]].
    + rewrite productTerm_zero, covers_loop_zero, !append_cons.
      rewrite evalProducts_negated by exact Hsp.
      rewrite IH by (auto; lia). rewrite Hval, andb_assoc. reflexivity.
    + rewrite productTerm_one, covers_loop_one, append_cons.
      rewrite evalProducts_plain by auto.
      rewrite IH by (auto; lia). rewrite Hval, andb_assoc. reflexivity.
    + rewrite productTerm_dash, covers_loop_dash.
      apply IH; auto. lia.
Qed.
End Evaluation.

Lemma sop_spec_single (imp : Implicant.t) :
  sop_spec [imp] = productTerm_spec 0 (Implicant.binary imp).
Proof. reflexivity. Qed.

Lemma sop_spec_cons (imp next : Implicant.t) (rest : list Implicant.t) :
  sop_spec (imp :: next :: rest)
  = productTerm_spec 0 (Implicant.binary imp)
    +++ " + " +++ sop_spec (next :: rest).
Proof. reflexivity. Qed.

Lemma noLiteral_false_term (imp : Implicant.t) :
  noLiteral imp = false ->
  isEmptyString (productTerm_spec 0 (Implicant.binary imp)) = false.
Proof.
  intros H.
  destruct (productTerm_spec 0 (Implicant.binary imp)) eqn:E; auto.
  apply productTerm_empty in E. destruct E as [E0 E1].
  unfold noLiteral in H. rewrite E0, E1 in H. discriminate.
Qed.

Lemma existsb_false {A : Type} (f : A -> bool) (l : list A) :
  existsb f l = false -> forall x, In x l -> f x = false.
Proof.
  intros H x Hx. destruct (f x) eqn:E; auto.
  assert (Ht : existsb f l = true) by (apply existsb_exists; eauto).
  congruence.
Qed.

Section Formatting.
Variable numVars : Z.

(** Without an empty product term, the loop of [formatSOP] joins the
    product terms with [" + "]. *)
Lemma formatLoop_join (size : nat) (rest : list Implicant.t) :
  forall i result,
    (i + length rest = size)%nat ->
    (forall imp, In imp rest ->
       (String.length (Implicant.binary imp) <= Z.to_nat numVars)%nat /\
       noLiteral imp = false) ->
    formatLoop (initializeVarNames numVars) size rest i result
    = result +++ sop_spec rest.
Proof.
  induction rest as [|imp rest IH]; intros i result Hsize Hok.
  - simpl. rewrite append_empty_r. reflexivity.
  - destruct (Hok imp (or_introl eq_refl)) as [Hlen Hlit].
    cbn [formatLoop]. unfold binaryToTerm.
    rewrite binaryToTerm_from_spec by (simpl; lia).
    rewrite (noLiteral_false_term imp Hlit). cbn [negb].
    simpl length in Hsize.
    rewrite IH; [| lia | intros y Hy; apply Hok; simpl; auto].
    destruct rest as [|next rest'].
    + simpl length in Hsize.
      destruct (Nat.ltb_spec i (size - 1)); [lia|].
      rewrite sop_spec_single. unfold sop_spec. simpl.
      rewrite append_empty_r. reflexivity.
    + simpl length in Hsize.
      destruct (Nat.ltb_spec i (size - 1)); [|lia].
      rewrite sop_spec_cons, !append_assoc. reflexivity.
Qed.

Lemma sop_spec_head (imp : Implicant.t) (rest : list Implicant.t) :
  noLiteral imp = false ->
  exists j tail, (j < String.length (Implicant.binary imp))%nat /\
                 sop_spec (imp :: rest) = String (varName j) tail.
Proof.
  intros Hlit. apply noLiteral_false_term in Hlit.
  destruct (productTerm_head (Implicant.binary imp) 0)
    as [E|(j & tail & Hj & E)].
  - rewrite E in Hlit. discriminate.
  - destruct rest as [|next rest'].
    + exists j, tail. rewrite sop_spec_single. split; [lia|exact E].
    + exists j. eexists. rewrite sop_spec_cons, E, append_cons.
      split; [lia|reflexivity].
Qed.

(** [formatSOP] on patterns no longer than the variable list: the two
    constants, or the joined product terms of the specification. *)
Lemma formatSOP_spec (cover : list Implicant.t) :
  (forall imp, In imp cover ->
     (String.length (Implicant.binary imp) <= Z.to_nat numVars)%nat) ->
  formatSOP (initializeVarNames numVars) cover
  = if isEmpty cover then "0"%string
    else if existsb noLiteral cover then "1"%string
    else sop_spec cover.
Proof.
  intros Hlen. unfold formatSOP.
  destruct cover as [|imp rest]; [reflexivity|]. cbn [isEmpty].
  destruct (existsb noLiteral (imp :: rest)) eqn:E; [reflexivity|].
  pose proof (existsb_false _ _ E) as Hlit.
  rewrite formatLoop_join; [| simpl; lia | intros y Hy; split; auto].
  cbn [String.append].
  destruct (sop_spec_head imp rest (Hlit imp (or_introl eq_refl)))
    as (j & tail & _ & Es).
  rewrite Es. reflexivity.
Qed.
End Formatting.

Lemma allDashes_noLiteral (s : string) :
  allDashes s = true -> contains "0" s = false /\ contains "1" s = false.
Proof.
  induction s as [|c s IH]; simpl; auto.
  rewrite andb_true_iff. intros [Hc Hs]. apply ascii_eqb_true in Hc. subst c.
  simpl. auto.
Qed.

Lemma noLiteral_allDashes (s : string) :
  ternary s = true -> contains "0" s = false -> contains "1" s = false ->
  allDashes s = true.
Proof.
  induction s as [|c s IH]; simpl; auto.
  rewrite andb_true_iff. intros [Hc Hs] H0 H1.
  apply orb_false_iff in H0. apply orb_false_iff in H1.
  destruct H0 as [H0 H0']. destruct H1 as [H1 H1'].
  rewrite IH by auto.
  destruct (isSymbol_cases c Hc) as [->|[->| ->]]; try discriminate.
  reflexivity.
Qed.

Lemma allDashes_covers (s : string) :
  allDashes s = true -> forall tb, Implicant.covers_loop s tb = true.
Proof.
  induction s as [|c s IH]; simpl; auto.
  rewrite andb_true_iff. intros [Hc Hs] tb. rewrite Hc. simpl. auto.
Qed.

Lemma string_eqb_head (c d : ascii) (s : string) :
  Ascii.eqb c d = false -> String.eqb (String c s) (String d EmptyString) = false.
Proof. intros H. cbn [String.eqb]. rewrite H. reflexivity. Qed.

Section EvaluatingTheText.
Variables numVars x : Z.
Hypothesis numVars_le : numVars <= 8.

Lemma evalProducts_sop (cover : list Implicant.t) :
  cover <> [] ->
  (forall imp, In imp cover ->
     String.length (Implicant.binary imp) = Z.to_nat numVars /\
     ternary (Implicant.binary imp) = true) ->
  evalProducts numVars x (sop_spec cover) true = coveredBy numVars cover x.
Proof.
  induction cover as [|imp rest IH]; intros Hne Hok; [congruence|].
  destruct (Hok imp (or_introl eq_refl)) as [Hlen Hter].
  assert (Hterm : forall tail product,
            Ascii.eqb (Implicant.head tail) "'" = false ->
            evalProducts numVars x
              (productTerm_spec 0 (Implicant.binary imp) +++ tail) product
            = evalProducts numVars x tail
                (product && Implicant.covers imp x numVars)).
  { intros tail product Hq.
    rewrite (evalProducts_term numVars x (Implicant.binary imp) 0); auto.
    unfold Implicant.covers, intToBinary. rewrite Hlen. reflexivity. }
  destruct rest as [|next rest'].
  - rewrite sop_spec_single.
    rewrite <- (append_empty_r (productTerm_spec 0 (Implicant.binary imp))).
    rewrite Hterm by reflexivity. simpl. rewrite orb_false_r. reflexivity.
  - rewrite sop_spec_cons, Hterm by reflexivity.
    rewrite evalProducts_plus, IH.
    + reflexivity.
    + discriminate.
    + intros y Hy. apply Hok. simpl. auto.
Qed.

(** The text that [formatSOP] writes denotes the union of the patterns of
    the cover. *)
Lemma evalSOP_formatSOP (cover : list Implicant.t) :
  (forall imp, In imp cover ->
     String.length (Implicant.binary imp) = Z.to_nat numVars /\
     ternary (Implicant.binary imp) = true) ->
  evalSOP numVars (formatSOP (initializeVarNames numVars) cover) x
  = coveredBy numVars cover x.
Proof.
  intros Hok.
  rewrite formatSOP_spec by (intros imp Hi; destruct (Hok imp Hi); lia).
  destruct cover as [|imp rest]; [reflexivity|]. cbn [isEmpty].
  destruct (existsb noLiteral (imp :: rest)) eqn:E.
  - apply existsb_exists in E. destruct E as (y & Hy & Hlit).
    unfold noLiteral in Hlit. apply andb_true_iff in Hlit.
    destruct Hlit as [H0 H1].
    apply negb_true_iff in H0. apply negb_true_iff in H1.
    destruct (Hok y Hy) as [_ Hter].
    pose proof (noLiteral_allDashes _ Hter H0 H1) as Hd.
    symmetry. apply coveredBy_true. exists y. split; auto.
    unfold Implicant.covers. apply allDashes_covers. exact Hd.
  - pose proof (existsb_false _ _ E) as Hlit.
    destruct (sop_spec_head imp rest (Hlit imp (or_introl eq_refl)))
      as (j & tail & Hj & Es).
    destruct (Hok imp (or_introl eq_refl)) as [Hlen _].
    assert (Hj8 : (j < 8)%nat) by lia.
    destruct (varName_plain j Hj8) as (_ & _ & H0 & H1 & _).
    unfold evalSOP.
    rewrite Es, !string_eqb_head by assumption. rewrite <- Es.
    apply evalProducts_sop; auto. discriminate.
Qed.
End EvaluatingTheText.

(** ** The produced cover *)

Lemma cover_patterns (q : QuineMcCluskey) (cover : list Implicant.t) :
  (forall c, In c cover ->
     exists p d,
       goodImplicant (numVars q) (allTermsOf (minterms q) (dontcares q)) d p /\
       Implicant.binary c = Implicant.binary p) ->
  forall c, In c cover ->
    String.length (Implicant.binary c) = Z.to_nat (numVars q) /\
    ternary (Implicant.binary c) = true /\
    forall x, inRange (numVars q) x ->
      Implicant.covers c x (numVars q) = true ->
      In x (minterms q) \/ In x (dontcares q).
Proof.
  intros H c Hc. destruct (H c Hc) as (p & d & G & E).
  rewrite E. split; [apply (good_length _ _ _ _ G)|].
  split; [apply (good_ternary _ _ _ _ G)|].
  intros x Hx Hcov. apply allTermsOf_In.
  apply (good_sound _ _ _ _ G x Hx).
  rewrite <- (covers_binary c p) by exact E. exact Hcov.
Qed.

(** A cover can be had with any fuel that gives one. *)
Lemma minimalCover_unique (q : QuineMcCluskey) (fuel fuel' : nat)
    (cover cover' : list Implicant.t) :
  minimalCover fuel q = Some cover -> minimalCover fuel' q = Some cover' ->
  cover = cover'.
Proof.
  intros H H'.
  pose proof (minimalCover_more_fuel _ (Nat.max fuel fuel') _ _ H
                (Nat.le_max_l _ _)) as E.
  pose proof (minimalCover_more_fuel _ (Nat.max fuel fuel') _ _ H'
                (Nat.le_max_r _ _)) as E'.
  congruence.
Qed.

Lemma valid_parts (q : QuineMcCluskey) :
  valid q ->
  0 <= numVars q <= 8 /\
  Forall (inRange (numVars q)) (minterms q) /\
  Forall (inRange (numVars q)) (dontcares q).
Proof. intros (Hn & _ & Hm & Hd). repeat split; auto; lia. Qed.



(** ** Failures *)

(** C2: what the code does instead of the stated check.  [minimize] throws
    the variable-count error exactly when [numVars > 8]: [numVars = 9]
    fails, but [numVars = 0], outside [1..8], is accepted and minimized. *)
Theorem variable_count_check :
  (forall fuel q,
     (exists e, fst (minimize fuel q) = Thrown e /\
                kind_of e = InvalidVariableCount) <-> 8 < numVars q) /\
  (forall fuel m dc,
     minimize fuel (construct 9 m dc)
     = (Thrown VariablesExceedLimit, construct 9 m dc)) /\
  (forall fuel,
     minimize fuel (construct 0 [] []) = (Returned "0"%string, construct 0 [] [])) /\
  (forall fuel,
     minimize (S fuel) (construct 0 [0] [])
     = (Returned "1"%string, construct 0 [0] [])).
Proof.
  split; [|split; [|split]].
  - intros fuel q. unfold minimize.
    destruct (Z.gtb_spec (numVars q) 8) as [Hgt|Hle].
    + split; [lia|]. intros _. exists VariablesExceedLimit. auto.
    + split; [|lia]. intros (e & He & Hk).
      destruct (numVars q <? 0); [discriminate|].
      destruct (firstOutOfRange _ (minterms q)).
      { simpl in He. injection He as <-. discriminate. }
      destruct (firstOutOfRange _ (dontcares q)).
      { simpl in He. injection He as <-. discriminate. }
      destruct (minimalCover fuel q); discriminate.
  - reflexivity.
  - intros fuel. destruct fuel; reflexivity.
  - intros fuel. vm_compute. reflexivity.
Qed.

(** C3: with a valid [numVars], [minimize] fails with the term-range error
    exactly when some minterm or don't-care term is outside
    [0 .. 2^numVars - 1]; the failure is there without a single round of
    generation (with no fuel at all), comes with no text, and leaves the
    object as it was. *)
Theorem term_range_check (fuel : nat) (q : QuineMcCluskey) :
  1 <= numVars q <= 8 ->
  ((exists e, fst (minimize fuel q) = Thrown e /\ kind_of e = TermOutOfRange) <->
   (exists t, (In t (minterms q) \/ In t (dontcares q)) /\
              ~ inRange (numVars q) t)) /\
  (forall e, fst (minimize fuel q) = Thrown e ->
     minimize fuel q = (Thrown e, q) /\ minimize 0 q = (Thrown e, q)).
Proof.
  intros Hn. unfold minimize.
  destruct (Z.gtb_spec (numVars q) 8) as [Hgt|_]; [lia|].
  destruct (Z.ltb_spec (numVars q) 0) as [Hlt|_]; [lia|].
  rewrite maxTerm_pow by lia.
  destruct (firstOutOfRange _ (minterms q)) as [t|] eqn:Em.
  { apply firstOutOfRange_Some in Em. destruct Em as [Hin Hout]. split.
    - split; [intros _; exists t; auto|].
      intros _. exists (MintermOutOfRange t). auto.
    - simpl. intros e He. injection He as <-. auto. }
  destruct (firstOutOfRange _ (dontcares q)) as [t|] eqn:Ed.
  { apply firstOutOfRange_Some in Ed. destruct Ed as [Hin Hout]. split.
    - split; [intros _; exists t; auto|].
      intros _. exists (DontCareOutOfRange t). auto.
    - simpl. intros e He. injection He as <-. auto. }
  apply firstOutOfRange_None in Em. apply firstOutOfRange_None in Ed.
  rewrite Forall_forall in Em, Ed. split.
  - split.
    + intros (e & He & _). destruct (minimalCover fuel q); discriminate.
    + intros (t & [Hin|Hin] & Hout); exfalso; auto.
  - intros e He. destruct (minimalCover fuel q); discriminate.
Qed.

Lemma term_range_check_witness :
  ((exists e, fst (minimize 5 (construct 2 [5] [])) = Thrown e /\
              kind_of e = TermOutOfRange) <->
   (exists t, (In t [5] \/ In t []) /\ ~ inRange 2 t)) /\
  (forall e, fst (minimize 5 (construct 2 [5] [])) = Thrown e ->
     minimize 5 (construct 2 [5] []) = (Thrown e, construct 2 [5] []) /\
     minimize 0 (construct 2 [5] []) = (Thrown e, construct 2 [5] [])).
Proof.
  apply (term_range_check 5 (construct 2 [5] [])). simpl. lia.
Defined.

(** ** Termination *)

(** The shape of the claim of C4 as stated: [numVars] rounds are not always
    enough.  With one variable and both terms required, the first round
    merges [0] and [1] and a second round is needed to find that nothing is
    left to merge. *)
Lemma merge_rounds_counterexample :
  valid (construct 1 [0; 1] []) /\
  ~ mergeLoopWithin (Z.to_nat 1) (construct 1 [0; 1] []) /\
  mergeLoopWithin (S (Z.to_nat 1)) (construct 1 [0; 1] []).
Proof.
  split; [solve_valid|]. split.
  - intros [primes H]. vm_compute in H. discriminate.
  - eexists. vm_compute. reflexivity.
Qed.

Lemma roundGroups_bound (numVars : Z) (terms : list Z) (round : nat)
    (groups : Groups) :
  0 <= numVars ->
  Forall (inRange numVars) terms ->
  roundGroups numVars terms round = Some groups ->
  (round <= S (Z.to_nat numVars))%nat /\
  forall x, In x (flatten groups) ->
    String.length (Implicant.binary x) = Z.to_nat numVars /\
    dashes (Implicant.binary x) = pred round.
Proof.
  intros Hn Hr H.
  destruct (roundGroups_good numVars terms Hn Hr round groups H) as [G Hne].
  assert (Hall : forall x, In x (flatten groups) ->
            String.length (Implicant.binary x) = Z.to_nat numVars /\
            dashes (Implicant.binary x) = pred round).
  { intros x Hx.
    pose proof (goodGroups_flatten numVars terms _ groups x G Hx) as Gx.
    split; [apply (good_length _ _ _ _ Gx)|apply (good_dashes _ _ _ _ Gx)]. }
  split; [|exact Hall].
  destruct (flatten groups) as [|x rest] eqn:E; [congruence|].
  destruct (Hall x (or_introl eq_refl)) as [Hl Hd].
  pose proof (dashes_le_length (Implicant.binary x)). lia.
Qed.

(** C4, amended: on a valid problem instance the merge loop has at most
    [numVars + 1] rounds, the patterns of round [k] holding [k - 1] dashes
    of their [numVars] symbols, and the greedy loop is over within one
    iteration per candidate prime.  When no round holds more implicants
    than the [int] counters of the loop can count, [minimize] returns a
    text: the merge loop is then over within [numVars + 1] passes and
    nothing fails after validation. *)
Theorem minimize_terminates (q : QuineMcCluskey) :
  valid q ->
  (forall round groups,
     roundGroups (numVars q) (allTermsOf (minterms q) (dontcares q)) round
     = Some groups ->
     (round <= S (Z.to_nat (numVars q)))%nat /\
     forall x, In x (flatten groups) ->
       String.length (Implicant.binary x) = Z.to_nat (numVars q) /\
       dashes (Implicant.binary x) = pred round) /\
  (forall uncovered remaining cover,
     exists result,
       greedyLoop (length remaining) (numVars q) uncovered remaining cover
       = Some result) /\
  (roundsFit (numVars q) (allTermsOf (minterms q) (dontcares q)) ->
   mergeLoopWithin (S (Z.to_nat (numVars q))) q /\
   exists text enough, forall fuel, (enough <= fuel)%nat ->
     minimize fuel q = (Returned text, q)).
Proof.
  intros Hv. pose proof (valid_parts q Hv) as (Hn & Hm & Hd).
  split; [|split].
  - intros round groups H.
    apply (roundGroups_bound _ _ _ _ (proj1 Hn)
             (allTermsOf_inRange _ _ _ Hm Hd) H).
  - intros uncovered remaining cover0.
    destruct (greedyLoop_spec (numVars q) (length remaining) uncovered
                remaining cover0 (Nat.le_refl _)) as (result & Hr & _).
    exists result. exact Hr.
  - intros _.
    destruct (minimalCover_spec q (proj1 Hn) Hm Hd)
      as (primes & cover & Hprimes & Hfuel & _ & _).
    split; [exists primes; exact Hprimes|].
    exists (formatSOP (varNames q) cover),
           (Nat.max (S (Z.to_nat (numVars q))) (length primes)).
    intros fuel Hle. rewrite minimize_validated by auto.
    rewrite Hfuel by lia. reflexivity.
Qed.

Lemma roundGroups_none (numVars : Z) (terms : list Z) (k : nat) :
  forall r,
    roundGroups numVars terms (S r) = None ->
    roundGroups numVars terms (S (k + r)) = None.
Proof.
  induction k as [|k IH]; intros r H; [exact H|].
  change (S (S k + r)) with (S (S (k + r))).
  rewrite roundGroups_succ, (IH r H). reflexivity.
Qed.

Lemma minimize_terminates_witness :
  mergeLoopWithin (S (Z.to_nat (numVars (construct 1 [0; 1] []))))
                  (construct 1 [0; 1] []) /\
  exists text enough, forall fuel, (enough <= fuel)%nat ->
    minimize fuel (construct 1 [0; 1] [])
    = (Returned text, construct 1 [0; 1] []).
Proof.
  apply (minimize_terminates (construct 1 [0; 1] [])); [solve_valid|].
  intros round groups H.
  destruct round as [|[|[|r]]].
  - discriminate H.
  - vm_compute in H. injection H as <-. vm_compute. discriminate.
  - vm_compute in H. injection H as <-. vm_compute. discriminate.
  - exfalso.
    replace (S (S (S r))) with (S (r + 2)) in H by lia.
    rewrite roundGroups_none in H by (vm_compute; reflexivity).
    discriminate H.
Defined.

(** ** The constants *)

Lemma formatSOP_tautology (names : list ascii) (cover : list Implicant.t)
    (imp : Implicant.t) :
  In imp cover -> allDashes (Implicant.binary imp) = true ->
  formatSOP names cover = "1"%string.
Proof.
  intros Hin Hd. unfold formatSOP.
  destruct cover as [|c rest]; [destruct Hin|]. cbn [isEmpty].
  replace (existsb noLiteral (c :: rest)) with true; [reflexivity|].
  symmetry. apply existsb_exists. exists imp. split; auto.
  unfold noLiteral. destruct (allDashes_noLiteral _ Hd) as [-> ->]. reflexivity.
Qed.

(** C5: for every valid problem instance whose final cover holds an
    implicant with a pattern of [-] only, the formatter writes exactly ["1"],
    and so does [minimize]; with two variables and the minterms 0, 1, 2, 3
    [minimize] returns exactly ["1"]. *)
Theorem tautology_constant (q : QuineMcCluskey) (fuel : nat)
    (cover : list Implicant.t) (imp : Implicant.t) :
  valid q ->
  minimalCover fuel q = Some cover ->
  In imp cover ->
  allDashes (Implicant.binary imp) = true ->
  formatSOP (varNames q) cover = "1"%string /\
  minimize fuel q = (Returned "1"%string, q) /\
  (forall extra,
     minimize (3 + extra) (construct 2 [0; 1; 2; 3] [])
     = (Returned "1"%string, construct 2 [0; 1; 2; 3] [])).
Proof.
  intros Hv Hc Hin Hd. pose proof (valid_parts q Hv) as (Hn & Hm & Hdc).
  pose proof (formatSOP_tautology (varNames q) cover imp Hin Hd) as Hf.
  split; [exact Hf|]. split.
  - rewrite minimize_validated by auto. rewrite Hc, Hf. reflexivity.
  - intros extra. vm_compute. reflexivity.
Qed.

Lemma tautology_constant_witness :
  formatSOP (varNames (construct 2 [0; 1; 2; 3] []))
    [Implicant.mk [0; 1; 2; 3] "--" true true] = "1"%string /\
  minimize 3 (construct 2 [0; 1; 2; 3] [])
  = (Returned "1"%string, construct 2 [0; 1; 2; 3] []) /\
  (forall extra,
     minimize (3 + extra) (construct 2 [0; 1; 2; 3] [])
     = (Returned "1"%string, construct 2 [0; 1; 2; 3] [])).
Proof.
  apply (tautology_constant (construct 2 [0; 1; 2; 3] []) 3
           [Implicant.mk [0; 1; 2; 3] "--" true true]
           (Implicant.mk [0; 1; 2; 3] "--" true true)).
  - solve_valid.
  - vm_compute. reflexivity.
  - simpl. auto.
  - reflexivity.
Defined.

(** C6: for every valid problem instance an empty final cover makes the
    formatter write exactly ["0"], and the final cover is empty only when
    [minterms] is empty; with two variables, no minterm and no don't-care
    [minimize] returns exactly ["0"]. *)
Theorem contradiction_constant (q : QuineMcCluskey) (fuel : nat) :
  valid q ->
  minimalCover fuel q = Some [] ->
  formatSOP (varNames q) [] = "0"%string /\
  minimize fuel q = (Returned "0"%string, q) /\
  minterms q = [] /\
  (forall fuel',
     minimize fuel' (construct 2 [] []) = (Returned "0"%string, construct 2 [] [])).
Proof.
  intros Hv Hc. pose proof (valid_parts q Hv) as (Hn & Hm & Hd).
  split; [reflexivity|]. split; [|split].
  - rewrite minimize_validated by auto. rewrite Hc. reflexivity.
  - destruct (minimalCover_spec q (proj1 Hn) Hm Hd)
      as (primes & cover & _ & Hfuel & _ & Hcov).
    assert (E : cover = []).
    { symmetry.
      apply (minimalCover_unique q fuel
               (Nat.max (S (Z.to_nat (numVars q))) (length primes)) [] cover Hc).
      apply Hfuel; lia. }
    subst cover. destruct (minterms q) as [|m l]; [reflexivity|].
    destruct (Hcov m (or_introl eq_refl)) as (c & [] & _).
  - intros fuel'. destruct fuel'; reflexivity.
Qed.

Lemma contradiction_constant_witness :
  formatSOP (varNames (construct 2 [] [])) [] = "0"%string /\
  minimize 1 (construct 2 [] []) = (Returned "0"%string, construct 2 [] []) /\
  minterms (construct 2 [] []) = [] /\
  (forall fuel',
     minimize fuel' (construct 2 [] []) = (Returned "0"%string, construct 2 [] [])).
Proof.
  apply (contradiction_constant (construct 2 [] []) 1).
  - solve_valid.
  - reflexivity.
Defined.

(** C7: with three variables, the minterms 0, 2, 4, 6 and the don't-care
    terms 1 and 5, [minimize] returns exactly ["C'"]; the cover is the one
    implicant with the pattern ["--0"]. *)
Theorem dontcare_absorption (extra : nat) :
  minimize (3 + extra) (construct 3 [0; 2; 4; 6] [1; 5])
  = (Returned "C'"%string, construct 3 [0; 2; 4; 6] [1; 5]) /\
  exists imp,
    minimalCover (3 + extra) (construct 3 [0; 2; 4; 6] [1; 5]) = Some [imp] /\
    Implicant.binary imp = "--0"%string.
Proof.
  split.
  - vm_compute. reflexivity.
  - eexists. split; vm_compute; reflexivity.
Qed.

(** ** The text *)

Lemma minimalCover_patterns (q : QuineMcCluskey) (fuel : nat)
    (cover : list Implicant.t) :
  valid q -> minimalCover fuel q = Some cover ->
  forall c, In c cover ->
    String.length (Implicant.binary c) = Z.to_nat (numVars q) /\
    ternary (Implicant.binary c) = true.
Proof.
  intros Hv Hc. pose proof (valid_parts q Hv) as (Hn & Hm & Hd).
  destruct (minimalCover_spec q (proj1 Hn) Hm Hd)
    as (primes & cover' & _ & Hfuel & Hfrom & _).
  assert (E : cover = cover').
  { apply (minimalCover_unique q fuel
             (Nat.max (S (Z.to_nat (numVars q))) (length primes)) _ _ Hc).
    apply Hfuel; lia. }
  subst cover'. intros c Hin.
  destruct (cover_patterns q cover Hfrom c Hin) as (H1 & H2 & _). auto.
Qed.

Lemma existsb_ext_in {A : Type} (f g : A -> bool) (l : list A) :
  (forall x, In x l -> f x = g x) -> existsb f l = existsb g l.
Proof.
  induction l as [|x l IH]; simpl; intros H; auto.
  rewrite H, IH; auto.
Qed.

Lemma noLiteral_is_allDashes (imp : Implicant.t) :
  ternary (Implicant.binary imp) = true ->
  noLiteral imp = allDashes (Implicant.binary imp).
Proof.
  intros Ht. unfold noLiteral.
  destruct (allDashes (Implicant.binary imp)) eqn:Ed.
  - destruct (allDashes_noLiteral _ Ed) as [-> ->]. reflexivity.
  - destruct (contains "0" (Implicant.binary imp)) eqn:E0; auto.
    destruct (contains "1" (Implicant.binary imp)) eqn:E1; auto.
    rewrite (noLiteral_allDashes _ Ht E0 E1) in Ed. discriminate.
Qed.

(** [intToBinary] writes the most significant bit first. *)
Lemma intToBinary_from_get (t : Z) (k : nat) :
  forall i, (i < k)%nat ->
    String.get i (intToBinary_from t k) = Some (bitChar t (k - 1 - i)).
Proof.
  induction k as [|k IH]; intros i Hi; [lia|].
  cbn [intToBinary_from]. destruct i as [|i]; simpl String.get.
  - f_equal. f_equal. lia.
  - rewrite IH by lia. f_equal. f_equal. lia.
Qed.

(** C8: the text of the final cover.  Position [i] of a pattern, counted
    from the most significant bit as [intToBinary] writes the terms, is the
    letter ['A' + i]; a [1] gives the plain letter, a [0] the letter and an
    apostrophe, a [-] nothing, and the product terms are joined by [" + "]
    (the two constants apart). *)
Theorem formatter_rendering (q : QuineMcCluskey) (fuel : nat)
    (cover : list Implicant.t) :
  valid q ->
  minimalCover fuel q = Some cover ->
  (forall imp, In imp cover ->
     binaryToTerm (varNames q) (Implicant.binary imp)
     = productTerm_spec 0 (Implicant.binary imp)) /\
  minimize fuel q
  = (Returned
       (if isEmpty cover then "0"%string
        else if existsb (fun imp => allDashes (Implicant.binary imp)) cover
             then "1"%string
             else sop_spec cover), q) /\
  (forall t i, (i < Z.to_nat (numVars q))%nat ->
     String.get i (intToBinary t (numVars q))
     = Some (if Z.testbit t (numVars q - 1 - Z.of_nat i)
             then "1"%char else "0"%char)).
Proof.
  intros Hv Hc. pose proof (valid_parts q Hv) as (Hn & Hm & Hd).
  pose proof (minimalCover_patterns q fuel cover Hv Hc) as Hpat.
  destruct Hv as (_ & Hnames & _ & _).
  split; [|split].
  - intros imp Hin. destruct (Hpat imp Hin) as [Hlen _].
    rewrite Hnames. unfold binaryToTerm.
    apply binaryToTerm_from_spec. simpl. lia.
  - rewrite minimize_validated by auto. rewrite Hc, Hnames.
    rewrite formatSOP_spec
      by (intros imp Hin; destruct (Hpat imp Hin) as [-> _]; lia).
    rewrite (existsb_ext_in noLiteral
               (fun imp => allDashes (Implicant.binary imp)) cover).
    + reflexivity.
    + intros imp Hin. apply noLiteral_is_allDashes.
      destruct (Hpat imp Hin) as [_ Ht]. exact Ht.
  - intros t i Hi. unfold intToBinary.
    rewrite intToBinary_from_get by exact Hi.
    rewrite bitChar_testbit.
    replace (Z.of_nat (Z.to_nat (numVars q) - 1 - i))
      with (numVars q - 1 - Z.of_nat i) by lia.
    reflexivity.
Qed.

Lemma formatter_rendering_witness :
  (forall imp,
     In imp [Implicant.mk [3; 7] "-11" true true;
             Implicant.mk [5; 7] "1-1" true true;
             Implicant.mk [6; 7] "11-" true true] ->
     binaryToTerm (varNames (construct 3 [3; 5; 6; 7] [])) (Implicant.binary imp)
     = productTerm_spec 0 (Implicant.binary imp)) /\
  minimize 5 (construct 3 [3; 5; 6; 7] [])
  = (Returned "BC + AC + AB"%string, construct 3 [3; 5; 6; 7] []) /\
  (forall t i, (i < Z.to_nat 3)%nat ->
     String.get i (intToBinary t 3)
     = Some (if Z.testbit t (3 - 1 - Z.of_nat i) then "1"%char else "0"%char)).
Proof.
  apply (formatter_rendering (construct 3 [3; 5; 6; 7] []) 5
           [Implicant.mk [3; 7] "-11" true true;
            Implicant.mk [5; 7] "1-1" true true;
            Implicant.mk [6; 7] "11-" true true]).
  - solve_valid.
  - vm_compute. reflexivity.
Defined.

(** ** The rounds *)

Lemma get_append_at (pre suf : string) (c : ascii) :
  String.get (String.length pre) (pre +++ String c suf) = Some c.
Proof. induction pre as [|x pre IH]; simpl; auto. Qed.

Lemma get_append_other (pre suf : string) (c d : ascii) :
  forall j, j <> String.length pre ->
    String.get j (pre +++ String c suf) = String.get j (pre +++ String d suf).
Proof.
  induction pre as [|x pre IH]; simpl; intros j Hj.
  - destruct j; [congruence|reflexivity].
  - destruct j; [reflexivity|]. apply IH. congruence.
Qed.

(** C10: in round [k] of [findPrimeImplicants] every implicant of the map
    has exactly [k - 1] dashes; a pair from adjacent groups that [canMerge]
    accepts differs at one position only, where the implicant of the lower
    group holds [0] and the other [1], never [-]; and the minterm list of
    every implicant holds exactly the input terms that its pattern covers. *)
Theorem round_invariant (numVars : Z) (terms : list Z) (round : nat)
    (groups : Groups) (key : Z) (group : list Implicant.t) (imp : Implicant.t) :
  0 <= numVars ->
  Forall (inRange numVars) terms ->
  roundGroups numVars terms round = Some groups ->
  In (key, group) groups ->
  In imp group ->
  dashes (Implicant.binary imp) = (round - 1)%nat /\
  (forall key2 group2 imp2,
     In (key2, group2) groups -> In imp2 group2 ->
     key2 - key = 1 ->
     Implicant.canMerge imp imp2 = true ->
     exists i,
       String.get i (Implicant.binary imp) = Some "0"%char /\
       String.get i (Implicant.binary imp2) = Some "1"%char /\
       forall j, j <> i ->
         String.get j (Implicant.binary imp) = String.get j (Implicant.binary imp2)) /\
  (forall t,
     In t (Implicant.minterms imp) <->
     In t terms /\ Implicant.covers imp t numVars = true).
Proof.
  intros Hn Hr Hround Hg Hi.
  destruct (roundGroups_good numVars terms Hn Hr round groups Hround)
    as [[_ Hgood] _].
  assert (He : In (key, imp) (entries groups))
    by (apply entries_groups; eauto).
  destruct (Hgood key imp He) as [Hkey G].
  split; [|split].
  - rewrite (good_dashes _ _ _ _ G). lia.
  - intros key2 group2 imp2 Hg2 Hi2 Hadj Hm.
    assert (He2 : In (key2, imp2) (entries groups))
      by (apply entries_groups; eauto).
    destruct (Hgood key2 imp2 He2) as [Hkey2 G2].
    destruct (canMerge_adjacent numVars terms _ imp imp2 G G2 Hm)
      as (pre & suf & Ea & Eb); [lia|].
    exists (String.length pre). rewrite Ea, Eb.
    split; [apply get_append_at|]. split; [apply get_append_at|].
    intros j Hj. apply get_append_other. exact Hj.
  - apply (good_minterms _ _ _ _ G).
Qed.

Lemma round_invariant_witness :
  dashes "0-" = (2 - 1)%nat /\
  (forall key2 group2 imp2,
     In (key2, group2)
        [(0, [Implicant.mk [0; 1] "0-" true false;
              Implicant.mk [0; 2] "-0" true false]);
         (1, [Implicant.mk [1; 3] "-1" true false;
              Implicant.mk [2; 3] "1-" true false])] ->
     In imp2 group2 ->
     key2 - 0 = 1 ->
     Implicant.canMerge (Implicant.mk [0; 1] "0-" true false) imp2 = true ->
     exists i,
       String.get i "0-" = Some "0"%char /\
       String.get i (Implicant.binary imp2) = Some "1"%char /\
       forall j, j <> i ->
         String.get j "0-" = String.get j (Implicant.binary imp2)) /\
  (forall t,
     In t [0; 1] <->
     In t [0; 1; 2; 3] /\
     Implicant.covers (Implicant.mk [0; 1] "0-" true false) t 2 = true).
Proof.
  apply (round_invariant 2 [0; 1; 2; 3] 2
           [(0, [Implicant.mk [0; 1] "0-" true false;
                 Implicant.mk [0; 2] "-0" true false]);
            (1, [Implicant.mk [1; 3] "-1" true false;
                 Implicant.mk [2; 3] "1-" true false])]
           0
           [Implicant.mk [0; 1] "0-" true false;
            Implicant.mk [0; 2] "-0" true false]
           (Implicant.mk [0; 1] "0-" true false)).
  - lia.
  - unfold inRange. repeat (constructor; try lia).
  - vm_compute. reflexivity.
  - simpl. auto.
  - simpl. auto.
Defined.

(** * Further properties of the minimizer *)

(** ** Sorting and removing duplicates *)

Section SortFacts.
Context {A : Type}.
Variable lt : A -> A -> bool.
Hypothesis lt_asym : forall x y, lt x y = true -> lt y x = false.
Hypothesis le_trans : forall x y z,
  lt y x = false -> lt z y = false -> lt z x = false.

Lemma sort_insert_sorted (x : A) (l : list A) :
  StronglySorted (notAfter lt) l -> StronglySorted (notAfter lt) (sort_insert lt x l).
Proof.
  induction 1 as [|y l Hs IH Hall]; simpl.
  - constructor; constructor.
  - destruct (lt y x) eqn:E.
    + constructor; auto.
      apply Forall_forall. intros z Hz. apply sort_insert_In in Hz.
      destruct Hz as [->|Hz].
      * apply lt_asym. exact E.
      * eapply Forall_forall in Hall; eauto.
    + constructor; [constructor; auto|].
      constructor; [exact E|].
      eapply Forall_impl; [|exact Hall].
      intros z Hz. unfold notAfter in *. eapply le_trans; eauto.
Qed.

Lemma std_sort_sorted_le (l : list A) : StronglySorted (notAfter lt) (std_sort lt l).
Proof.
  induction l as [|x l IH]; simpl; [constructor|].
  apply sort_insert_sorted. exact IH.
Qed.

Lemma sort_insert_perm (x : A) (l : list A) :
  Permutation (sort_insert lt x l) (x :: l).
Proof.
  induction l as [|y l IH]; simpl; auto.
  destruct (lt y x); auto.
  rewrite IH. apply perm_swap.
Qed.

Lemma std_sort_perm (l : list A) : Permutation (std_sort lt l) l.
Proof.
  induction l as [|x l IH]; simpl; auto.
  rewrite sort_insert_perm. auto.
Qed.

Variable eq : A -> A -> bool.
Variable ltp : A -> A -> Prop.
Hypothesis ltp_trans : forall x y z, ltp x y -> ltp y z -> ltp x z.
Hypothesis le_neq_ltp : forall x y, lt y x = false -> eq x y = false -> ltp x y.

Lemma unique_from_sorted (l : list A) :
  forall kept,
    StronglySorted (notAfter lt) l -> Forall (notAfter lt kept) l ->
    StronglySorted ltp (unique_from eq kept l) /\
    Forall (ltp kept) (unique_from eq kept l).
Proof.
  induction l as [|y l IH]; simpl; intros kept Hs Hall.
  - split; constructor.
  - inversion Hs as [|? ? Hs' Hall']; subst.
    inversion Hall as [|? ? Hky Hkl]; subst.
    destruct (eq kept y) eqn:E.
    + apply IH; auto.
    + destruct (IH y Hs' Hall') as [H1 H2].
      assert (Hlt : ltp kept y) by (apply le_neq_ltp; auto).
      split.
      * constructor; auto.
      * constructor; auto.
        eapply Forall_impl; [|exact H2]. intros z Hz. eauto.
Qed.

Lemma std_unique_sorted (l : list A) :
  StronglySorted (notAfter lt) l -> StronglySorted ltp (std_unique eq l).
Proof.
  destruct l as [|x l]; simpl; intros Hs; [constructor|].
  inversion Hs as [|? ? Hs' Hall]; subst.
  destruct (unique_from_sorted l x Hs' Hall) as [H1 H2].
  constructor; auto.
Qed.
End SortFacts.

(** The order of [std::string]. *)
Lemma ascii_compare_lt_trans (a b c : ascii) :
  Ascii.compare a b = Lt -> Ascii.compare b c = Lt -> Ascii.compare a c = Lt.
Proof.
  unfold Ascii.compare. rewrite !N.compare_lt_iff. lia.
Qed.

Lemma string_compare_lt_trans (x : string) :
  forall y z, String.compare x y = Lt -> String.compare y z = Lt ->
              String.compare x z = Lt.
Proof.
  induction x as [|a x IH]; intros [|b y] [|c z]; simpl; try congruence.
  destruct (Ascii.compare a b) eqn:Eab; try discriminate;
    destruct (Ascii.compare b c) eqn:Ebc; try discriminate; intros H1 H2.
  - apply Ascii.compare_eq_iff in Eab, Ebc. subst.
    rewrite (proj2 (N.compare_eq_iff _ _) eq_refl : Ascii.compare c c = Eq).
    eauto.
  - apply Ascii.compare_eq_iff in Eab. subst. rewrite Ebc. reflexivity.
  - apply Ascii.compare_eq_iff in Ebc. subst. rewrite Eab. reflexivity.
  - rewrite (ascii_compare_lt_trans _ _ _ Eab Ebc). reflexivity.
Qed.

Lemma string_ltb_trans (x y z : string) :
  String.ltb x y = true -> String.ltb y z = true -> String.ltb x z = true.
Proof.
  unfold String.ltb.
  destruct (String.compare x y) eqn:E1; try discriminate.
  destruct (String.compare y z) eqn:E2; try discriminate.
  rewrite (string_compare_lt_trans _ _ _ E1 E2). reflexivity.
Qed.

Lemma string_ltb_asym (x y : string) :
  String.ltb x y = true -> String.ltb y x = false.
Proof.
  unfold String.ltb. rewrite (String.compare_antisym y x).
  destruct (String.compare x y); simpl; congruence.
Qed.

Lemma string_ltb_total (x y : string) :
  String.ltb y x = false -> String.eqb x y = false -> String.ltb x y = true.
Proof.
  unfold String.ltb. rewrite (String.compare_antisym y x).
  destruct (String.compare x y) eqn:E; simpl; try congruence.
  apply String.compare_eq_iff in E. subst. rewrite String.eqb_refl. congruence.
Qed.

Lemma string_ltb_irrefl (x : string) : String.ltb x x = false.
Proof.
  destruct (String.ltb x x) eqn:E; auto.
  pose proof (string_ltb_asym _ _ E). congruence.
Qed.

Lemma string_le_trans (x y z : string) :
  String.ltb y x = false -> String.ltb z y = false -> String.ltb z x = false.
Proof.
  intros H1 H2. destruct (String.ltb z x) eqn:E; auto.
  destruct (String.eqb x y) eqn:Exy.
  - apply String.eqb_eq in Exy. subst. congruence.
  - pose proof (string_ltb_total _ _ H1 Exy) as Hxy.
    pose proof (string_ltb_trans _ _ _ E Hxy). congruence.
Qed.

Lemma removeDuplicates_strict (implicants : list Implicant.t) :
  StronglySorted patternLt (removeDuplicates implicants).
Proof.
  unfold removeDuplicates.
  apply (std_unique_sorted binary_lt).
  - intros x y z. apply string_ltb_trans.
  - intros x y. apply string_ltb_total.
  - apply std_sort_sorted_le.
    + intros x y. apply string_ltb_asym.
    + intros x y z. apply string_le_trans.
Qed.

Lemma patternLt_NoDup (l : list Implicant.t) :
  StronglySorted patternLt l -> NoDup (map Implicant.binary l).
Proof.
  induction 1 as [|x l Hs' IH Hall]; simpl; constructor; auto.
  intros Hin. apply in_map_iff in Hin. destruct Hin as (y & E & Hy).
  eapply Forall_forall in Hall; eauto. unfold patternLt in Hall.
  rewrite E, string_ltb_irrefl in Hall. discriminate.
Qed.

(** X1: [removeDuplicates] leaves the implicants in strictly ascending order
    of their patterns, so no pattern is there twice; it keeps only
    implicants it was given, and one for every pattern it was given. *)
Theorem removeDuplicates_ascending (implicants : list Implicant.t) :
  StronglySorted patternLt (removeDuplicates implicants) /\
  NoDup (map Implicant.binary (removeDuplicates implicants)) /\
  (forall x, In x (removeDuplicates implicants) -> In x implicants) /\
  (forall x, In x implicants ->
     exists y, In y (removeDuplicates implicants) /\
               Implicant.binary y = Implicant.binary x).
Proof.
  split; [apply removeDuplicates_strict|]. split; [|split].
  - apply patternLt_NoDup, removeDuplicates_strict.
  - apply removeDuplicates_In.
  - apply removeDuplicates_repr.
Qed.

Lemma findPrimeImplicants_strict (fuel : nat) (numVars : Z) (terms : list Z)
    (primes : list Implicant.t) :
  findPrimeImplicants fuel numVars terms = Some primes ->
  StronglySorted patternLt primes.
Proof.
  unfold findPrimeImplicants. intros Hp. destruct terms as [|t0 l0].
  - injection Hp as <-. constructor.
  - destruct (primeLoop fuel _ _) as [r|]; [|discriminate].
    injection Hp as <-. apply removeDuplicates_strict.
Qed.

(** X2: the list that [findPrimeImplicants] returns for terms in range holds
    no pattern twice and is in ascending order of the patterns; every
    pattern in it has [numVars] symbols, covers input terms only, and every
    input term is covered by one of them. *)
Theorem prime_implicants_list (fuel : nat) (numVars : Z) (terms : list Z)
    (primes : list Implicant.t) :
  0 <= numVars ->
  Forall (inRange numVars) terms ->
  findPrimeImplicants fuel numVars terms = Some primes ->
  StronglySorted patternLt primes /\
  (forall p, In p primes ->
     String.length (Implicant.binary p) = Z.to_nat numVars /\
     ternary (Implicant.binary p) = true /\
     forall t, inRange numVars t ->
       Implicant.covers p t numVars = true -> In t terms) /\
  (forall t, In t terms ->
     exists p, In p primes /\ Implicant.covers p t numVars = true).
Proof.
  intros Hn Hr Hp.
  split; [eapply findPrimeImplicants_strict; eauto|].
  destruct (findPrimeImplicants_spec (S (Z.to_nat numVars)) numVars terms Hn Hr
              (Nat.lt_succ_diag_r _)) as (primes' & Hp' & Hgood & Hcov).
  assert (E : primes' = primes).
  { pose proof (findPrimeImplicants_more_fuel _ (Nat.max fuel (S (Z.to_nat numVars)))
                  _ _ _ Hp (Nat.le_max_l _ _)) as E1.
    pose proof (findPrimeImplicants_more_fuel _ (Nat.max fuel (S (Z.to_nat numVars)))
                  _ _ _ Hp' (Nat.le_max_r _ _)) as E2.
    congruence. }
  subst primes'. split; [|exact Hcov].
  intros p Hin. destruct (Hgood p Hin) as [d G].
  split; [apply (good_length _ _ _ _ G)|].
  split; [apply (good_ternary _ _ _ _ G)|].
  apply (good_sound _ _ _ _ G).
Qed.

Lemma prime_implicants_list_witness :
  StronglySorted patternLt
    [Implicant.mk [0; 2] "-0" true false; Implicant.mk [0; 1] "0-" true false] /\
  (forall p,
     In p [Implicant.mk [0; 2] "-0" true false;
           Implicant.mk [0; 1] "0-" true false] ->
     String.length (Implicant.binary p) = Z.to_nat 2 /\
     ternary (Implicant.binary p) = true /\
     forall t, inRange 2 t -> Implicant.covers p t 2 = true -> In t [0; 1; 2]) /\
  (forall t, In t [0; 1; 2] ->
     exists p,
       In p [Implicant.mk [0; 2] "-0" true false;
             Implicant.mk [0; 1] "0-" true false] /\
       Implicant.covers p t 2 = true).
Proof.
  apply (prime_implicants_list 2 2 [0; 1; 2]).
  - lia.
  - unfold inRange. repeat (constructor; try lia).
  - vm_compute. reflexivity.
Defined.

Lemma allTermsOf_strict (minterms dontcares : list Z) :
  StronglySorted Z.lt (allTermsOf minterms dontcares).
Proof.
  unfold allTermsOf. apply (std_unique_sorted Z.ltb).
  - intros x y z. lia.
  - intros x y H1 H2. apply Z.ltb_ge in H1. apply Z.eqb_neq in H2. lia.
  - apply std_sort_sorted_le.
    + intros x y H. apply Z.ltb_lt in H. apply Z.ltb_ge. lia.
    + intros x y z H1 H2. apply Z.ltb_ge in H1, H2. apply Z.ltb_ge. lia.
Qed.

(** X3: the terms that [minimize] hands to the generation, its minterms and
    don't-care terms combined, are in strictly ascending order, each once,
    whatever the order and the repetitions of the input. *)
Theorem allTerms_ascending (minterms dontcares : list Z) :
  StronglySorted Z.lt (allTermsOf minterms dontcares) /\
  NoDup (allTermsOf minterms dontcares) /\
  (forall t, In t (allTermsOf minterms dontcares) <->
             In t minterms \/ In t dontcares).
Proof.
  pose proof (allTermsOf_strict minterms dontcares) as Hs.
  split; [exact Hs|]. split; [|apply allTermsOf_In].
  induction Hs as [|x l Hs' IH Hall]; constructor; auto.
  intros Hin. eapply Forall_forall in Hall; eauto. lia.
Qed.

(** ** Terms and patterns *)

Lemma bitChar_digit (t : Z) (k : nat) :
  (if Ascii.eqb (bitChar t k) "1" then 1 else 0) = (t / 2 ^ Z.of_nat k) mod 2.
Proof.
  rewrite bitChar_mod2.
  pose proof (Z.mod_pos_bound (t / 2 ^ Z.of_nat k) 2 ltac:(lia)).
  destruct (Z.eqb_spec ((t / 2 ^ Z.of_nat k) mod 2) 0) as [E|E];
    cbv [Ascii.eqb Bool.eqb]; lia.
Qed.

Lemma binaryValue_from_intToBinary (t : Z) (k : nat) :
  forall acc,
    binaryValue_from acc (intToBinary_from t k)
    = acc * 2 ^ Z.of_nat k + t mod 2 ^ Z.of_nat k.
Proof.
  induction k as [|k IH]; intros acc.
  - simpl. rewrite Z.mod_1_r. lia.
  - cbn [intToBinary_from binaryValue_from]. rewrite IH.
    rewrite Nat2Z.inj_succ, Z.pow_succ_r by lia.
    rewrite (Z.mul_comm 2 (2 ^ Z.of_nat k)) at 2.
    rewrite Z.rem_mul_r by lia.
    rewrite bitChar_digit. lia.
Qed.

(** X4: [intToBinary] writes a term of the truth table as its binary
    numeral of exactly [numVars] digits, most significant digit first:
    reading the digits back gives the term.  The variable count is at most
    31, so that the term is an [int] and every shift of the loop is by less
    than the width of [int]. *)
Theorem intToBinary_numeral (term numVars : Z) :
  0 <= numVars <= 31 ->
  inRange numVars term ->
  0 <= term <= INT_MAX /\
  String.length (intToBinary term numVars) = Z.to_nat numVars /\
  binaryString (intToBinary term numVars) = true /\
  binaryValue (intToBinary term numVars) = term.
Proof.
  intros Hn Hr. split.
  - unfold inRange in Hr. unfold INT_MAX.
    assert (2 ^ numVars <= 2 ^ 31) by (apply Z.pow_le_mono_r; lia).
    change (2 ^ 31) with 2147483648 in *. lia.
  - split; [apply intToBinary_length|].
    split; [apply intToBinary_binary|].
    unfold binaryValue, intToBinary. rewrite binaryValue_from_intToBinary.
    rewrite Z2Nat.id by lia. unfold inRange in Hr.
    rewrite Z.mod_small by lia. lia.
Qed.

Lemma intToBinary_numeral_witness :
  0 <= 5 <= INT_MAX /\
  String.length (intToBinary 5 3) = Z.to_nat 3 /\
  binaryString (intToBinary 5 3) = true /\
  binaryValue (intToBinary 5 3) = 5.
Proof.
  apply (intToBinary_numeral 5 3); [lia|unfold inRange; lia].
Defined.

Lemma canMerge_loop_sym (a : string) :
  forall b d, String.length a = String.length b ->
    Implicant.canMerge_loop a b d = Implicant.canMerge_loop b a d.
Proof.
  induction a as [|ca a IH]; intros [|cb b] d; simpl; try discriminate; auto.
  intros Hl. injection Hl as Hl.
  rewrite (Ascii.eqb_sym cb ca).
  destruct (Ascii.eqb ca cb); simpl.
  - apply IH. exact Hl.
  - destruct (d + 1 >? 1); auto.
Qed.

Lemma canMerge_loop_same (a : string) :
  forall d, Implicant.canMerge_loop a a d = (d =? 1).
Proof.
  induction a as [|c a IH]; intros d; simpl; auto.
  rewrite Ascii.eqb_refl. simpl. apply IH.
Qed.

Lemma canMerge_sym (a b : Implicant.t) :
  Implicant.canMerge a b = Implicant.canMerge b a.
Proof.
  unfold Implicant.canMerge.
  rewrite (Nat.eqb_sym (String.length (Implicant.binary b))).
  destruct (Nat.eqb_spec (String.length (Implicant.binary a))
                         (String.length (Implicant.binary b))); simpl; auto.
  apply canMerge_loop_sym. assumption.
Qed.

(** X5: [canMerge] does not depend on the order of its two implicants, never
    accepts an implicant with itself, and refuses patterns of different
    lengths; a pair it accepts merges to the same pattern in either
    order. *)
Theorem canMerge_symmetric (a b : Implicant.t) :
  Implicant.canMerge a b = Implicant.canMerge b a /\
  Implicant.canMerge a a = false /\
  (String.length (Implicant.binary a) <> String.length (Implicant.binary b) ->
   Implicant.canMerge a b = false) /\
  (Implicant.canMerge a b = true ->
   Implicant.binary (Implicant.merged a b)
   = Implicant.binary (Implicant.merged b a)).
Proof.
  split; [|split; [|split]].
  - apply canMerge_sym.
  - unfold Implicant.canMerge. rewrite Nat.eqb_refl. simpl.
    apply canMerge_loop_same.
  - intros Hne. unfold Implicant.canMerge.
    apply Nat.eqb_neq in Hne. rewrite Hne. reflexivity.
  - intros H.
    destruct (canMerge_split a b H) as (pre & ca & cb & suf & Ea & Eb & Hne).
    simpl. rewrite Ea, Eb.
    rewrite !mergeBinary_split by congruence. reflexivity.
Qed.

Lemma canMerge_symmetric_witness :
  Implicant.canMerge (Implicant.of_term 0 2) (Implicant.of_term 1 2)
  = Implicant.canMerge (Implicant.of_term 1 2) (Implicant.of_term 0 2) /\
  Implicant.canMerge (Implicant.of_term 0 2) (Implicant.of_term 0 2) = false /\
  (String.length (Implicant.binary (Implicant.of_term 0 2))
   <> String.length (Implicant.binary (Implicant.of_term 1 2)) ->
   Implicant.canMerge (Implicant.of_term 0 2) (Implicant.of_term 1 2) = false) /\
  (Implicant.canMerge (Implicant.of_term 0 2) (Implicant.of_term 1 2) = true ->
   Implicant.binary (Implicant.merged (Implicant.of_term 0 2) (Implicant.of_term 1 2))
   = Implicant.binary (Implicant.merged (Implicant.of_term 1 2) (Implicant.of_term 0 2))).
Proof.
  exact (canMerge_symmetric (Implicant.of_term 0 2) (Implicant.of_term 1 2)).
Defined.

Lemma get_Some_lt (s : string) :
  forall i c, String.get i s = Some c -> (i < String.length s)%nat.
Proof.
  induction s as [|x s IH]; simpl; intros i c H; [discriminate|].
  destruct i as [|i]; [lia|]. apply IH in H. lia.
Qed.

Lemma covers_loop_get (s : string) :
  forall tb, String.length s = String.length tb ->
    (Implicant.covers_loop s tb = true <->
     forall i c, String.get i s = Some c ->
                 c = "-"%char \/ String.get i tb = Some c).
Proof.
  induction s as [|x s IH]; intros [|y tb]; simpl; try discriminate.
  - intros _. split; intros; try discriminate; auto.
  - intros Hl. injection Hl as Hl. split.
    + intros H i c Hi.
      destruct (Ascii.eqb x "-") eqn:Ed; simpl in H.
      * apply ascii_eqb_true in Ed. subst x.
        destruct i as [|i]; [injection Hi as <-; auto|].
        apply (proj1 (IH tb Hl) H i c Hi).
      * destruct (Ascii.eqb x y) eqn:Exy; simpl in H; [|discriminate].
        apply ascii_eqb_true in Exy. subst y.
        destruct i as [|i]; [injection Hi as <-; auto|].
        apply (proj1 (IH tb Hl) H i c Hi).
    + intros H.
      assert (Hrest : Implicant.covers_loop s tb = true).
      { apply (IH tb Hl). intros i c Hi. apply (H (S i) c Hi). }
      rewrite Hrest.
      destruct (H O x eq_refl) as [->|E].
      * reflexivity.
      * injection E as ->. rewrite Ascii.eqb_refl.
        rewrite andb_false_r. reflexivity.
Qed.

(** X6: what [covers] decides, in bits.  For at most 31 variables and a
    term that is a non-negative [int], a pattern of [numVars] symbols covers
    the term exactly when every symbol is [-] or the binary digit of the
    term at its place, position [i] standing for bit [numVars - 1 - i]. *)
Theorem covers_bits (imp : Implicant.t) (term numVars : Z) :
  numVars <= 31 ->
  0 <= term <= INT_MAX ->
  String.length (Implicant.binary imp) = Z.to_nat numVars ->
  (Implicant.covers imp term numVars = true <->
   forall i c, String.get i (Implicant.binary imp) = Some c ->
     c = "-"%char \/
     c = if Z.testbit term (numVars - 1 - Z.of_nat i)
         then "1"%char else "0"%char).
Proof.
  intros _ _ Hlen. unfold Implicant.covers.
  rewrite covers_loop_get by (rewrite intToBinary_length; exact Hlen).
  assert (Hget : forall i, (i < Z.to_nat numVars)%nat ->
            String.get i (intToBinary term numVars)
            = Some (if Z.testbit term (numVars - 1 - Z.of_nat i)
                    then "1"%char else "0"%char)).
  { intros i Hi. unfold intToBinary.
    rewrite intToBinary_from_get by exact Hi. rewrite bitChar_testbit.
    replace (Z.of_nat (Z.to_nat numVars - 1 - i))
      with (numVars - 1 - Z.of_nat i) by lia.
    reflexivity. }
  split; intros H i c Hi.
  - pose proof (get_Some_lt _ _ _ Hi) as Hlt. rewrite Hlen in Hlt.
    destruct (H i c Hi) as [Hd|Hc]; auto.
    rewrite Hget in Hc by exact Hlt. injection Hc as <-. auto.
  - pose proof (get_Some_lt _ _ _ Hi) as Hlt. rewrite Hlen in Hlt.
    destruct (H i c Hi) as [Hd|Hc]; auto.
    right. rewrite Hget by exact Hlt. congruence.
Qed.

Lemma covers_bits_witness :
  Implicant.covers (Implicant.mk [1; 5] "-01" true false) 5 3 = true <->
  forall i c, String.get i "-01" = Some c ->
    c = "-"%char \/
    c = if Z.testbit 5 (3 - 1 - Z.of_nat i) then "1"%char else "0"%char.
Proof.
  apply (covers_bits (Implicant.mk [1; 5] "-01" true false) 5 3).
  - lia.
  - unfold INT_MAX. lia.
  - reflexivity.
Defined.

(** ** Validation order *)

Lemma firstOutOfRange_first (numVars : Z) (pre post : list Z) (t : Z) :
  Forall (inRange numVars) pre -> ~ inRange numVars t ->
  firstOutOfRange (2 ^ numVars - 1) (pre ++ t :: post) = Some t.
Proof.
  unfold firstOutOfRange, inRange. intros Hpre Ht.
  induction Hpre as [|x pre Hx Hpre IH]; simpl.
  - destruct (Z.ltb_spec t 0); simpl; auto.
    destruct (Z.gtb_spec t (2 ^ numVars - 1)); auto. lia.
  - destruct (Z.ltb_spec x 0); [lia|].
    destruct (Z.gtb_spec x (2 ^ numVars - 1)); [lia|]. exact IH.
Qed.

(** X7: which failure [minimize] reports.  With a variable count that
    passes, the error names the first minterm of the input that is out of
    range, whatever the don't-care terms are; only when every minterm is in
    range does it name a don't-care term, the first one out of range. *)
Theorem first_offender_reported (fuel : nat) (q : QuineMcCluskey) :
  0 <= numVars q <= 8 ->
  (forall pre t post,
     minterms q = pre ++ t :: post ->
     Forall (inRange (numVars q)) pre -> ~ inRange (numVars q) t ->
     minimize fuel q = (Thrown (MintermOutOfRange t), q)) /\
  (forall pre t post,
     Forall (inRange (numVars q)) (minterms q) ->
     dontcares q = pre ++ t :: post ->
     Forall (inRange (numVars q)) pre -> ~ inRange (numVars q) t ->
     minimize fuel q = (Thrown (DontCareOutOfRange t), q)).
Proof.
  intros Hn. unfold minimize.
  destruct (Z.gtb_spec (numVars q) 8) as [Hgt|_]; [lia|].
  destruct (Z.ltb_spec (numVars q) 0) as [Hlt|_]; [lia|].
  rewrite maxTerm_pow by lia. split.
  - intros pre t post E Hpre Ht.
    rewrite E, firstOutOfRange_first by assumption. reflexivity.
  - intros pre t post Hm E Hpre Ht.
    apply firstOutOfRange_None in Hm. rewrite Hm.
    rewrite E, firstOutOfRange_first by assumption. reflexivity.
Qed.

Lemma first_offender_reported_witness :
  (forall pre t post,
     [1; 5; 9] = pre ++ t :: post ->
     Forall (inRange 2) pre -> ~ inRange 2 t ->
     minimize 0 (construct 2 [1; 5; 9] [7])
     = (Thrown (MintermOutOfRange t), construct 2 [1; 5; 9] [7])) /\
  (forall pre t post,
     Forall (inRange 2) [1; 5; 9] ->
     [7] = pre ++ t :: post ->
     Forall (inRange 2) pre -> ~ inRange 2 t ->
     minimize 0 (construct 2 [1; 5; 9] [7])
     = (Thrown (DontCareOutOfRange t), construct 2 [1; 5; 9] [7])).
Proof.
  apply (first_offender_reported 0 (construct 2 [1; 5; 9] [7])). simpl. lia.
Defined.

(** ** The text *)

(** X8: [formatSOP] never returns the empty string, whatever cover and
    variable names it is given; and on a valid problem instance [minimize]
    returns ["0"] exactly when there is no minterm: don't-care terms alone
    never give a product term. *)
Theorem text_nonempty (q : QuineMcCluskey) (fuel : nat) (text : string) :
  valid q ->
  minimize fuel q = (Returned text, q) ->
  text <> EmptyString /\
  (forall names cover, formatSOP names cover <> EmptyString) /\
  (text = "0"%string <-> minterms q = []).
Proof.
  intros Hv Hmin.
  assert (Hne : forall names cover, formatSOP names cover <> EmptyString).
  { intros names cover. unfold formatSOP.
    destruct (isEmpty cover) eqn:Ec; [discriminate|].
    destruct (existsb noLiteral cover); [discriminate|].
    destruct (formatLoop names (length cover) cover 0 EmptyString) eqn:Er;
      simpl; discriminate. }
  pose proof (valid_parts q Hv) as (Hn & Hm & Hd).
  rewrite minimize_validated in Hmin by auto.
  destruct (minimalCover fuel q) as [cover|] eqn:Hc; [|discriminate].
  injection Hmin as <-.
  split; [apply Hne|]. split; [exact Hne|].
  pose proof (minimalCover_patterns q fuel cover Hv Hc) as Hpat.
  destruct Hv as (_ & Hnames & _ & _). rewrite Hnames.
  rewrite formatSOP_spec
    by (intros imp Hin; destruct (Hpat imp Hin) as [-> _]; lia).
  split.
  - intros Htext.
    assert (Ecover : cover = []).
    { destruct cover as [|imp rest]; [reflexivity|]. exfalso.
      cbn [isEmpty] in Htext.
      destruct (existsb noLiteral (imp :: rest)) eqn:E; [discriminate|].
      pose proof (existsb_false _ _ E imp (or_introl eq_refl)) as Hlit.
      destruct (sop_spec_head imp rest Hlit) as (j & tail & Hj & Es).
      destruct (Hpat imp (or_introl eq_refl)) as [Hlen _].
      assert (Hj8 : (j < 8)%nat) by lia.
      destruct (varName_plain j Hj8) as (_ & _ & H0 & _).
      rewrite Es in Htext. injection Htext as Hc0 _.
      rewrite Hc0 in H0. discriminate. }
    subst cover.
    destruct (minimalCover_spec q (proj1 Hn) Hm Hd)
      as (primes & cover & _ & Hfuel & _ & Hcov).
    assert (E : [] = cover).
    { apply (minimalCover_unique q fuel
               (Nat.max (S (Z.to_nat (numVars q))) (length primes)) _ _ Hc).
      apply Hfuel; lia. }
    subst cover. destruct (minterms q) as [|m l]; [reflexivity|].
    destruct (Hcov m (or_introl eq_refl)) as (c & [] & _).
  - intros Hnone. unfold minimalCover in Hc. rewrite Hnone in Hc.
    destruct (findPrimeImplicants fuel _ _) as [primes|]; [|discriminate].
    injection Hc as <-. reflexivity.
Qed.

Lemma text_nonempty_witness :
  "0"%string <> EmptyString /\
  (forall names cover, formatSOP names cover <> EmptyString) /\
  ("0"%string = "0"%string <-> minterms (construct 3 [] [1; 5]) = []).
Proof.
  apply (text_nonempty (construct 3 [] [1; 5]) 4 "0").
  - solve_valid.
  - vm_compute. reflexivity.
Defined.

(** ** Essential primes *)

Lemma NoDup_snoc {A : Type} (l : list A) (x : A) :
  NoDup l -> ~ In x l -> NoDup (l ++ [x]).
Proof.
  intros Hl Hx. apply (Permutation_NoDup (Permutation_cons_append l x)).
  constructor; assumption.
Qed.

Lemma hasBinary_false (bin : string) (l : list Implicant.t) :
  hasBinary bin l = false -> ~ In bin (map Implicant.binary l).
Proof.
  intros H Hin. apply in_map_iff in Hin. destruct Hin as (e & E & He).
  assert (Ht : hasBinary bin l = true) by (apply hasBinary_true; eauto).
  congruence.
Qed.

Section EssentialPrimes.
Variable numVars : Z.
Variable minterms : list Z.
Variable primes : list Implicant.t.

Lemma essentialStep_inv (acc : list Implicant.t) (m : Z) :
  In m minterms -> essentialInv numVars minterms primes acc ->
  essentialInv numVars minterms primes (essentialStep numVars primes acc m).
Proof.
  intros Hm [Hnd Hacc]. unfold essentialStep.
  destruct (filter _ primes) as [|p [|p' l]] eqn:E; try (split; assumption).
  destruct (hasBinary (Implicant.binary p) acc) eqn:Eh; [split; assumption|].
  assert (Hp : In p primes).
  { assert (Hx : In p (filter (fun imp => Implicant.covers imp m numVars) primes))
      by (rewrite E; simpl; auto).
    apply filter_In in Hx. tauto. }
  split.
  - rewrite map_app. simpl. apply NoDup_snoc; auto.
    apply hasBinary_false. exact Eh.
  - intros e He. apply in_app_or in He. destruct He as [He|[<-|[]]]; auto.
    split; [reflexivity|]. exists p, m. auto.
Qed.

Lemma essentialStep_grows (acc : list Implicant.t) (m : Z) (e : Implicant.t) :
  In e acc -> In e (essentialStep numVars primes acc m).
Proof.
  intros He. unfold essentialStep.
  destruct (filter _ primes) as [|p [|p' l]]; auto.
  destruct (hasBinary _ acc); auto. apply in_or_app. auto.
Qed.

Lemma essentialStep_adds (acc : list Implicant.t) (m : Z) (p : Implicant.t) :
  filter (fun imp => Implicant.covers imp m numVars) primes = [p] ->
  exists e, In e (essentialStep numVars primes acc m) /\
            Implicant.binary e = Implicant.binary p.
Proof.
  intros E. unfold essentialStep. rewrite E.
  destruct (hasBinary (Implicant.binary p) acc) eqn:Eh.
  - apply hasBinary_true in Eh. exact Eh.
  - exists (setEssential p). split; [|reflexivity].
    apply in_or_app. simpl. auto.
Qed.

Lemma essentialFold_grows (l : list Z) :
  forall acc e, In e acc ->
    In e (fold_left (essentialStep numVars primes) l acc).
Proof.
  induction l as [|m l IH]; simpl; intros acc e He; auto.
  apply IH, essentialStep_grows, He.
Qed.

Lemma essentialFold_inv (l : list Z) :
  forall acc, incl l minterms -> essentialInv numVars minterms primes acc ->
    essentialInv numVars minterms primes (fold_left (essentialStep numVars primes) l acc).
Proof.
  induction l as [|m l IH]; simpl; intros acc Hl Hacc; auto.
  apply IH.
  - intros x Hx. apply Hl. simpl. auto.
  - apply essentialStep_inv; auto. apply Hl. simpl. auto.
Qed.

Lemma essentialFold_adds (l : list Z) :
  forall acc m p, In m l ->
    filter (fun imp => Implicant.covers imp m numVars) primes = [p] ->
    exists e, In e (fold_left (essentialStep numVars primes) l acc) /\
              Implicant.binary e = Implicant.binary p.
Proof.
  induction l as [|x l IH]; simpl; intros acc m p Hm E; [tauto|].
  destruct Hm as [->|Hm].
  - destruct (essentialStep_adds acc m p E) as (e & He & Eb).
    exists e. split; auto. apply essentialFold_grows. exact He.
  - eapply IH; eauto.
Qed.
End EssentialPrimes.

Lemma findEssentialPrimes_inv (numVars : Z) (minterms : list Z)
    (primes : list Implicant.t) :
  essentialInv numVars minterms primes
    (findEssentialPrimes numVars minterms primes).
Proof.
  apply essentialFold_inv; [apply incl_refl|].
  split; [constructor|]. intros e [].
Qed.

(** X9: [findEssentialPrimes] returns exactly the primes that are the only
    prime covering some minterm: each returned implicant is such a prime
    with [isEssential] set, every such prime is returned (by its pattern),
    and no pattern is returned twice. *)
Theorem essential_primes (numVars : Z) (minterms : list Z)
    (primes : list Implicant.t) :
  (forall e, In e (findEssentialPrimes numVars minterms primes) ->
     Implicant.isEssential e = true /\
     exists p m,
       In p primes /\ In m minterms /\ e = setEssential p /\
       filter (fun imp => Implicant.covers imp m numVars) primes = [p]) /\
  (forall m p, In m minterms ->
     filter (fun imp => Implicant.covers imp m numVars) primes = [p] ->
     exists e, In e (findEssentialPrimes numVars minterms primes) /\
               Implicant.binary e = Implicant.binary p) /\
  NoDup (map Implicant.binary (findEssentialPrimes numVars minterms primes)).
Proof.
  destruct (findEssentialPrimes_inv numVars minterms primes) as [Hnd Hall].
  split; [exact Hall|]. split; [|exact Hnd].
  intros m p Hm E. apply essentialFold_adds with (m := m); auto.
Qed.

(** ** The greedy choice *)

Lemma coverCount_filter (numVars : Z) (uncovered : list Z) (imp : Implicant.t) :
  coverCount numVars uncovered imp
  = Z.of_nat (length (filter (fun m => Implicant.covers imp m numVars) uncovered)).
Proof.
  unfold coverCount.
  assert (H : forall l n0,
             fold_left (fun n minterm =>
                          if Implicant.covers imp minterm numVars
                          then n + 1 else n) l n0
             = n0 + Z.of_nat (length (filter (fun m => Implicant.covers imp m numVars) l))).
  { induction l as [|x l IH]; simpl; intros n0; [lia|].
    rewrite IH. destruct (Implicant.covers imp x numVars); simpl length; lia. }
  rewrite H. lia.
Qed.

Section GreedyChoice.
Variable numVars : Z.
Variable uncovered : list Z.
Variable candidates : list Implicant.t.

Lemma findBest_inv (rest : list Implicant.t) :
  forall pre maxCover bestIdx,
    candidates = pre ++ rest ->
    bestInv numVars uncovered candidates (length pre) maxCover bestIdx ->
    bestInv numVars uncovered candidates (length candidates)
      (fst (findBest numVars uncovered rest (Z.of_nat (length pre)) maxCover bestIdx))
      (snd (findBest numVars uncovered rest (Z.of_nat (length pre)) maxCover bestIdx)).
Proof.
  induction rest as [|imp rest IH]; intros pre maxCover bestIdx E [Hmax Hbest].
  - simpl.
    replace (length candidates) with (length pre)
      by (rewrite E, app_nil_r; reflexivity).
    split; assumption.
  - cbn [findBest].
    assert (Hc : coverCount numVars uncovered imp = countAt numVars uncovered candidates (length pre)).
    { unfold countAt. rewrite E, app_nth2, Nat.sub_diag by lia. reflexivity. }
    assert (E' : candidates = (pre ++ [imp]) ++ rest)
      by (rewrite <- app_assoc; exact E).
    assert (Hlen : Z.of_nat (length pre) + 1 = Z.of_nat (length (pre ++ [imp])))
      by (rewrite length_app; simpl; lia).
    assert (Hlen' : length (pre ++ [imp]) = S (length pre))
      by (rewrite length_app; simpl; lia).
    pose proof (coverCount_nonneg numVars uncovered imp) as Hnn.
    rewrite Hlen.
    destruct (Z.gtb_spec (coverCount numVars uncovered imp) maxCover) as [Hgt|Hle].
    + apply IH; auto. rewrite Hlen'. split.
      * intros j Hj. destruct (Nat.eq_dec j (length pre)) as [->|Hne]; [lia|].
        specialize (Hmax j ltac:(lia)). lia.
      * right. rewrite Nat2Z.id. split; [lia|]. split; [lia|].
        intros j Hj. specialize (Hmax j Hj). lia.
    + apply IH; auto. rewrite Hlen'. split.
      * intros j Hj. destruct (Nat.eq_dec j (length pre)) as [->|Hne]; [lia|].
        apply Hmax. lia.
      * destruct Hbest as [[_ Hm]|(Hb & Hcb & Hless)]; [lia|].
        right. split; [lia|]. split; assumption.
Qed.
End GreedyChoice.

(** X10: the candidate that the greedy search picks.  Over a non-empty
    candidate list the search returns a valid index; its count, the number
    of uncovered minterms the candidate covers, is the largest of all
    candidates, and among candidates with that count it is the first. *)
Theorem greedy_choice (numVars : Z) (uncovered : list Z)
    (remaining : list Implicant.t) :
  remaining <> [] ->
  0 <= snd (findBest numVars uncovered remaining 0 (-1) (-1))
    < Z.of_nat (length remaining) /\
  (forall j, (j < length remaining)%nat ->
     Z.of_nat (length (filter
        (fun m => Implicant.covers (nth j remaining emptyImplicant) m numVars)
        uncovered))
     <= fst (findBest numVars uncovered remaining 0 (-1) (-1))) /\
  Z.of_nat (length (filter
     (fun m => Implicant.covers
                 (nth (Z.to_nat (snd (findBest numVars uncovered remaining 0 (-1) (-1))))
                      remaining emptyImplicant) m numVars)
     uncovered))
  = fst (findBest numVars uncovered remaining 0 (-1) (-1)) /\
  (forall j,
     (j < Z.to_nat (snd (findBest numVars uncovered remaining 0 (-1) (-1))))%nat ->
     Z.of_nat (length (filter
        (fun m => Implicant.covers (nth j remaining emptyImplicant) m numVars)
        uncovered))
     < fst (findBest numVars uncovered remaining 0 (-1) (-1))).
Proof.
  intros Hne.
  pose proof (findBest_chooses numVars uncovered remaining Hne) as Hidx.
  destruct (findBest_inv numVars uncovered remaining remaining [] (-1) (-1)
              eq_refl) as [Hmax Hbest].
  { split; [intros j Hj; simpl in Hj; lia|]. left. auto. }
  change (Z.of_nat (length (@nil Implicant.t))) with 0 in Hmax, Hbest.
  unfold countAt in Hmax, Hbest.
  destruct Hbest as [[Hb _]|(_ & Hcb & Hless)]; [lia|].
  split; [exact Hidx|]. split; [|split].
  - intros j Hj. rewrite <- coverCount_filter. apply Hmax. exact Hj.
  - rewrite <- coverCount_filter. exact Hcb.
  - intros j Hj. rewrite <- coverCount_filter. apply Hless. exact Hj.
Qed.

Lemma greedy_choice_witness :
  0 <= snd (findBest 2 [0; 1; 2]
              [Implicant.mk [0; 2] "-0" true false;
               Implicant.mk [0; 1] "0-" true false] 0 (-1) (-1))
    < 2 /\
  (forall j, (j < 2)%nat ->
     Z.of_nat (length (filter
        (fun m => Implicant.covers
           (nth j [Implicant.mk [0; 2] "-0" true false;
                   Implicant.mk [0; 1] "0-" true false] emptyImplicant) m 2)
        [0; 1; 2]))
     <= 2) /\
  Z.of_nat (length (filter
     (fun m => Implicant.covers (Implicant.mk [0; 2] "-0" true false) m 2)
     [0; 1; 2])) = 2 /\
  (forall j, (j < 0)%nat ->
     Z.of_nat (length (filter
        (fun m => Implicant.covers
           (nth j [Implicant.mk [0; 2] "-0" true false;
                   Implicant.mk [0; 1] "0-" true false] emptyImplicant) m 2)
        [0; 1; 2]))
     < 2).
Proof.
  exact (greedy_choice 2 [0; 1; 2]
           [Implicant.mk [0; 2] "-0" true false;
            Implicant.mk [0; 1] "0-" true false]
           ltac:(discriminate)).
Defined.

(** ** The cover *)

Lemma erase_perm {A : Type} (d : A) (l : list A) :
  forall idx, (idx < length l)%nat ->
    Permutation (nth idx l d :: erase l idx) l.
Proof.
  induction l as [|x l IH]; simpl; intros idx H; [lia|].
  destruct idx as [|i]; simpl.
  - reflexivity.
  - rewrite perm_swap. constructor. apply IH. lia.
Qed.

Lemma NoDup_map_filter {A B : Type} (f : A -> B) (g : A -> bool) (l : list A) :
  NoDup (map f l) -> NoDup (map f (filter g l)).
Proof.
  induction l as [|x l IH]; simpl; intros H; auto.
  inversion H as [|? ? Hnot Hnd]; subst.
  destruct (g x); simpl; auto.
  constructor; auto. intros Hin. apply Hnot.
  apply in_map_iff in Hin. destruct Hin as (y & E & Hy).
  apply filter_In in Hy. apply in_map_iff. exists y. tauto.
Qed.

(** The greedy loop moves candidates into the cover, one at a time. *)
Lemma greedyLoop_distinct (numVars : Z) (fuel : nat) :
  forall uncovered remaining cover result,
    greedyLoop fuel numVars uncovered remaining cover = Some result ->
    NoDup (map Implicant.binary (cover ++ remaining)) ->
    NoDup (map Implicant.binary result) /\ incl cover result.
Proof.
  induction fuel as [|fuel IH]; intros uncovered remaining cover result Hr Hnd.
  - simpl in Hr.
    destruct (isEmpty uncovered || isEmpty remaining); [|discriminate].
    injection Hr as <-. split; [|apply incl_refl].
    rewrite map_app in Hnd. eapply NoDup_app_remove_r; eauto.
  - simpl in Hr.
    destruct (isEmpty uncovered || isEmpty remaining) eqn:Eempty.
    { injection Hr as <-. split; [|apply incl_refl].
      rewrite map_app in Hnd. eapply NoDup_app_remove_r; eauto. }
    apply orb_false_iff in Eempty. destruct Eempty as [_ Erem].
    assert (Hne : remaining <> []) by (intros ->; discriminate).
    pose proof (findBest_chooses numVars uncovered remaining Hne) as Hbest.
    set (bestIdx := snd (findBest numVars uncovered remaining 0 (-1) (-1))) in *.
    destruct (Z.geb_spec bestIdx 0); [|lia].
    apply IH in Hr.
    + destruct Hr as [H1 H2]. split; auto.
      intros c Hc. apply H2, in_or_app. auto.
    + rewrite <- app_assoc. simpl.
      eapply Permutation_NoDup; [|exact Hnd].
      apply Permutation_map, Permutation_app_head. symmetry.
      apply erase_perm. lia.
Qed.

Lemma findMinimalCover_distinct (numVars : Z) (fuel : nat) (minterms : list Z)
    (essentialPrimes allPrimes cover : list Implicant.t) :
  findMinimalCover fuel numVars minterms essentialPrimes allPrimes = Some cover ->
  NoDup (map Implicant.binary essentialPrimes) ->
  NoDup (map Implicant.binary allPrimes) ->
  NoDup (map Implicant.binary cover) /\ incl essentialPrimes cover.
Proof.
  unfold findMinimalCover. intros Hc Hess Hall.
  destruct (isEmpty _).
  { injection Hc as <-. split; [exact Hess|apply incl_refl]. }
  destruct (greedyLoop fuel _ _ _ _) as [r|] eqn:Er; [|discriminate].
  injection Hc as <-.
  apply greedyLoop_distinct in Er.
  - destruct Er as [H1 H2]. split.
    + eapply Permutation_NoDup; [|exact H1].
      apply Permutation_map. symmetry. apply std_sort_perm.
    + intros c Hin. apply std_sort_In. auto.
  - rewrite map_app. apply NoDup_app; auto.
    + apply NoDup_map_filter. exact Hall.
    + intros bin Hin Hin'.
      apply in_map_iff in Hin'. destruct Hin' as (p & E & Hp).
      apply filter_In in Hp. destruct Hp as [_ Hp].
      apply negb_true_iff in Hp. apply hasBinary_false in Hp.
      rewrite E in Hp. contradiction.
Qed.

(** X11: the final cover never holds a pattern twice, so the text never
    repeats a product term; and it holds every essential prime. *)
Theorem cover_distinct (fuel : nat) (q : QuineMcCluskey)
    (cover : list Implicant.t) :
  minimalCover fuel q = Some cover ->
  NoDup (map Implicant.binary cover) /\
  exists primes,
    findPrimeImplicants fuel (numVars q)
      (allTermsOf (minterms q) (dontcares q)) = Some primes /\
    forall e,
      In e (findEssentialPrimes (numVars q) (minterms q) primes) ->
      In e cover.
Proof.
  unfold minimalCover. intros Hc.
  destruct (findPrimeImplicants fuel _ _) as [primes|] eqn:Ep; [|discriminate].
  apply findMinimalCover_distinct in Hc.
  - destruct Hc as [H1 H2]. split; [exact H1|].
    exists primes. split; [reflexivity|]. exact H2.
  - apply findEssentialPrimes_inv.
  - apply patternLt_NoDup. eapply findPrimeImplicants_strict; eauto.
Qed.

Lemma cover_distinct_witness :
  NoDup (map Implicant.binary
           [Implicant.mk [1; 5] "-01" true false;
            Implicant.mk [2; 6] "-10" true false;
            Implicant.mk [0; 2] "0-0" true false;
            Implicant.mk [5; 7] "1-1" true false]) /\
  exists primes,
    findPrimeImplicants 4 3 (allTermsOf [0; 1; 2; 5; 6; 7] []) = Some primes /\
    forall e,
      In e (findEssentialPrimes 3 [0; 1; 2; 5; 6; 7] primes) ->
      In e [Implicant.mk [1; 5] "-01" true false;
            Implicant.mk [2; 6] "-10" true false;
            Implicant.mk [0; 2] "0-0" true false;
            Implicant.mk [5; 7] "1-1" true false].
Proof.
  apply (cover_distinct 4 (construct 3 [0; 1; 2; 5; 6; 7] [])).
  vm_compute. reflexivity.
Defined.

(** *** How many candidates the greedy loop takes *)

Lemma set_insert_length (x : Z) (s : list Z) :
  (length (set_insert x s) <= S (length s))%nat.
Proof.
  induction s as [|y s IH]; simpl; auto.
  destruct (x <? y); simpl; [lia|].
  destruct (x =? y); simpl; lia.
Qed.

Lemma insert_if_length (f : Z -> bool) (l : list Z) :
  forall acc,
    (length (fold_left (fun s x => if f x then set_insert x s else s) l acc)
     <= length acc + length (filter f l))%nat.
Proof.
  induction l as [|x l IH]; simpl; intros acc; [lia|].
  destruct (f x); simpl.
  - specialize (IH (set_insert x acc)).
    pose proof (set_insert_length x acc). lia.
  - apply IH.
Qed.

Lemma filter_split_length {A : Type} (f : A -> bool) (l : list A) :
  (length (filter f l) + length (filter (fun x => negb (f x)) l) = length l)%nat.
Proof.
  induction l as [|x l IH]; simpl; auto.
  destruct (f x); simpl; lia.
Qed.

Lemma greedy_picks (numVars : Z) (fuel : nat) :
  forall uncovered remaining cover,
    (length uncovered <= fuel)%nat ->
    (forall m, In m uncovered ->
       exists p, In p remaining /\ Implicant.covers p m numVars = true) ->
    exists result,
      greedyLoop fuel numVars uncovered remaining cover = Some result /\
      (length result <= length cover + length uncovered)%nat /\
      (forall c, In c result ->
         In c cover \/
         (In c remaining /\
          exists m, In m uncovered /\ Implicant.covers c m numVars = true)).
Proof.
  induction fuel as [|fuel IH]; intros uncovered remaining cover Hlen Hcov.
  - destruct uncovered as [|m l]; [|simpl in Hlen; lia].
    exists cover. simpl. split; [reflexivity|]. split; [lia|]. auto.
  - simpl. destruct (isEmpty uncovered || isEmpty remaining) eqn:Eempty.
    { exists cover. split; [reflexivity|]. split; [lia|]. auto. }
    apply orb_false_iff in Eempty. destruct Eempty as [Eunc Erem].
    assert (Hne : remaining <> []) by (intros ->; discriminate).
    pose proof (findBest_chooses numVars uncovered remaining Hne) as Hbest.
    destruct (findBest_inv numVars uncovered remaining remaining [] (-1) (-1)
                eq_refl) as [Hmax Hshape].
    { split; [intros j Hj; simpl in Hj; lia|]. left. auto. }
    change (Z.of_nat (length (@nil Implicant.t))) with 0 in Hmax, Hshape.
    set (bestIdx := snd (findBest numVars uncovered remaining 0 (-1) (-1))) in *.
    set (maxCover := fst (findBest numVars uncovered remaining 0 (-1) (-1))) in *.
    destruct (Z.geb_spec bestIdx 0); [|lia].
    set (best := nth (Z.to_nat bestIdx) remaining emptyImplicant).
    destruct Hshape as [[Hb _]|(_ & Hcb & _)]; [lia|].
    unfold countAt in Hmax, Hcb. fold best in Hcb.
    assert (Hpos : 1 <= coverCount numVars uncovered best).
    { destruct (isEmpty_false _ Eunc) as [m Hm].
      destruct (Hcov m Hm) as (p & Hp & Hpm).
      destruct (In_nth _ _ emptyImplicant Hp) as (j & Hj & Ej).
      specialize (Hmax j Hj). rewrite Ej in Hmax.
      rewrite coverCount_filter in Hmax.
      assert (Hin : In m (filter (fun x => Implicant.covers p x numVars) uncovered))
        by (apply filter_In; auto).
      destruct (filter (fun x => Implicant.covers p x numVars) uncovered);
        [destruct Hin|]. simpl length in Hmax. lia. }
    rewrite coverCount_filter in Hpos.
    pose proof (filter_split_length
                  (fun x => Implicant.covers best x numVars) uncovered) as Hsplit.
    pose proof (insert_if_length
                  (fun x => negb (Implicant.covers best x numVars)) uncovered [])
      as Hnew.
    simpl length in Hnew.
    destruct (IH (fold_left (fun s minterm =>
                               if negb (Implicant.covers best minterm numVars)
                               then set_insert minterm s else s) uncovered [])
                 (erase remaining (Z.to_nat bestIdx))
                 (cover ++ [best]))
      as (result & Hres & Hsize & Hfrom).
    + lia.
    + intros m Hm.
      apply (insert_if_In (fun x => negb (Implicant.covers best x numVars)))
        in Hm.
      destruct Hm as [[]|[Hm Hnot]]. apply negb_true_iff in Hnot.
      destruct (Hcov m Hm) as (p & Hp & Hpm).
      destruct (erase_keeps emptyImplicant remaining (Z.to_nat bestIdx) p Hp)
        as [E|E].
      * subst p. fold best in Hpm. congruence.
      * exists p. auto.
    + exists result. split; [exact Hres|]. split.
      * rewrite length_app in Hsize. simpl length in Hsize. lia.
      * intros c Hc. destruct (Hfrom c Hc) as [Hin|(Hin & m & Hm & Hcm)].
        -- apply in_app_or in Hin. destruct Hin as [Hin|[<-|[]]]; auto.
           right. split; [apply nth_In; lia|].
           destruct (filter (fun x => Implicant.covers best x numVars)
                       uncovered) as [|m l] eqn:Ef;
             [simpl length in Hpos; lia|].
           assert (Hin : In m (filter (fun x => Implicant.covers best x numVars)
                                 uncovered))
             by (rewrite Ef; simpl; auto).
           apply filter_In in Hin. exists m. exact Hin.
        -- right. split; [eapply erase_In; eauto|].
           apply (insert_if_In
                    (fun x => negb (Implicant.covers best x numVars))) in Hm.
           destruct Hm as [[]|[Hm _]]. exists m. auto.
Qed.

(** X12: when every uncovered minterm is covered by some remaining
    candidate, each iteration of the greedy loop takes a candidate that
    covers at least one uncovered minterm; so the loop is over after at most
    as many iterations as there are uncovered minterms, keeps the cover it
    started with, and adds no more implicants than that to it. *)
Theorem greedy_picks_bound (numVars : Z) (fuel : nat)
    (uncovered : list Z) (remaining cover : list Implicant.t) :
  (length uncovered <= fuel)%nat ->
  (forall m, In m uncovered ->
     exists p, In p remaining /\ Implicant.covers p m numVars = true) ->
  exists result,
    greedyLoop fuel numVars uncovered remaining cover = Some result /\
    (length result <= length cover + length uncovered)%nat /\
    incl cover result /\
    (forall c, In c result ->
       In c cover \/
       (In c remaining /\
        exists m, In m uncovered /\ Implicant.covers c m numVars = true)).
Proof.
  intros Hlen Hcov.
  destruct (greedy_picks numVars fuel uncovered remaining cover Hlen Hcov)
    as (result & Hr & Hsize & Hfrom).
  exists result. split; [exact Hr|]. split; [exact Hsize|].
  split; [|exact Hfrom].
  destruct (greedyLoop_spec numVars (Nat.max fuel (length remaining))
              uncovered remaining cover (Nat.le_max_r _ _))
    as (result' & Hr' & Hincl & _).
  pose proof (greedyLoop_more_fuel _ _ (Nat.max fuel (length remaining))
                _ _ _ _ Hr (Nat.le_max_l _ _)) as E.
  assert (result' = result) by congruence. subst result'.
  exact Hincl.
Qed.

Lemma greedy_picks_bound_witness :
  exists result,
    greedyLoop 2 2 [1; 2]
      [Implicant.mk [0; 2] "-0" true false; Implicant.mk [0; 1] "0-" true false]
      [] = Some result /\
    (length result <= 0 + 2)%nat /\
    incl [] result /\
    (forall c, In c result ->
       In c [] \/
       (In c [Implicant.mk [0; 2] "-0" true false;
              Implicant.mk [0; 1] "0-" true false] /\
        exists m, In m [1; 2] /\ Implicant.covers c m 2 = true)).
Proof.
  apply (greedy_picks_bound 2 2 [1; 2]
           [Implicant.mk [0; 2] "-0" true false;
            Implicant.mk [0; 1] "0-" true false] []).
  - simpl. lia.
  - intros m [<-|[<-|[]]].
    + exists (Implicant.mk [0; 1] "0-" true false). simpl. auto.
    + exists (Implicant.mk [0; 2] "-0" true false). simpl. auto.
Defined.

(** ** Every accepted pair is merged and marked *)

Lemma set_true_keeps (m : list bool) :
  forall idx i, nth i m false = true -> nth i (set_true m idx) false = true.
Proof.
  induction m as [|b m IH]; simpl; intros idx i H; [destruct i; discriminate|].
  destruct idx as [|idx]; destruct i as [|i]; simpl in *; auto.
Qed.

Lemma set_true_sets (m : list bool) :
  forall idx, (idx < length m)%nat -> nth idx (set_true m idx) false = true.
Proof.
  induction m as [|b m IH]; simpl; intros idx H; [lia|].
  destruct idx as [|idx]; simpl; auto. apply IH. lia.
Qed.

Lemma grows_refl (st : MergeState) : grows st st.
Proof. repeat split; auto. Qed.

Lemma grows_trans (st1 st2 st3 : MergeState) :
  grows st1 st2 -> grows st2 st3 -> grows st1 st3.
Proof.
  intros (L1 & M1 & N1) (L2 & M2 & N2). repeat split; auto. congruence.
Qed.

Lemma grows_recorded (st st' : MergeState) (a b : Implicant.t) (ia ib : nat) :
  grows st st' -> recorded st a b ia ib -> recorded st' a b ia ib.
Proof. intros (_ & M & N) (H1 & H2 & H3). repeat split; auto. Qed.

Lemma tryMerge_grows (a b : Implicant.t) (markIndex size1 j k : nat)
    (st : MergeState) :
  grows st (tryMerge a b markIndex size1 j k st).
Proof.
  unfold tryMerge. destruct (Implicant.canMerge a b); [|apply grows_refl].
  repeat split; simpl.
  - rewrite !set_true_length. reflexivity.
  - intros idx H. apply set_true_keeps, set_true_keeps, H.
  - intros k' m H. apply push_back_at_entries. auto.
Qed.

Lemma tryMerge_records (a b : Implicant.t) (markIndex size1 j k : nat)
    (st : MergeState) :
  Implicant.canMerge a b = true ->
  (markIndex + j < length (marked st))%nat ->
  (markIndex + size1 + k < length (marked st))%nat ->
  recorded (tryMerge a b markIndex size1 j k st) a b
           (markIndex + j) (markIndex + size1 + k).
Proof.
  intros Hm Hj Hk. unfold tryMerge. rewrite Hm. repeat split; simpl.
  - apply set_true_keeps, set_true_sets, Hj.
  - apply set_true_sets. rewrite set_true_length. exact Hk.
  - apply push_back_at_entries. auto.
Qed.

Lemma scanGroup2_complete (a : Implicant.t) (markIndex size1 j : nat)
    (group2 : list Implicant.t) :
  forall k st,
    (markIndex + j < length (marked st))%nat ->
    (markIndex + size1 + k + length group2 <= length (marked st))%nat ->
    grows st (scanGroup2 a markIndex size1 j group2 k st) /\
    forall i b, nth_error group2 i = Some b ->
      Implicant.canMerge a b = true ->
      recorded (scanGroup2 a markIndex size1 j group2 k st) a b
               (markIndex + j) (markIndex + size1 + (k + i)).
Proof.
  induction group2 as [|b0 rest IH]; simpl; intros k st Hj Hk.
  - split; [apply grows_refl|]. intros i b H. destruct i; discriminate.
  - pose proof (tryMerge_grows a b0 markIndex size1 j k st) as G1.
    destruct (IH (S k) (tryMerge a b0 markIndex size1 j k st)) as [G2 R].
    + rewrite (proj1 G1). exact Hj.
    + rewrite (proj1 G1). lia.
    + split; [eapply grows_trans; eauto|].
      intros i b Hb Hm. destruct i as [|i]; simpl in Hb.
      * injection Hb as ->. eapply grows_recorded; [exact G2|].
        rewrite Nat.add_0_r. apply tryMerge_records; auto. lia.
      * replace (k + S i)%nat with (S k + i)%nat by lia. apply R; auto.
Qed.

Lemma scanGroup1_complete (markIndex size1 : nat)
    (group2 group1 : list Implicant.t) :
  forall j st,
    (markIndex + j + length group1 <= length (marked st))%nat ->
    (markIndex + size1 + length group2 <= length (marked st))%nat ->
    grows st (scanGroup1 markIndex size1 group1 j group2 st) /\
    forall j' a i b, nth_error group1 j' = Some a ->
      nth_error group2 i = Some b ->
      Implicant.canMerge a b = true ->
      recorded (scanGroup1 markIndex size1 group1 j group2 st) a b
               (markIndex + (j + j')) (markIndex + size1 + i).
Proof.
  induction group1 as [|a0 rest IH]; simpl; intros j st Hj Hk.
  - split; [apply grows_refl|]. intros j' a i b H. destruct j'; discriminate.
  - destruct (scanGroup2_complete a0 markIndex size1 j group2 0 st) as [G1 R1];
      [lia|lia|].
    destruct (IH (S j) (scanGroup2 a0 markIndex size1 j group2 0 st)) as [G2 R2].
    + rewrite (proj1 G1). lia.
    + rewrite (proj1 G1). lia.
    + split; [eapply grows_trans; eauto|].
      intros j' a i b Ha Hb Hm. destruct j' as [|j']; simpl in Ha.
      * injection Ha as ->. eapply grows_recorded; [exact G2|].
        rewrite Nat.add_0_r. apply (R1 i b Hb Hm).
      * replace (j + S j')%nat with (S j + j')%nat by lia.
        apply (R2 j' a i b); auto.
Qed.

Lemma flatten_cons (k : Z) (g : list Implicant.t) (rest : Groups) :
  flatten ((k, g) :: rest) = g ++ flatten rest.
Proof. reflexivity. Qed.

Lemma flatten_app (pre post : Groups) :
  flatten (pre ++ post) = flatten pre ++ flatten post.
Proof.
  unfold flatten. rewrite map_app, concat_app. reflexivity.
Qed.

Lemma mergeWalk_complete (groups : Groups) :
  forall markIndex st,
    (markIndex + length (flatten groups) <= length (marked st))%nat ->
    grows st (mergeWalk groups markIndex st) /\
    forall pre k1 g1 k2 g2 post,
      groups = pre ++ (k1, g1) :: (k2, g2) :: post ->
      k2 - k1 = 1 ->
      forall j a i b, nth_error g1 j = Some a -> nth_error g2 i = Some b ->
        Implicant.canMerge a b = true ->
        recorded (mergeWalk groups markIndex st) a b
                 (markIndex + length (flatten pre) + j)
                 (markIndex + length (flatten pre) + length g1 + i).
Proof.
  induction groups as [|[k1' g1'] rest IH]; intros markIndex st Hlen.
  - split; [apply grows_refl|].
    intros pre k1 g1 k2 g2 post E. destruct pre; discriminate.
  - destruct rest as [|[k2' g2'] rest'].
    + split; [apply grows_refl|].
      intros pre k1 g1 k2 g2 post E.
      destruct pre as [|x [|y pre]]; discriminate.
    + rewrite flatten_cons, length_app in Hlen.
      cbn [mergeWalk].
      set (st1 := if k2' - k1' =? 1
                  then scanGroup1 markIndex (length g1') g1' 0 g2' st
                  else st).
      assert (Hst1 : grows st st1 /\
                (k2' - k1' = 1 ->
                 forall j a i b, nth_error g1' j = Some a ->
                   nth_error g2' i = Some b ->
                   Implicant.canMerge a b = true ->
                   recorded st1 a b (markIndex + j)
                            (markIndex + length g1' + i))).
      { unfold st1. destruct (Z.eqb_spec (k2' - k1') 1) as [E1|E1].
        - destruct (scanGroup1_complete markIndex (length g1') g2' g1' 0 st)
            as [G R].
          + lia.
          + rewrite flatten_cons, length_app in Hlen. lia.
          + split; [exact G|]. intros _ j a i b Ha Hb Hm.
            apply (R j a i b Ha Hb Hm).
        - split; [apply grows_refl|]. intros E; contradiction. }
      destruct Hst1 as [G1 R1].
      destruct (IH (markIndex + length g1')%nat st1) as [G2 R2].
      { rewrite (proj1 G1). lia. }
      split; [eapply grows_trans; eauto|].
      intros pre k1 g1 k2 g2 post E Hadj j a i b Ha Hb Hm.
      destruct pre as [|x pre].
      * simpl in E. injection E as -> -> -> -> _.
        eapply grows_recorded; [exact G2|].
        simpl. rewrite !Nat.add_0_r. apply R1; auto.
      * simpl in E. injection E as <- E.
        rewrite flatten_cons, length_app.
        replace (markIndex + (length g1' + length (flatten pre)) + j)%nat
          with (markIndex + length g1' + length (flatten pre) + j)%nat by lia.
        replace (markIndex + (length g1' + length (flatten pre)) + length g1 + i)%nat
          with (markIndex + length g1' + length (flatten pre) + length g1 + i)%nat
          by lia.
        apply (R2 pre k1 g1 k2 g2 post E Hadj j a i b Ha Hb Hm).
Qed.

Lemma mergeAdjacent_complete (groups pre post : Groups) (k1 k2 : Z)
    (g1 g2 : list Implicant.t) (j i : nat) (a b : Implicant.t) :
  keysAscending groups ->
  groups = pre ++ (k1, g1) :: (k2, g2) :: post ->
  k2 - k1 = 1 ->
  nth_error g1 j = Some a -> nth_error g2 i = Some b ->
  Implicant.canMerge a b = true ->
  recorded (mergeAdjacent groups) a b
           (length (flatten pre) + j)
           (length (flatten pre) + length g1 + i).
Proof.
  intros Hk E Hadj Ha Hb Hm. rewrite mergeAdjacent_walk by exact Hk.
  destruct (mergeWalk_complete groups 0
              (initialMergeState (length (flatten groups)))) as [_ R].
  - simpl. rewrite repeat_length. lia.
  - apply (R pre k1 g1 k2 g2 post E Hadj j a i b Ha Hb Hm).
Qed.

(** *** Only merged implicants are marked *)

Section PartnerInvariant.
Variable F : list Implicant.t.

Lemma tryMerge_partner (a b : Implicant.t) (markIndex size1 j k : nat)
    (st : MergeState) :
  partnerInv F st ->
  nth_error F (markIndex + j) = Some a ->
  nth_error F (markIndex + size1 + k) = Some b ->
  partnerInv F (tryMerge a b markIndex size1 j k st).
Proof.
  intros I Ha Hb. unfold tryMerge.
  destruct (Implicant.canMerge a b) eqn:Hm; [|exact I].
  intros idx H. simpl in H.
  apply set_true_nth in H. destruct H as [->|H].
  { exists b, a. rewrite canMerge_sym. eauto using nth_error_In. }
  apply set_true_nth in H. destruct H as [->|H].
  { exists a, b. eauto using nth_error_In. }
  apply I. exact H.
Qed.

Lemma scanGroup2_partner (a : Implicant.t) (markIndex size1 j : nat)
    (group2 : list Implicant.t) :
  forall k st,
    partnerInv F st ->
    nth_error F (markIndex + j) = Some a ->
    (forall i b, nth_error group2 i = Some b ->
                 nth_error F (markIndex + size1 + (k + i)) = Some b) ->
    partnerInv F (scanGroup2 a markIndex size1 j group2 k st).
Proof.
  induction group2 as [|b rest IH]; simpl; intros k st I Ha Hg; auto.
  apply IH; auto.
  - apply tryMerge_partner; auto.
    specialize (Hg O b eq_refl). rewrite Nat.add_0_r in Hg. exact Hg.
  - intros i x Hx. specialize (Hg (S i) x Hx).
    replace (S k + i)%nat with (k + S i)%nat by lia. exact Hg.
Qed.

Lemma scanGroup1_partner (markIndex size1 : nat)
    (group2 group1 : list Implicant.t) :
  forall j st,
    partnerInv F st ->
    (forall i a, nth_error group1 i = Some a ->
                 nth_error F (markIndex + (j + i)) = Some a) ->
    (forall i b, nth_error group2 i = Some b ->
                 nth_error F (markIndex + size1 + i) = Some b) ->
    partnerInv F (scanGroup1 markIndex size1 group1 j group2 st).
Proof.
  induction group1 as [|a rest IH]; simpl; intros j st I H1 H2; auto.
  apply IH; auto.
  - apply scanGroup2_partner; auto.
    specialize (H1 O a eq_refl). rewrite Nat.add_0_r in H1. exact H1.
  - intros i x Hx. specialize (H1 (S i) x Hx).
    replace (S j + i)%nat with (j + S i)%nat by lia. exact H1.
Qed.

Lemma mergeWalk_partner (groups : Groups) :
  forall markIndex st,
    partnerInv F st ->
    (forall i x, nth_error (flatten groups) i = Some x ->
                 nth_error F (markIndex + i) = Some x) ->
    partnerInv F (mergeWalk groups markIndex st).
Proof.
  induction groups as [|[k1 g1] rest IH]; simpl; intros markIndex st I HF; auto.
  destruct rest as [|[k2 g2] rest']; auto.
  apply IH.
  - destruct (k2 - k1 =? 1); auto.
    apply scanGroup1_partner; auto.
    + intros i a Ha.
      assert (Hi : (i < length g1)%nat) by (apply nth_error_Some; congruence).
      apply HF. change (flatten ((k1, g1) :: (k2, g2) :: rest'))
        with (g1 ++ flatten ((k2, g2) :: rest')).
      rewrite nth_error_app1 by exact Hi. exact Ha.
    + intros i b Hb.
      assert (Hi : (i < length g2)%nat) by (apply nth_error_Some; congruence).
      rewrite <- Nat.add_assoc. apply HF.
      change (flatten ((k1, g1) :: (k2, g2) :: rest'))
        with (g1 ++ g2 ++ flatten rest').
      rewrite nth_error_app2 by lia.
      replace (length g1 + i - length g1)%nat with i by lia.
      rewrite nth_error_app1 by exact Hi. exact Hb.
  - intros i x Hx. rewrite <- Nat.add_assoc. apply HF.
    change (flatten ((k1, g1) :: (k2, g2) :: rest'))
      with (g1 ++ flatten ((k2, g2) :: rest')).
    rewrite nth_error_app2 by lia.
    replace (length g1 + i - length g1)%nat with i by lia. exact Hx.
Qed.
End PartnerInvariant.

Lemma mergeAdjacent_partner (groups : Groups) :
  keysAscending groups -> partnerInv (flatten groups) (mergeAdjacent groups).
Proof.
  intros Hk. rewrite mergeAdjacent_walk by exact Hk.
  apply mergeWalk_partner.
  - intros idx H. simpl in H. rewrite nth_repeat_false in H. discriminate.
  - intros i x Hx. exact Hx.
Qed.

(** *** Neighbours in the map *)

Lemma sorted_app_inv (l1 l2 : list Z) :
  StronglySorted Z.lt (l1 ++ l2) ->
  StronglySorted Z.lt l1 /\ StronglySorted Z.lt l2 /\
  forall x y, In x l1 -> In y l2 -> x < y.
Proof.
  induction l1 as [|a l1 IH]; simpl; intros H.
  - split; [constructor|]. split; auto. intros x y [].
  - inversion H as [|? ? Hs Hall]; subst.
    destruct (IH Hs) as (H1 & H2 & H3).
    rewrite Forall_app in Hall. destruct Hall as [Ha1 Ha2].
    split; [constructor; auto|]. split; auto.
    intros x y [<-|Hx] Hy; auto.
    eapply Forall_forall in Ha2; eauto.
Qed.

(** In a map some group of which has the key [k], the group with the key
    [k + 1], when there is one, is the next entry. *)
Lemma next_group (pre post : Groups) (k : Z) (g g' : list Implicant.t) :
  keysAscending (pre ++ (k, g) :: post) ->
  In (k + 1, g') (pre ++ (k, g) :: post) ->
  exists post', post = (k + 1, g') :: post'.
Proof.
  unfold keysAscending. rewrite map_app. simpl. intros Hs Hin.
  destruct (sorted_app_inv _ _ Hs) as (_ & Hs2 & Hlt).
  inversion Hs2 as [|? ? Hs3 Hall]; subst.
  apply in_app_or in Hin. destruct Hin as [Hin|[Hin|Hin]].
  - exfalso. assert (k + 1 < k); [|lia].
    apply Hlt; simpl; auto.
    apply in_map_iff. exists (k + 1, g'). auto.
  - injection Hin as Hk _. lia.
  - destruct post as [|[k2 g2] post']; [destruct Hin|].
    simpl in Hall, Hs3.
    inversion Hall as [|? ? Hk2 _]; subst.
    inversion Hs3 as [|? ? _ Hall3]; subst.
    destruct Hin as [Hin|Hin].
    + injection Hin as -> ->. eauto.
    + exfalso. assert (k2 < k + 1); [|lia].
      eapply Forall_forall in Hall3; [exact Hall3|].
      apply in_map_iff. exists (k + 1, g'). auto.
Qed.

(** And the group with the key [k - 1] is the entry before. *)
Lemma previous_group (pre post : Groups) (k : Z) (g g' : list Implicant.t) :
  keysAscending (pre ++ (k, g) :: post) ->
  In (k - 1, g') (pre ++ (k, g) :: post) ->
  exists pre', pre = pre' ++ [(k - 1, g')].
Proof.
  unfold keysAscending. rewrite map_app. simpl. intros Hs Hin.
  destruct (sorted_app_inv _ _ Hs) as (Hs1 & Hs2 & Hlt).
  inversion Hs2 as [|? ? Hs3 Hall]; subst.
  apply in_app_or in Hin. destruct Hin as [Hin|[Hin|Hin]].
  - destruct (exists_last (l := pre)) as (pre' & [k0 g0] & E).
    { intros ->. destruct Hin. }
    subst pre. exists pre'. f_equal. f_equal.
    rewrite map_app in Hs1, Hlt. simpl in Hs1, Hlt.
    destruct (sorted_app_inv _ _ Hs1) as (_ & _ & Hlt1).
    assert (Hk0 : k0 < k).
    { apply Hlt; simpl; auto. apply in_or_app. simpl. auto. }
    apply in_app_or in Hin. destruct Hin as [Hin|[Hin|[]]]; [|congruence].
    exfalso. assert (k - 1 < k0); [|lia].
    apply Hlt1; simpl; auto.
    apply in_map_iff. exists (k - 1, g'). auto.
  - injection Hin as Hk _. lia.
  - exfalso. assert (k < k - 1); [|lia].
    eapply Forall_forall in Hall; [exact Hall|].
    apply in_map_iff. exists (k - 1, g'). auto.
Qed.

Lemma flatten_nth_error (groups : Groups) :
  forall idx a, nth_error (flatten groups) idx = Some a ->
    exists pre k g post j,
      groups = pre ++ (k, g) :: post /\
      idx = (length (flatten pre) + j)%nat /\
      nth_error g j = Some a.
Proof.
  induction groups as [|[k g] rest IH]; intros idx a H.
  - destruct idx; discriminate.
  - rewrite flatten_cons in H.
    destruct (Nat.lt_ge_cases idx (length g)) as [Hlt|Hge].
    + rewrite nth_error_app1 in H by exact Hlt.
      exists [], k, g, rest, idx. simpl. auto.
    + rewrite nth_error_app2 in H by exact Hge.
      destruct (IH _ _ H) as (pre & k' & g' & post & j & E & Ei & Hj).
      exists ((k, g) :: pre), k', g', post, j.
      rewrite flatten_cons, length_app. subst rest. split; [reflexivity|].
      split; [lia|exact Hj].
Qed.

Lemma roundGroups_positive (numVars : Z) (terms : list Z) (round : nat)
    (groups : Groups) :
  roundGroups numVars terms round = Some groups -> S (pred round) = round.
Proof. destruct round; [discriminate|reflexivity]. Qed.

Lemma merge_enters_next_round (numVars : Z) (terms : list Z) (round : nat)
    (groups : Groups) (key : Z) (group1 group2 : list Implicant.t)
    (a b : Implicant.t) :
  0 <= numVars ->
  Forall (inRange numVars) terms ->
  roundGroups numVars terms round = Some groups ->
  In (key, group1) groups -> In (key + 1, group2) groups ->
  In a group1 -> In b group2 ->
  Implicant.canMerge a b = true ->
  In (key, Implicant.merged a b) (entries (newGroups (mergeAdjacent groups))) /\
  changed (mergeAdjacent groups) = true.
Proof.
  intros Hn Hr Hround Hg1 Hg2 Ha Hb Hm.
  destruct (roundGroups_good numVars terms Hn Hr round groups Hround)
    as [[Hk Hgood] _].
  destruct (Hgood key a) as [Hka Ga]; [apply entries_groups; eauto|].
  destruct (Hgood (key + 1) b) as [Hkb Gb]; [apply entries_groups; eauto|].
  destruct (canMerge_adjacent numVars terms _ a b Ga Gb Hm)
    as (pre & suf & Ea & Eb); [lia|].
  assert (Hones : Implicant.countOnes (Implicant.merged a b) = key).
  { rewrite Hka. unfold Implicant.countOnes. simpl Implicant.binary.
    rewrite Ea, Eb, mergeBinary_split by discriminate.
    rewrite !countOnes_append. reflexivity. }
  assert (Hin : In (key, Implicant.merged a b)
                   (entries (newGroups (mergeAdjacent groups)))).
  { destruct (in_split _ _ Hg1) as (gpre & gpost & E).
    rewrite E in Hk, Hg2.
    destruct (next_group gpre gpost key group1 group2 Hk Hg2) as [post' ->].
    rewrite <- E in Hk.
    destruct (In_nth_error _ _ Ha) as [j Hj].
    destruct (In_nth_error _ _ Hb) as [i Hi].
    destruct (mergeAdjacent_complete groups gpre post' key (key + 1)
                group1 group2 j i a b Hk E ltac:(lia) Hj Hi Hm)
      as (_ & _ & H).
    rewrite Hones in H. exact H. }
  split; [exact Hin|].
  pose proof (mergeAdjacent_inv groups Hk) as I.
  destruct (changed (mergeAdjacent groups)) eqn:Ec; [reflexivity|].
  rewrite (inv_unchanged _ _ I Ec) in Hin. destruct Hin.
Qed.

(** X13: no accepted merge is lost.  In a round, whenever [canMerge] accepts
    an implicant of the group of key [k] with one of the group of key
    [k + 1], the merged implicant is in the map of the next round, under
    the key [k], and the loop goes on; it has one more dash, and covers
    exactly the terms that one of the two covers. *)
Theorem merge_step (numVars : Z) (terms : list Z) (round : nat)
    (groups : Groups) (key : Z) (group1 group2 : list Implicant.t)
    (a b : Implicant.t) :
  0 <= numVars ->
  Forall (inRange numVars) terms ->
  roundGroups numVars terms round = Some groups ->
  In (key, group1) groups -> In (key + 1, group2) groups ->
  In a group1 -> In b group2 ->
  Implicant.canMerge a b = true ->
  In (key, Implicant.merged a b) (entries (newGroups (mergeAdjacent groups))) /\
  changed (mergeAdjacent groups) = true /\
  dashes (Implicant.binary (Implicant.merged a b)) = round /\
  (forall t,
     Implicant.covers (Implicant.merged a b) t numVars = true <->
     Implicant.covers a t numVars = true \/ Implicant.covers b t numVars = true).
Proof.
  intros Hn Hr Hround Hg1 Hg2 Ha Hb Hm.
  destruct (merge_enters_next_round numVars terms round groups key group1
              group2 a b Hn Hr Hround Hg1 Hg2 Ha Hb Hm) as [Hin Hch].
  destruct (roundGroups_good numVars terms Hn Hr round groups Hround)
    as [[Hk Hgood] _].
  destruct (Hgood key a) as [Hka Ga]; [apply entries_groups; eauto|].
  destruct (Hgood (key + 1) b) as [Hkb Gb]; [apply entries_groups; eauto|].
  split; [exact Hin|]. split; [exact Hch|]. split.
  - rewrite (good_dashes _ _ _ _ (merged_good numVars terms _ a b Ga Gb Hm)).
    eapply roundGroups_positive; eauto.
  - apply (merged_covers numVars terms _ a b Ga Gb Hm).
Qed.

Lemma merge_step_witness :
  In (0, Implicant.merged (Implicant.of_term 0 2) (Implicant.of_term 1 2))
     (entries (newGroups (mergeAdjacent
        [(0, [Implicant.of_term 0 2]);
         (1, [Implicant.of_term 1 2; Implicant.of_term 2 2]);
         (2, [Implicant.of_term 3 2])]))) /\
  changed (mergeAdjacent
        [(0, [Implicant.of_term 0 2]);
         (1, [Implicant.of_term 1 2; Implicant.of_term 2 2]);
         (2, [Implicant.of_term 3 2])]) = true /\
  dashes (Implicant.binary
            (Implicant.merged (Implicant.of_term 0 2) (Implicant.of_term 1 2)))
  = 1%nat /\
  (forall t,
     Implicant.covers
       (Implicant.merged (Implicant.of_term 0 2) (Implicant.of_term 1 2)) t 2
     = true <->
     Implicant.covers (Implicant.of_term 0 2) t 2 = true \/
     Implicant.covers (Implicant.of_term 1 2) t 2 = true).
Proof.
  apply (merge_step 2 [0; 1; 2; 3] 1
           [(0, [Implicant.of_term 0 2]);
            (1, [Implicant.of_term 1 2; Implicant.of_term 2 2]);
            (2, [Implicant.of_term 3 2])]
           0 [Implicant.of_term 0 2]
           [Implicant.of_term 1 2; Implicant.of_term 2 2]).
  - lia.
  - unfold inRange. repeat (constructor; try lia).
  - vm_compute. reflexivity.
  - simpl. auto.
  - simpl. auto.
  - simpl. auto.
  - simpl. auto.
  - vm_compute. reflexivity.
Defined.

Lemma unmarked_no_partner (numVars : Z) (terms : list Z) (round : nat)
    (groups : Groups) (idx : nat) (a : Implicant.t) :
  0 <= numVars ->
  Forall (inRange numVars) terms ->
  roundGroups numVars terms round = Some groups ->
  nth_error (flatten groups) idx = Some a ->
  nth idx (marked (mergeAdjacent groups)) false = false ->
  forall b, In b (flatten groups) -> Implicant.canMerge a b = false.
Proof.
  intros Hn Hr Hround Hidx Hunmarked b Hb.
  destruct (roundGroups_good numVars terms Hn Hr round groups Hround)
    as [[Hk Hgood] _].
  destruct (Implicant.canMerge a b) eqn:Hm; [exfalso|reflexivity].
  destruct (flatten_nth_error groups idx a Hidx)
    as (gpre & k & g & gpost & j & E & Ei & Hj).
  apply flatten_entries in Hb. destruct Hb as [k' Hb].
  pose proof Hb as Hb'. apply entries_groups in Hb'.
  destruct Hb' as (g' & Hg' & Hbg).
  destruct (Hgood k' b Hb) as [Hkb Gb].
  destruct (Hgood k a) as [Hka Ga].
  { apply entries_groups. exists g. split.
    - rewrite E. apply in_or_app. simpl. auto.
    - eapply nth_error_In; eauto. }
  destruct (In_nth_error _ _ Hbg) as [i Hi].
  destruct (canMerge_bits numVars terms _ a b Ga Gb Hm)
    as (pre & ca & cb & suf & Ea & Eb & Hc).
  assert (Hkk : k' = k + 1 \/ k' = k - 1).
  { rewrite Hka, Hkb. unfold Implicant.countOnes. rewrite Ea, Eb.
    rewrite !countOnes_append.
    destruct Hc as [[-> ->]|[-> ->]]; simpl Implicant.countOnes_str; lia. }
  rewrite E in Hk, Hg'.
  destruct Hkk as [-> | ->].
  - destruct (next_group gpre gpost k g g' Hk Hg') as [post' ->].
    rewrite <- E in Hk.
    destruct (mergeAdjacent_complete groups gpre post' k (k + 1)
                g g' j i a b Hk E ltac:(lia) Hj Hi Hm) as (H1 & _ & _).
    rewrite <- Ei in H1. congruence.
  - destruct (previous_group gpre gpost k g g' Hk Hg') as [pre' ->].
    rewrite <- E in Hk. rewrite <- app_assoc in E. simpl in E.
    rewrite canMerge_sym in Hm.
    destruct (mergeAdjacent_complete groups pre' gpost (k - 1) k
                g' g i j b a Hk E ltac:(lia) Hi Hj Hm) as (_ & H2 & _).
    rewrite flatten_app, length_app in Ei.
    change (flatten [(k - 1, g')]) with (g' ++ []) in Ei.
    rewrite app_nil_r in Ei. rewrite <- Ei in H2. congruence.
Qed.

(** X14: which implicants a round emits as prime.  An implicant of a round
    is left unmarked, and so appended to [primeImplicants], exactly when
    [canMerge] accepts it with no implicant of the round. *)
Theorem prime_iff_unmerged (numVars : Z) (terms : list Z) (round : nat)
    (groups : Groups) (idx : nat) (a : Implicant.t) :
  0 <= numVars ->
  Forall (inRange numVars) terms ->
  roundGroups numVars terms round = Some groups ->
  nth_error (flatten groups) idx = Some a ->
  (nth idx (marked (mergeAdjacent groups)) false = false <->
   forall b, In b (flatten groups) -> Implicant.canMerge a b = false) /\
  (nth idx (marked (mergeAdjacent groups)) false = false ->
   forall primeImplicants,
     In (setPrime a)
        (collectUnmarked (marked (mergeAdjacent groups)) groups 0
                         primeImplicants)).
Proof.
  intros Hn Hr Hround Hidx.
  destruct (roundGroups_good numVars terms Hn Hr round groups Hround)
    as [[Hk _] _].
  split.
  - split.
    + intros Hunmarked. eapply unmarked_no_partner; eauto.
    + intros Hnone.
      destruct (nth idx (marked (mergeAdjacent groups)) false) eqn:Hmark;
        [exfalso|reflexivity].
      destruct (mergeAdjacent_partner groups Hk idx Hmark)
        as (a' & b & Ha' & Hb & Hm).
      rewrite Hidx in Ha'. injection Ha' as <-.
      rewrite (Hnone b Hb) in Hm. discriminate.
  - intros Hunmarked primes. apply collectUnmarked_In. right.
    exists idx, a. auto.
Qed.

Lemma prime_iff_unmerged_witness :
  (nth 0 (marked (mergeAdjacent
            [(1, [Implicant.of_term 1 2; Implicant.of_term 2 2])])) false
   = false <->
   forall b,
     In b (flatten [(1, [Implicant.of_term 1 2; Implicant.of_term 2 2])]) ->
     Implicant.canMerge (Implicant.of_term 1 2) b = false) /\
  (nth 0 (marked (mergeAdjacent
            [(1, [Implicant.of_term 1 2; Implicant.of_term 2 2])])) false
   = false ->
   forall primeImplicants,
     In (setPrime (Implicant.of_term 1 2))
        (collectUnmarked
           (marked (mergeAdjacent
                      [(1, [Implicant.of_term 1 2; Implicant.of_term 2 2])]))
           [(1, [Implicant.of_term 1 2; Implicant.of_term 2 2])] 0
           primeImplicants)).
Proof.
  apply (prime_iff_unmerged 2 [1; 2] 1
           [(1, [Implicant.of_term 1 2; Implicant.of_term 2 2])] 0
           (Implicant.of_term 1 2)).
  - lia.
  - unfold inRange. repeat (constructor; try lia).
  - vm_compute. reflexivity.
  - reflexivity.
Defined.

(** ** The minterm lists *)

Lemma covers_loop_exclusive (pre suf : string) :
  forall tb,
    Implicant.covers_loop (pre +++ String "0" suf) tb = true ->
    Implicant.covers_loop (pre +++ String "1" suf) tb = true -> False.
Proof.
  induction pre as [|x pre IH]; intros tb H0 H1;
    cbn [String.append Implicant.covers_loop] in H0, H1.
  - change (Ascii.eqb "0" "-") with false in H0.
    change (Ascii.eqb "1" "-") with false in H1.
    destruct (Ascii.eqb "0" (Implicant.head tb)) eqn:E0;
      [|cbn [negb andb] in H0; discriminate].
    destruct (Ascii.eqb "1" (Implicant.head tb)) eqn:E1;
      [|cbn [negb andb] in H1; discriminate].
    apply ascii_eqb_true in E0, E1. congruence.
  - destruct (negb (Ascii.eqb x "-") && _); [discriminate|]. eauto.
Qed.

Lemma sorted_le_NoDup_lt (l : list Z) :
  StronglySorted (notAfter Z.ltb) l -> NoDup l -> StronglySorted Z.lt l.
Proof.
  induction 1 as [|x l Hs IH Hall]; intros Hnd; constructor.
  - apply IH. inversion Hnd; assumption.
  - inversion Hnd as [|? ? Hnot _]; subst.
    apply Forall_forall. intros y Hy.
    eapply Forall_forall in Hall; eauto. unfold notAfter in Hall.
    apply Z.ltb_ge in Hall.
    assert (x <> y) by (intros ->; contradiction). lia.
Qed.

Lemma sorted_lt_NoDup (l : list Z) : StronglySorted Z.lt l -> NoDup l.
Proof.
  induction 1 as [|x l Hs IH Hall]; constructor; auto.
  intros Hin. eapply Forall_forall in Hall; eauto. lia.
Qed.

Lemma sorted_lt_filter (f : Z -> bool) (l : list Z) :
  StronglySorted Z.lt l -> StronglySorted Z.lt (filter f l).
Proof.
  induction 1 as [|x l Hs IH Hall]; simpl; [constructor|].
  destruct (f x); auto. constructor; auto.
  apply Forall_forall. intros y Hy. apply filter_In in Hy.
  eapply Forall_forall in Hall; [exact Hall|tauto].
Qed.

(** Two strictly ascending lists with the same members are the same list. *)
Lemma sorted_lt_ext (l1 : list Z) :
  forall l2,
    StronglySorted Z.lt l1 -> StronglySorted Z.lt l2 ->
    (forall x, In x l1 <-> In x l2) -> l1 = l2.
Proof.
  induction l1 as [|a l1 IH]; intros l2 H1 H2 Hext.
  - destruct l2 as [|b l2]; auto.
    exfalso. apply (Hext b). simpl. auto.
  - destruct l2 as [|b l2].
    { exfalso. apply (Hext a). simpl. auto. }
    inversion H1 as [|? ? Hs1 Hall1]; subst.
    inversion H2 as [|? ? Hs2 Hall2]; subst.
    rewrite Forall_forall in Hall1, Hall2.
    assert (a = b).
    { destruct (proj1 (Hext a) (or_introl eq_refl)) as [E|Hin]; auto.
      destruct (proj2 (Hext b) (or_introl eq_refl)) as [E|Hin']; auto.
      specialize (Hall1 _ Hin'). specialize (Hall2 _ Hin). lia. }
    subst b. f_equal. apply IH; auto.
    intros x. split; intros Hx.
    + destruct (proj1 (Hext x) (or_intror Hx)) as [E|Hin]; auto.
      subst x. specialize (Hall1 _ Hx). lia.
    + destruct (proj2 (Hext x) (or_intror Hx)) as [E|Hin]; auto.
      subst x. specialize (Hall2 _ Hx). lia.
Qed.

Lemma merged_minterms_sorted (numVars : Z) (terms : list Z) (d : nat)
    (a b : Implicant.t) :
  goodImplicant numVars terms d a -> goodImplicant numVars terms d b ->
  Implicant.canMerge a b = true ->
  StronglySorted Z.lt (Implicant.minterms a) ->
  StronglySorted Z.lt (Implicant.minterms b) ->
  StronglySorted Z.lt (Implicant.minterms (Implicant.merged a b)).
Proof.
  intros Ga Gb Hm Ha Hb. simpl.
  apply sorted_le_NoDup_lt.
  - apply std_sort_sorted_le.
    + intros x y H. apply Z.ltb_lt in H. apply Z.ltb_ge. lia.
    + intros x y z H1 H2. apply Z.ltb_ge in H1, H2. apply Z.ltb_ge. lia.
  - eapply Permutation_NoDup; [symmetry; apply std_sort_perm|].
    apply NoDup_app; auto using sorted_lt_NoDup.
    intros t Hta Htb.
    apply (good_minterms _ _ _ _ Ga) in Hta.
    apply (good_minterms _ _ _ _ Gb) in Htb.
    destruct Hta as [_ Hca]. destruct Htb as [_ Hcb].
    destruct (canMerge_bits numVars terms d a b Ga Gb Hm)
      as (pre & ca & cb & suf & Ea & Eb & Hc).
    unfold Implicant.covers in Hca, Hcb. rewrite Ea in Hca. rewrite Eb in Hcb.
    destruct Hc as [[-> ->]|[-> ->]];
      eapply covers_loop_exclusive; eauto.
Qed.

Lemma round_minterms (numVars : Z) (terms : list Z) :
  0 <= numVars -> Forall (inRange numVars) terms ->
  forall round groups,
    roundGroups numVars terms round = Some groups ->
    forall imp, In imp (flatten groups) ->
      StronglySorted Z.lt (Implicant.minterms imp) /\
      length (Implicant.minterms imp) = (2 ^ (round - 1))%nat.
Proof.
  intros Hn Hr round.
  induction round as [|r IH]; intros groups H imp Himp; [discriminate|].
  destruct r as [|r].
  - simpl in H. destruct (isEmpty terms); [discriminate|].
    injection H as <-.
    apply flatten_entries in Himp. destruct Himp as [k Himp].
    apply initialGroups_entries_from in Himp.
    destruct Himp as [[]|(t & _ & -> & _)]. simpl.
    split; [repeat constructor|reflexivity].
  - rewrite roundGroups_succ in H.
    destruct (roundGroups numVars terms (S r)) as [g|] eqn:Eg; [|discriminate].
    destruct (changed (mergeAdjacent g)); [|discriminate].
    injection H as <-.
    destruct (roundGroups_good numVars terms Hn Hr (S r) g Eg) as [G _].
    pose proof (mergeAdjacent_inv g (proj1 G)) as I.
    apply flatten_entries in Himp. destruct Himp as [k Himp].
    destruct (inv_origin _ _ I k imp Himp) as (_ & a & b & Ha & Hb & Hm & ->).
    destruct (IH g eq_refl a Ha) as [Sa La].
    destruct (IH g eq_refl b Hb) as [Sb Lb].
    split.
    + eapply merged_minterms_sorted; eauto using goodGroups_flatten.
    + simpl Implicant.minterms. rewrite std_sort_length, length_app, La, Lb.
      replace (S (S r) - 1)%nat with (S (S r - 1))%nat by lia.
      rewrite Nat.pow_succ_r'. lia.
Qed.

(** X15: the minterm list of an implicant, as a list.  When the input terms
    are in strictly ascending order (as [minimize] passes them), every
    implicant of round [k] lists the input terms its pattern covers, in the
    order of the input and each once, and there are [2^(k-1)] of them. *)
Theorem minterm_list (numVars : Z) (terms : list Z) (round : nat)
    (groups : Groups) (key : Z) (group : list Implicant.t) (imp : Implicant.t) :
  0 <= numVars ->
  Forall (inRange numVars) terms ->
  StronglySorted Z.lt terms ->
  roundGroups numVars terms round = Some groups ->
  In (key, group) groups ->
  In imp group ->
  Implicant.minterms imp
  = filter (fun t => Implicant.covers imp t numVars) terms /\
  length (Implicant.minterms imp) = (2 ^ (round - 1))%nat.
Proof.
  intros Hn Hr Hs Hround Hg Hi.
  assert (Hflat : In imp (flatten groups)).
  { apply flatten_entries. exists key. apply entries_groups. eauto. }
  destruct (round_minterms numVars terms Hn Hr round groups Hround imp Hflat)
    as [Hsorted Hlen].
  split; [|exact Hlen].
  destruct (roundGroups_good numVars terms Hn Hr round groups Hround) as [G _].
  pose proof (goodGroups_flatten numVars terms _ groups imp G Hflat) as Gi.
  apply sorted_lt_ext; auto using sorted_lt_filter.
  intros t. rewrite (good_minterms _ _ _ _ Gi), filter_In. tauto.
Qed.

Lemma minterm_list_witness :
  Implicant.minterms (Implicant.mk [1; 3] "-1" true false)
  = filter (fun t => Implicant.covers (Implicant.mk [1; 3] "-1" true false) t 2)
           [0; 1; 2; 3] /\
  length (Implicant.minterms (Implicant.mk [1; 3] "-1" true false))
  = (2 ^ (2 - 1))%nat.
Proof.
  apply (minterm_list 2 [0; 1; 2; 3] 2
           [(0, [Implicant.mk [0; 1] "0-" true false;
                 Implicant.mk [0; 2] "-0" true false]);
            (1, [Implicant.mk [1; 3] "-1" true false;
                 Implicant.mk [2; 3] "1-" true false])]
           1
           [Implicant.mk [1; 3] "-1" true false;
            Implicant.mk [2; 3] "1-" true false]).
  - lia.
  - unfold inRange. repeat (constructor; try lia).
  - repeat (constructor; try lia).
  - vm_compute. reflexivity.
  - simpl. auto.
  - simpl. auto.
Defined.

(** ** Don't-care terms as a set *)

(** X16: [minimize] reads its don't-care terms as a set.  Two objects that
    differ only in the order and the repetitions of their (in-range)
    don't-care terms have the same outcome. *)
Theorem dontcares_as_set (fuel : nat) (q q' : QuineMcCluskey) :
  numVars q' = numVars q ->
  minterms q' = minterms q ->
  varNames q' = varNames q ->
  Forall (inRange (numVars q)) (dontcares q) ->
  (forall t, In t (dontcares q') <-> In t (dontcares q)) ->
  fst (minimize fuel q') = fst (minimize fuel q).
Proof.
  intros En Em Ev Hd Hsame.
  assert (Hd' : Forall (inRange (numVars q)) (dontcares q')).
  { rewrite Forall_forall in *. intros t Ht. apply Hd, Hsame, Ht. }
  assert (Hall : allTermsOf (minterms q) (dontcares q')
                 = allTermsOf (minterms q) (dontcares q)).
  { apply sorted_lt_ext; auto using allTermsOf_strict.
    intros t. rewrite !allTermsOf_In, Hsame. tauto. }
  assert (Hcover : minimalCover fuel q' = minimalCover fuel q).
  { unfold minimalCover. rewrite En, Em, Hall. reflexivity. }
  unfold minimize. rewrite En, Em, Ev, Hcover.
  destruct (Z.gtb_spec (numVars q) 8) as [Hgt|Hle]; [reflexivity|].
  destruct (Z.ltb_spec (numVars q) 0) as [Hlt|Hge]; [reflexivity|].
  rewrite maxTerm_pow by lia.
  destruct (firstOutOfRange _ (minterms q)); [reflexivity|].
  apply firstOutOfRange_None in Hd, Hd'. rewrite Hd, Hd'.
  destruct (minimalCover fuel q); reflexivity.
Qed.

Lemma dontcares_as_set_witness :
  fst (minimize 4 (construct 3 [0; 2; 4; 6] [5; 1; 5]))
  = fst (minimize 4 (construct 3 [0; 2; 4; 6] [1; 5])).
Proof.
  apply (dontcares_as_set 4 (construct 3 [0; 2; 4; 6] [1; 5])
           (construct 3 [0; 2; 4; 6] [5; 1; 5])); try reflexivity.
  - unfold inRange. simpl. repeat (constructor; try lia).
  - intros t. simpl. tauto.
Defined.

(** ** The size of the cover *)

Lemma set_insert_sorted (x : Z) (s : list Z) :
  StronglySorted Z.lt s -> StronglySorted Z.lt (set_insert x s).
Proof.
  induction 1 as [|y s Hs IH Hall]; simpl.
  - repeat constructor.
  - destruct (Z.ltb_spec x y).
    + constructor; [constructor; auto|].
      constructor; auto. eapply Forall_impl; [|exact Hall]. simpl. intros; lia.
    + destruct (Z.eqb_spec x y).
      * constructor; auto.
      * constructor; auto. apply Forall_forall. intros z Hz.
        apply set_insert_In in Hz. destruct Hz as [->|Hz]; [lia|].
        eapply Forall_forall in Hall; eauto.
Qed.

Lemma insert_if_sorted (f : Z -> bool) (l : list Z) :
  forall acc, StronglySorted Z.lt acc ->
    StronglySorted Z.lt
      (fold_left (fun s x => if f x then set_insert x s else s) l acc).
Proof.
  induction l as [|x l IH]; simpl; intros acc H; auto.
  apply IH. destruct (f x); auto using set_insert_sorted.
Qed.

(** Distinct essential primes are made essential by distinct minterms. *)
Lemma essential_witnesses (numVars : Z) (minterms : list Z)
    (primes : list Implicant.t) (l : list Implicant.t) :
  NoDup (map Implicant.binary l) ->
  (forall e, In e l -> exists m, In m minterms /\
                                 madeEssentialBy numVars primes e m) ->
  exists W,
    length W = length l /\ NoDup W /\
    forall m, In m W ->
      In m minterms /\ exists e, In e l /\ madeEssentialBy numVars primes e m.
Proof.
  induction l as [|e l IH]; simpl; intros Hnd Hall.
  - exists []. split; [reflexivity|]. split; [constructor|]. intros m [].
  - inversion Hnd as [|? ? Hnot Hnd']; subst.
    destruct IH as (W & HlenW & HndW & HW); auto.
    destruct (Hall e (or_introl eq_refl)) as (m & Hm & Hme).
    exists (m :: W). split; [simpl; congruence|]. split.
    + constructor; auto. intros Hin.
      destruct (HW m Hin) as (_ & e' & He' & Hme').
      destruct Hme as (p & -> & Ep). destruct Hme' as (p' & -> & Ep').
      apply Hnot. apply in_map_iff. exists (setEssential p').
      split; auto. simpl. congruence.
    + intros x [<-|Hx].
      * split; auto. exists e. auto.
      * destruct (HW x Hx) as (H1 & e' & He' & H2). split; auto.
        exists e'. auto.
Qed.

Lemma madeEssentialBy_covers (numVars : Z) (primes : list Implicant.t)
    (e : Implicant.t) (m : Z) :
  madeEssentialBy numVars primes e m -> Implicant.covers e m numVars = true.
Proof.
  intros (p & -> & Ep).
  assert (Hin : In p (filter (fun imp => Implicant.covers imp m numVars) primes))
    by (rewrite Ep; simpl; auto).
  apply filter_In in Hin. destruct Hin as [_ Hc]. exact Hc.
Qed.

(** X17: on a valid problem instance the final cover never has more
    implicants than there are distinct minterms, so the text never has more
    product terms than the function has minterms. *)
Theorem cover_size_bound (fuel : nat) (q : QuineMcCluskey)
    (cover : list Implicant.t) :
  valid q ->
  minimalCover fuel q = Some cover ->
  (length cover <= length (nodup Z.eq_dec (minterms q)))%nat.
Proof.
  intros Hv Hc. pose proof (valid_parts q Hv) as (Hn & Hm & Hd).
  unfold minimalCover in Hc.
  destruct (findPrimeImplicants fuel _ _) as [primes|] eqn:Ep; [|discriminate].
  set (ess := findEssentialPrimes (numVars q) (minterms q) primes) in *.
  assert (Hcovered : forall m, In m (minterms q) ->
            exists p, In p primes /\ Implicant.covers p m (numVars q) = true).
  { intros m Hin.
    destruct (findPrimeImplicants_spec (S (Z.to_nat (numVars q))) (numVars q)
                (allTermsOf (minterms q) (dontcares q)) (proj1 Hn)
                (allTermsOf_inRange _ _ _ Hm Hd) (Nat.lt_succ_diag_r _))
      as (primes' & Hp' & _ & Hcov).
    assert (E : primes' = primes).
    { pose proof (findPrimeImplicants_more_fuel _
                    (Nat.max fuel (S (Z.to_nat (numVars q)))) _ _ _ Ep
                    (Nat.le_max_l _ _)) as E1.
      pose proof (findPrimeImplicants_more_fuel _
                    (Nat.max fuel (S (Z.to_nat (numVars q)))) _ _ _ Hp'
                    (Nat.le_max_r _ _)) as E2.
      congruence. }
    subst primes'. apply Hcov, allTermsOf_In. auto. }
  destruct (findEssentialPrimes_inv (numVars q) (minterms q) primes)
    as [Hnd Hess]. fold ess in Hnd, Hess.
  destruct (essential_witnesses (numVars q) (minterms q) primes ess Hnd)
    as (W & HlenW & HndW & HW).
  { intros e He. destruct (Hess e He) as (_ & p & m & _ & Hin & E & Ef).
    exists m. split; auto. exists p. auto. }
  unfold findMinimalCover in Hc.
  set (f := fun x => negb (coveredBy (numVars q) ess x)) in *.
  set (U := fold_left _ (minterms q) []) in *.
  assert (HU : forall m, In m U <-> In m (minterms q) /\ f m = true).
  { intros m.
    assert (Hi : In m U <-> In m [] \/ (In m (minterms q) /\ f m = true))
      by exact (insert_if_In f (minterms q) [] m).
    simpl in Hi. tauto. }
  assert (HndU : NoDup U).
  { apply sorted_lt_NoDup. exact (insert_if_sorted f (minterms q) [] (SSorted_nil _)). }
  assert (Hbound : (length ess + length U
                    <= length (nodup Z.eq_dec (minterms q)))%nat).
  { rewrite <- HlenW, <- length_app.
    apply NoDup_incl_length.
    - apply NoDup_app; auto.
      intros m HmW HmU. destruct (HW m HmW) as (_ & e & He & Hme).
      apply HU in HmU. destruct HmU as [_ Hf]. unfold f in Hf.
      apply negb_true_iff in Hf.
      assert (Ht : coveredBy (numVars q) ess m = true).
      { apply coveredBy_true. exists e. split; auto.
        eapply madeEssentialBy_covers; eauto. }
      congruence.
    - intros m Hin. apply nodup_In. apply in_app_or in Hin.
      destruct Hin as [Hin|Hin].
      + apply (HW m Hin).
      + apply HU in Hin. tauto. }
  destruct (isEmpty U) eqn:EU.
  { injection Hc as <-. lia. }
  set (rem := filter _ primes) in *.
  destruct (greedyLoop fuel _ U rem ess) as [r|] eqn:Er; [|discriminate].
  injection Hc as <-. rewrite std_sort_length.
  destruct (greedy_picks (numVars q) (length U) U rem ess (Nat.le_refl _))
    as (r' & Hr' & Hsize & _).
  { intros m Hin. destruct (proj1 (HU m) Hin) as [Hmin Hf].
    destruct (Hcovered m Hmin) as (p & Hp & Hpm).
    exists p. split; auto. apply filter_In. split; auto.
    destruct (hasBinary (Implicant.binary p) ess) eqn:Eh; auto.
    exfalso. apply hasBinary_true in Eh. destruct Eh as (e & He & Eb).
    unfold f in Hf. apply negb_true_iff in Hf.
    assert (Ht : coveredBy (numVars q) ess m = true).
    { apply coveredBy_true. exists e. split; auto.
      rewrite (covers_binary e p); auto. }
    congruence. }
  assert (E : r' = r).
  { pose proof (greedyLoop_more_fuel _ _ (Nat.max fuel (length U)) _ _ _ _ Er
                  (Nat.le_max_l _ _)) as E1.
    pose proof (greedyLoop_more_fuel _ _ (Nat.max fuel (length U)) _ _ _ _ Hr'
                  (Nat.le_max_r _ _)) as E2.
    congruence. }
  subst r'. lia.
Qed.

Lemma cover_size_bound_witness :
  le (length [Implicant.mk [1; 5] "-01" true false;
              Implicant.mk [2; 6] "-10" true false;
              Implicant.mk [0; 2] "0-0" true false;
              Implicant.mk [5; 7] "1-1" true false])
     (length (nodup Z.eq_dec (minterms (construct 3 [0; 1; 2; 5; 6; 7] [])))).
Proof.
  apply (cover_size_bound 4 (construct 3 [0; 1; 2; 5; 6; 7] [])).
  - solve_valid.
  - vm_compute. reflexivity.
Defined.

(** ** The prime implicants of the function *)

Lemma intToBinary_from_ext (k : nat) (t t' : Z) :
  (forall i, (i < k)%nat ->
             Z.testbit t (Z.of_nat i) = Z.testbit t' (Z.of_nat i)) ->
  intToBinary_from t k = intToBinary_from t' k.
Proof.
  induction k as [|k IH]; intros H; cbn [intToBinary_from]; [reflexivity|].
  rewrite !bitChar_testbit, (H k) by lia. f_equal.
  apply IH. intros i Hi. apply H. lia.
Qed.

(** Every string of binary digits is the numeral of a term. *)
Lemma binaryString_numeral (s : string) :
  binaryString s = true ->
  exists t, 0 <= t < 2 ^ Z.of_nat (String.length s) /\
            intToBinary_from t (String.length s) = s.
Proof.
  induction s as [|c s IH]; cbn [binaryString String.length intToBinary_from].
  - intros _. exists 0. split; [simpl; lia|reflexivity].
  - intros H. apply andb_true_iff in H. destruct H as [Hc Hs].
    destruct (IH Hs) as (t & Ht & E).
    set (k := String.length s) in *.
    assert (Hpow : 0 < 2 ^ Z.of_nat k) by (apply Z.pow_pos_nonneg; lia).
    rewrite Nat2Z.inj_succ, Z.pow_succ_r by lia.
    destruct (isBit_cases c Hc) as [-> | ->].
    + exists t. split; [lia|]. rewrite E. f_equal.
      rewrite bitChar_mod2, Z.div_small by lia. reflexivity.
    + exists (t + 1 * 2 ^ Z.of_nat k). split; [lia|]. f_equal.
      * rewrite bitChar_mod2, Z.div_add, Z.div_small by lia. reflexivity.
      * transitivity (intToBinary_from t k); [|exact E].
        apply intToBinary_from_ext. intros i Hi.
        rewrite <- (Z.mod_pow2_bits_low (t + 1 * 2 ^ Z.of_nat k) (Z.of_nat k))
          by lia.
        rewrite Z.mod_add by lia.
        apply Z.mod_pow2_bits_low. lia.
Qed.

Lemma ternary_binaryString (s : string) :
  ternary s = true -> dashes s = 0%nat -> binaryString s = true.
Proof.
  induction s as [|c s IH]; cbn [ternary dashes binaryString]; auto.
  intros H Hd. apply andb_true_iff in H. destruct H as [Hc Hs].
  destruct (isSymbol_cases c Hc) as [->|[->| ->]];
    cbn in Hd |- *; try (apply IH; auto; lia). discriminate.
Qed.

Lemma dash_split (s : string) :
  (0 < dashes s)%nat -> exists pre suf, s = pre +++ String "-" suf.
Proof.
  induction s as [|c s IH]; cbn [dashes]; [lia|].
  destruct (Ascii.eqb c "-") eqn:E.
  - apply ascii_eqb_true in E. subst c. intros _.
    exists EmptyString, s. reflexivity.
  - intros H. destruct IH as (pre & suf & ->); [lia|].
    exists (String c pre), suf. reflexivity.
Qed.

Lemma append_inv_head (pre x y : string) : pre +++ x = pre +++ y -> x = y.
Proof.
  induction pre as [|c pre IH]; simpl; auto. intros H. injection H. auto.
Qed.

(** Two patterns that differ at one position only pass [canMerge]. *)
Lemma canMerge_differ (a b : Implicant.t) (pre suf : string) (ca cb : ascii) :
  Implicant.binary a = pre +++ String ca suf ->
  Implicant.binary b = pre +++ String cb suf ->
  ca <> cb ->
  Implicant.canMerge a b = true.
Proof.
  intros Ea Eb Hne. unfold Implicant.canMerge. rewrite Ea, Eb.
  rewrite !append_length. cbn [String.length]. rewrite Nat.eqb_refl.
  cbn [negb]. apply ascii_eqb_false in Hne. clear Ea Eb.
  induction pre as [|c pre IH];
    cbn [String.append Implicant.canMerge_loop Implicant.head Implicant.tail].
  - rewrite Hne. cbn [negb]. change (0 + 1) with 1.
    change (1 >? 1) with false. cbv iota.
    rewrite canMerge_loop_same. reflexivity.
  - rewrite Ascii.eqb_refl. cbn [negb]. exact IH.
Qed.

Lemma covers_loop_refl (s : string) : Implicant.covers_loop s s = true.
Proof.
  induction s as [|c s IH];
    cbn [Implicant.covers_loop Implicant.head Implicant.tail]; auto.
  rewrite Ascii.eqb_refl. cbn [negb]. rewrite andb_false_r. exact IH.
Qed.

Lemma covers_loop_trans (s' : string) :
  forall s tb,
    String.length s' = String.length s ->
    Implicant.covers_loop s' s = true ->
    Implicant.covers_loop s tb = true ->
    Implicant.covers_loop s' tb = true.
Proof.
  induction s' as [|a s' IH]; intros [|b s] tb; cbn [String.length];
    try discriminate; auto.
  intros Hl. injection Hl as Hl.
  cbn [Implicant.covers_loop Implicant.head Implicant.tail].
  destruct (Ascii.eqb a "-") eqn:Ea; cbn [negb andb].
  - intros H1 H2. apply (IH s); auto.
    destruct (negb (Ascii.eqb b "-") && _); [discriminate|exact H2].
  - destruct (Ascii.eqb a b) eqn:Eab; cbn [negb]; [|discriminate].
    apply ascii_eqb_true in Eab. subst b. rewrite Ea. cbn [negb andb].
    intros H1 H2.
    destruct (Ascii.eqb a (Implicant.head tb)); cbn [negb] in *;
      [|discriminate].
    apply (IH s); auto.
Qed.

(** A pattern subsumed by a different one has a literal that can be
    dropped within the other. *)
Lemma subsumed_literal (s' : string) :
  forall s,
    String.length s' = String.length s ->
    Implicant.covers_loop s' s = true -> s' <> s ->
    exists pre c suf,
      s = pre +++ String c suf /\ c <> "-"%char /\
      forall tb, Implicant.covers_loop (pre +++ String "-" suf) tb = true ->
                 Implicant.covers_loop s' tb = true.
Proof.
  induction s' as [|a s' IH]; intros [|b s]; cbn [String.length];
    try discriminate.
  - intros _ _ H. exfalso. apply H. reflexivity.
  - intros Hl. injection Hl as Hl.
    cbn [Implicant.covers_loop Implicant.head Implicant.tail].
    destruct (Ascii.eqb a b) eqn:Eab.
    + apply ascii_eqb_true in Eab. subst b.
      rewrite andb_false_r. intros H Hne.
      destruct (IH s Hl H) as (pre & c & suf & -> & Hc & Hsub).
      { intros E. apply Hne. rewrite E. reflexivity. }
      exists (String a pre), c, suf. split; [reflexivity|]. split; [exact Hc|].
      intros tb.
      cbn [String.append Implicant.covers_loop Implicant.head Implicant.tail].
      destruct (negb (Ascii.eqb a "-") && _); [discriminate|]. apply Hsub.
    + destruct (Ascii.eqb a "-") eqn:Ea; cbn [negb andb]; [|discriminate].
      apply ascii_eqb_true in Ea. subst a. intros H _.
      exists EmptyString, b, s. split; [reflexivity|]. split.
      * intros E. subst b. discriminate.
      * intros tb.
        cbn [String.append Implicant.covers_loop Implicant.head
             Implicant.tail].
        change (Ascii.eqb "-" "-") with true. cbn [negb andb].
        intros H2. eapply covers_loop_trans; eauto.
Qed.

Lemma good_implicantOf (numVars : Z) (terms : list Z) (d : nat)
    (a : Implicant.t) :
  goodImplicant numVars terms d a ->
  implicantOf numVars terms (Implicant.binary a).
Proof.
  intros G. split; [apply (good_length _ _ _ _ G)|].
  split; [apply (good_ternary _ _ _ _ G)|].
  intros t Ht Hc. apply (good_sound _ _ _ _ G t Ht). exact Hc.
Qed.

Lemma roundGroups_earlier (numVars : Z) (terms : list Z) (k : nat) :
  forall r groups,
    roundGroups numVars terms (S (k + r)) = Some groups ->
    exists groups', roundGroups numVars terms (S r) = Some groups'.
Proof.
  induction k as [|k IH]; intros r groups H; [eauto|].
  change (S (S k + r)) with (S (S (k + r))) in H.
  rewrite roundGroups_succ in H.
  destruct (roundGroups numVars terms (S (k + r))) as [g|] eqn:E;
    [|discriminate].
  apply (IH r g E).
Qed.

(** Every implicant of the function is in the map of the round of its
    number of dashes. *)
Lemma cube_in_round (numVars : Z) (terms : list Z) :
  0 <= numVars ->
  Forall (inRange numVars) terms ->
  forall d s,
    implicantOf numVars terms s -> dashes s = d ->
    exists groups a,
      roundGroups numVars terms (S d) = Some groups /\
      In a (flatten groups) /\ Implicant.binary a = s.
Proof.
  intros Hn Hr. induction d as [|d IH]; intros s (Hl & Ht & Hs) Hd.
  - pose proof (ternary_binaryString s Ht Hd) as Hb.
    destruct (binaryString_numeral s Hb) as (t & Hrange & E).
    rewrite Hl in Hrange, E. rewrite Z2Nat.id in Hrange by lia.
    assert (Hin : In t terms).
    { apply Hs; [unfold inRange; lia|].
      unfold intToBinary. rewrite E. apply covers_loop_refl. }
    exists (initialGroups numVars terms), (Implicant.of_term t numVars).
    split; [|split].
    + cbn [roundGroups]. destruct terms; [destruct Hin|reflexivity].
    + apply initialGroups_entries; auto.
    + exact E.
  - destruct (dash_split s ltac:(lia)) as (pre & suf & ->).
    rewrite append_length in Hl. cbn [String.length] in Hl.
    rewrite ternary_append in Ht. cbn [ternary] in Ht.
    apply andb_true_iff in Ht. destruct Ht as [Tpre Tsuf].
    change (isSymbol "-") with true in Tsuf. cbn [andb] in Tsuf.
    rewrite dashes_append in Hd. cbn [dashes] in Hd.
    change (Ascii.eqb "-" "-") with true in Hd. cbv iota in Hd.
    assert (Hsub : forall c, isBit c = true ->
              implicantOf numVars terms (pre +++ String c suf) /\
              dashes (pre +++ String c suf) = d).
    { intros c Hc. split; [split; [|split]|].
      - rewrite append_length. exact Hl.
      - rewrite ternary_append. cbn [ternary]. rewrite Tpre, Tsuf.
        destruct (isBit_cases c Hc) as [-> | ->]; reflexivity.
      - intros t Hrange H. apply (Hs t Hrange).
        eapply covers_loop_widen; eauto.
      - rewrite dashes_append. cbn [dashes].
        destruct (isBit_cases c Hc) as [-> | ->];
          change (Ascii.eqb _ "-") with false; cbv iota; lia. }
    destruct (Hsub "0"%char eq_refl) as [I0 D0].
    destruct (Hsub "1"%char eq_refl) as [I1 D1].
    destruct (IH _ I0 D0) as (groups & a0 & Hround & Ha0 & E0).
    destruct (IH _ I1 D1) as (groups' & a1 & Hround' & Ha1 & E1).
    rewrite Hround in Hround'. injection Hround' as <-.
    destruct (roundGroups_good numVars terms Hn Hr _ groups Hround)
      as [[Hk Hgood] _].
    apply flatten_entries in Ha0. destruct Ha0 as [k0 Ha0].
    apply flatten_entries in Ha1. destruct Ha1 as [k1 Ha1].
    destruct (Hgood k0 a0 Ha0) as [Hk0 _].
    destruct (Hgood k1 a1 Ha1) as [Hk1 _].
    assert (Ek : k1 = k0 + 1).
    { rewrite Hk0, Hk1. unfold Implicant.countOnes. rewrite E0, E1.
      rewrite !countOnes_append. cbn [Implicant.countOnes_str].
      change (Ascii.eqb "1" "1") with true.
      change (Ascii.eqb "0" "1") with false. cbv iota. lia. }
    clear Hk1. subst k1.
    apply entries_groups in Ha0. destruct Ha0 as (g0 & Hg0 & Hin0).
    apply entries_groups in Ha1. destruct Ha1 as (g1 & Hg1 & Hin1).
    assert (Hm : Implicant.canMerge a0 a1 = true)
      by (eapply canMerge_differ; eauto; discriminate).
    destruct (merge_enters_next_round numVars terms (S d) groups k0 g0 g1
                a0 a1 Hn Hr Hround Hg0 Hg1 Hin0 Hin1 Hm) as [Hin Hch].
    exists (newGroups (mergeAdjacent groups)), (Implicant.merged a0 a1).
    split; [|split].
    + rewrite roundGroups_succ, Hround, Hch. reflexivity.
    + apply flatten_entries. eauto.
    + cbn [Implicant.merged Implicant.binary]. rewrite E0, E1.
      apply mergeBinary_split. discriminate.
Qed.

(** Every implicant that the loop appends to [primeImplicants] is an
    unmarked implicant of some round. *)
Lemma primeLoop_origin (numVars : Z) (terms : list Z) (fuel : nat) :
  forall r groups primes result,
    roundGroups numVars terms (S r) = Some groups ->
    primeLoop fuel groups primes = Some result ->
    forall x, In x result ->
      In x primes \/
      exists r' groups' idx a,
        roundGroups numVars terms (S r') = Some groups' /\
        nth_error (flatten groups') idx = Some a /\
        nth idx (marked (mergeAdjacent groups')) false = false /\
        x = setPrime a.
Proof.
  induction fuel as [|fuel IH]; intros r groups primes result Hround H x Hx;
    [discriminate|].
  rewrite (primeLoop_round numVars terms r fuel groups primes Hround) in H.
  assert (Hhere : forall y,
            In y (collectUnmarked (marked (mergeAdjacent groups)) groups 0
                    primes) ->
            In y primes \/
            exists r' groups' idx a,
              roundGroups numVars terms (S r') = Some groups' /\
              nth_error (flatten groups') idx = Some a /\
              nth idx (marked (mergeAdjacent groups')) false = false /\
              y = setPrime a).
  { intros y Hy. apply collectUnmarked_In in Hy.
    destruct Hy as [Hy|(j & a & Ha & Hm & ->)]; [left; exact Hy|].
    right. exists r, groups, j, a. auto. }
  destruct (roundGroups numVars terms (S (S r))) as [groups'|] eqn:E.
  - destruct (IH (S r) groups' _ result E H x Hx) as [Hy|Hy].
    + apply Hhere. exact Hy.
    + right. exact Hy.
  - injection H as <-. apply Hhere. exact Hx.
Qed.

Lemma primeLoop_keeps (fuel : nat) :
  forall groups primes result,
    primeLoop fuel groups primes = Some result ->
    forall x, In x primes -> In x result.
Proof.
  induction fuel as [|fuel IH]; intros groups primes result H x Hx;
    [discriminate|].
  cbn [primeLoop] in H.
  assert (Hin : In x (collectUnmarked (marked (mergeAdjacent groups)) groups 0
                        primes))
    by (apply collectUnmarked_In; auto).
  destruct (changed (mergeAdjacent groups)).
  - eapply IH; eauto.
  - injection H as <-. exact Hin.
Qed.

(** The loop, when it returns, has appended the unmarked implicants of
    every round there is. *)
Lemma primeLoop_reaches (numVars : Z) (terms : list Z) (k : nat) :
  forall fuel r groups primes result groups' idx a,
    roundGroups numVars terms (S r) = Some groups ->
    primeLoop fuel groups primes = Some result ->
    roundGroups numVars terms (S (k + r)) = Some groups' ->
    nth_error (flatten groups') idx = Some a ->
    nth idx (marked (mergeAdjacent groups')) false = false ->
    In (setPrime a) result.
Proof.
  induction k as [|k IH];
    intros fuel r groups primes result groups' idx a Hround H Hround' Ha Hm.
  - cbn [Nat.add] in Hround'. rewrite Hround in Hround'.
    injection Hround' as <-.
    destruct fuel as [|fuel]; [discriminate|].
    rewrite (primeLoop_round numVars terms r fuel groups primes Hround) in H.
    assert (Hin : In (setPrime a)
                     (collectUnmarked (marked (mergeAdjacent groups)) groups 0
                        primes)).
    { apply collectUnmarked_In. right. exists idx, a. auto. }
    destruct (roundGroups numVars terms (S (S r))) as [g|].
    + eapply primeLoop_keeps; eauto.
    + injection H as <-. exact Hin.
  - replace (S (S k + r)) with (S (k + S r)) in Hround' by lia.
    destruct (roundGroups_earlier numVars terms k (S r) groups' Hround')
      as [g2 Hg2].
    destruct fuel as [|fuel]; [discriminate|].
    rewrite (primeLoop_round numVars terms r fuel groups primes Hround), Hg2
      in H.
    eapply (IH fuel (S r)); eauto.
Qed.

(** Every pattern that [findPrimeImplicants] returns is a prime implicant. *)
Lemma findPrimeImplicants_prime (fuel : nat) (numVars : Z) (terms : list Z)
    (primes : list Implicant.t) :
  0 <= numVars ->
  Forall (inRange numVars) terms ->
  findPrimeImplicants fuel numVars terms = Some primes ->
  forall p, In p primes -> primeOf numVars terms (Implicant.binary p).
Proof.
  intros Hn Hr Hp p Hin.
  rewrite findPrimeImplicants_rounds in Hp by assumption.
  destruct (roundGroups numVars terms 1) as [g1|] eqn:E1;
    [|injection Hp as <-; destruct Hin].
  destruct (primeLoop fuel g1 []) as [result|] eqn:EL; [|discriminate].
  injection Hp as <-. apply removeDuplicates_In in Hin.
  destruct (primeLoop_origin numVars terms fuel 0 g1 [] result E1 EL p Hin)
    as [[]|(r & groups & idx & a & Hround & Ha & Hm & ->)].
  cbn [setPrime Implicant.binary].
  destruct (roundGroups_good numVars terms Hn Hr _ groups Hround)
    as [G _]. cbn [pred] in G.
  pose proof (goodGroups_flatten numVars terms r groups a G
                (nth_error_In _ _ Ha)) as Ga.
  split; [eapply good_implicantOf; eauto|].
  intros s' (Hl' & Ht' & Hs') Hsub.
  destruct (string_dec s' (Implicant.binary a)) as [E|Hne]; [exact E|].
  exfalso.
  destruct (subsumed_literal s' (Implicant.binary a)) as
    (pre & c & suf & Ea & Hc & Hwide); auto.
  { rewrite Hl'. symmetry. apply (good_length _ _ _ _ Ga). }
  pose proof (good_length _ _ _ _ Ga) as La.
  pose proof (good_ternary _ _ _ _ Ga) as Ta.
  pose proof (good_dashes _ _ _ _ Ga) as Da.
  rewrite Ea in La, Ta, Da.
  rewrite append_length in La. cbn [String.length] in La.
  rewrite ternary_append in Ta. cbn [ternary] in Ta.
  apply andb_true_iff in Ta. destruct Ta as [Tpre Ta].
  apply andb_true_iff in Ta. destruct Ta as [Tc Tsuf].
  rewrite dashes_append in Da. cbn [dashes] in Da.
  assert (Hflip : exists c', c' <> c /\ isSymbol c' = true /\
                    Ascii.eqb c' "-" = Ascii.eqb c "-").
  { destruct (isSymbol_cases c Tc) as [->|[->| ->]].
    - exists "1"%char. split; [discriminate|]. split; reflexivity.
    - exists "0"%char. split; [discriminate|]. split; reflexivity.
    - exfalso. apply Hc. reflexivity. }
  destruct Hflip as (c' & Hcc & Tc' & Ec').
  destruct (cube_in_round numVars terms Hn Hr r (pre +++ String c' suf))
    as (groups' & b & Hround' & Hb & Eb).
  { split; [|split].
    - rewrite append_length. exact La.
    - rewrite ternary_append. cbn [ternary]. rewrite Tpre, Tc', Tsuf.
      reflexivity.
    - intros t Hrange H. apply (Hs' t Hrange). apply Hwide.
      eapply covers_loop_widen; eauto. }
  { rewrite dashes_append. cbn [dashes]. rewrite Ec'. exact Da. }
  rewrite Hround in Hround'. injection Hround' as <-.
  pose proof (unmarked_no_partner numVars terms (S r) groups idx a Hn Hr
                Hround Ha Hm b Hb) as Hnone.
  rewrite (canMerge_differ a b pre suf c c' Ea Eb) in Hnone;
    [discriminate|]. intros E. apply Hcc. symmetry. exact E.
Qed.

(** Every prime implicant is the pattern of a returned implicant. *)
Lemma findPrimeImplicants_complete (fuel : nat) (numVars : Z) (terms : list Z)
    (primes : list Implicant.t) :
  0 <= numVars ->
  Forall (inRange numVars) terms ->
  findPrimeImplicants fuel numVars terms = Some primes ->
  forall s, primeOf numVars terms s ->
    exists p, In p primes /\ Implicant.binary p = s.
Proof.
  intros Hn Hr Hp s [Himp Hmax].
  rewrite findPrimeImplicants_rounds in Hp by assumption.
  destruct (cube_in_round numVars terms Hn Hr (dashes s) s Himp eq_refl)
    as (groups & a & Hround & Ha & Ea).
  destruct (roundGroups_good numVars terms Hn Hr _ groups Hround)
    as [G _]. cbn [pred] in G.
  pose proof (goodGroups_flatten numVars terms _ groups a G Ha) as Ga.
  destruct (In_nth_error _ _ Ha) as [idx Hidx].
  assert (Hm : nth idx (marked (mergeAdjacent groups)) false = false).
  { destruct (nth idx (marked (mergeAdjacent groups)) false) eqn:Hmark;
      [exfalso|reflexivity].
    destruct (mergeAdjacent_partner groups (proj1 G) idx Hmark)
      as (a' & b & Ha' & Hb & Hcan).
    rewrite Hidx in Ha'. injection Ha' as <-.
    pose proof (goodGroups_flatten numVars terms _ groups b G Hb) as Gb.
    destruct (canMerge_bits numVars terms _ a b Ga Gb Hcan)
      as (pre & ca & cb & suf & Eca & Ecb & Hc).
    assert (Hne : ca <> cb)
      by (destruct Hc as [[-> ->]|[-> ->]]; discriminate).
    pose proof (merged_good numVars terms _ a b Ga Gb Hcan) as Gm.
    apply good_implicantOf in Gm.
    cbn [Implicant.merged Implicant.binary] in Gm.
    rewrite Eca, Ecb, mergeBinary_split in Gm by exact Hne.
    specialize (Hmax _ Gm).
    rewrite <- Ea, Eca in Hmax.
    assert (E : pre +++ String "-" suf = pre +++ String ca suf).
    { apply Hmax. eapply covers_loop_widen. apply covers_loop_refl. }
    apply append_inv_head in E. injection E as E.
    destruct Hc as [[-> _]|[-> _]]; discriminate. }
  destruct (roundGroups_earlier numVars terms (dashes s) 0 groups)
    as [g1 Hg1].
  { rewrite Nat.add_0_r. exact Hround. }
  rewrite Hg1 in Hp.
  destruct (primeLoop fuel g1 []) as [result|] eqn:EL; [|discriminate].
  injection Hp as <-.
  pose proof (primeLoop_reaches numVars terms (dashes s) fuel 0 g1 []
                result groups idx a Hg1 EL) as Hin.
  rewrite Nat.add_0_r in Hin. specialize (Hin Hround Hidx Hm).
  destruct (removeDuplicates_repr result _ Hin) as (y & Hy & E).
  exists y. split; [exact Hy|]. rewrite E. exact Ea.
Qed.

(** X18: [findPrimeImplicants] returns exactly the prime implicants of the
    function that is true on its terms.  A pattern is in the returned list
    if and only if it covers terms of the input only and no other pattern
    with that property subsumes it. *)
Theorem prime_implicants_exact (fuel : nat) (numVars : Z) (terms : list Z)
    (primes : list Implicant.t) :
  0 <= numVars ->
  Forall (inRange numVars) terms ->
  findPrimeImplicants fuel numVars terms = Some primes ->
  forall s,
    (exists p, In p primes /\ Implicant.binary p = s) <->
    primeOf numVars terms s.
Proof.
  intros Hn Hr Hp s. split.
  - intros (p & Hin & <-).
    eapply findPrimeImplicants_prime; eauto.
  - intros Hs. eapply findPrimeImplicants_complete; eauto.
Qed.

Lemma prime_implicants_exact_witness :
  (exists p,
     In p [Implicant.mk [0; 2] "-0" true false;
           Implicant.mk [0; 1] "0-" true false] /\
     Implicant.binary p = "0-"%string) <->
  primeOf 2 [0; 1; 2] "0-".
Proof.
  apply (prime_implicants_exact 2 2 [0; 1; 2]).
  - lia.
  - unfold inRange. repeat (constructor; try lia).
  - vm_compute. reflexivity.
Defined.

(** X19: every product term of the answer is a prime implicant that is of
    use.  On a valid problem instance each implicant of the final cover is
    a prime implicant of the function that is true on the minterms and the
    don't-care terms, and covers at least one minterm. *)
Theorem cover_terms_prime (fuel : nat) (q : QuineMcCluskey)
    (cover : list Implicant.t) :
  valid q ->
  minimalCover fuel q = Some cover ->
  forall c, In c cover ->
    primeOf (numVars q) (allTermsOf (minterms q) (dontcares q))
            (Implicant.binary c) /\
    exists m, In m (minterms q) /\ Implicant.covers c m (numVars q) = true.
Proof.
  intros Hv Hc. pose proof (valid_parts q Hv) as (Hn & Hm & Hd).
  unfold minimalCover in Hc.
  destruct (findPrimeImplicants fuel _ _) as [primes|] eqn:Ep; [|discriminate].
  set (ess := findEssentialPrimes (numVars q) (minterms q) primes) in *.
  pose proof (allTermsOf_inRange _ _ _ Hm Hd) as Hall.
  pose proof (findPrimeImplicants_prime fuel _ _ primes (proj1 Hn) Hall Ep)
    as Hprime.
  assert (Hcovered : forall m, In m (minterms q) ->
            exists p, In p primes /\ Implicant.covers p m (numVars q) = true).
  { intros m Hin.
    destruct (findPrimeImplicants_spec (S (Z.to_nat (numVars q))) (numVars q)
                (allTermsOf (minterms q) (dontcares q)) (proj1 Hn) Hall
                (Nat.lt_succ_diag_r _))
      as (primes' & Hp' & _ & Hcov).
    assert (E : primes' = primes).
    { pose proof (findPrimeImplicants_more_fuel _
                    (Nat.max fuel (S (Z.to_nat (numVars q)))) _ _ _ Ep
                    (Nat.le_max_l _ _)) as E1.
      pose proof (findPrimeImplicants_more_fuel _
                    (Nat.max fuel (S (Z.to_nat (numVars q)))) _ _ _ Hp'
                    (Nat.le_max_r _ _)) as E2.
      congruence. }
    subst primes'. apply Hcov, allTermsOf_In. auto. }
  assert (Hess : forall e, In e ess ->
            primeOf (numVars q) (allTermsOf (minterms q) (dontcares q))
                    (Implicant.binary e) /\
            exists m, In m (minterms q) /\
                      Implicant.covers e m (numVars q) = true).
  { intros e He.
    destruct (findEssentialPrimes_inv (numVars q) (minterms q) primes)
      as [_ H]. destruct (H e He) as (_ & p & m & Hp & Hin & -> & Ef).
    split; [apply (Hprime p Hp)|].
    exists m. split; [exact Hin|].
    eapply madeEssentialBy_covers. exists p. eauto. }
  unfold findMinimalCover in Hc.
  set (f := fun x => negb (coveredBy (numVars q) ess x)) in *.
  set (U := fold_left _ (minterms q) []) in *.
  assert (HU : forall m, In m U <-> In m (minterms q) /\ f m = true).
  { intros m.
    assert (Hi : In m U <-> In m [] \/ (In m (minterms q) /\ f m = true))
      by exact (insert_if_In f (minterms q) [] m).
    simpl in Hi. tauto. }
  destruct (isEmpty U) eqn:EU.
  { injection Hc as <-. exact Hess. }
  set (rem := filter _ primes) in *.
  destruct (greedyLoop fuel _ U rem ess) as [r|] eqn:Er; [|discriminate].
  injection Hc as <-.
  destruct (greedy_picks (numVars q) (length U) U rem ess (Nat.le_refl _))
    as (r' & Hr' & _ & Hfrom).
  { intros m Hin. destruct (proj1 (HU m) Hin) as [Hmin Hf].
    destruct (Hcovered m Hmin) as (p & Hp & Hpm).
    exists p. split; auto. apply filter_In. split; auto.
    destruct (hasBinary (Implicant.binary p) ess) eqn:Eh; auto.
    exfalso. apply hasBinary_true in Eh. destruct Eh as (e & He & Eb).
    unfold f in Hf. apply negb_true_iff in Hf.
    assert (Ht : coveredBy (numVars q) ess m = true).
    { apply coveredBy_true. exists e. split; auto.
      rewrite (covers_binary e p); auto. }
    congruence. }
  assert (E : r' = r).
  { pose proof (greedyLoop_more_fuel _ _ (Nat.max fuel (length U)) _ _ _ _ Er
                  (Nat.le_max_l _ _)) as E1.
    pose proof (greedyLoop_more_fuel _ _ (Nat.max fuel (length U)) _ _ _ _ Hr'
                  (Nat.le_max_r _ _)) as E2.
    congruence. }
  subst r'. intros c Hin. apply std_sort_In in Hin.
  destruct (Hfrom c Hin) as [He|(Hrem & m & HmU & Hcm)]; [exact (Hess c He)|].
  apply filter_In in Hrem. destruct Hrem as [Hp _].
  split; [apply (Hprime c Hp)|].
  exists m. split; [apply HU; exact HmU|exact Hcm].
Qed.

Lemma cover_terms_prime_witness :
  primeOf (numVars (construct 3 [0; 1; 2; 5; 6; 7] []))
          (allTermsOf (minterms (construct 3 [0; 1; 2; 5; 6; 7] []))
                      (dontcares (construct 3 [0; 1; 2; 5; 6; 7] [])))
          (Implicant.binary (Implicant.mk [1; 5] "-01" true false)) /\
  exists m, In m (minterms (construct 3 [0; 1; 2; 5; 6; 7] [])) /\
            Implicant.covers (Implicant.mk [1; 5] "-01" true false) m
              (numVars (construct 3 [0; 1; 2; 5; 6; 7] []))
            = true.
Proof.
  apply (cover_terms_prime 4 (construct 3 [0; 1; 2; 5; 6; 7] [])
           [Implicant.mk [1; 5] "-01" true false;
            Implicant.mk [2; 6] "-10" true false;
            Implicant.mk [0; 2] "0-0" true false;
            Implicant.mk [5; 7] "1-1" true false]).
  - solve_valid.
  - vm_compute. reflexivity.
  - simpl. auto.
Defined.

(** ** Determinism *)

Section SortedPermutation.
Context {A : Type}.
Variable lt : A -> A -> bool.
Hypothesis lt_irrefl : forall x, lt x x = false.

(** A list has one sorted arrangement only, when its elements that the
    comparison does not tell apart are equal. *)
Lemma sorted_perm_unique (l1 : list A) :
  forall l2,
    StronglySorted (notAfter lt) l1 -> StronglySorted (notAfter lt) l2 ->
    Permutation l1 l2 ->
    (forall x y, In x l1 -> In y l1 ->
                 lt x y = false -> lt y x = false -> x = y) ->
    l1 = l2.
Proof.
  induction l1 as [|x l1 IH]; intros l2 S1 S2 P Heq.
  - apply Permutation_nil in P. auto.
  - destruct l2 as [|y l2].
    { apply Permutation_sym, Permutation_nil in P. discriminate. }
    inversion S1 as [|? ? S1' F1]; subst.
    inversion S2 as [|? ? S2' F2]; subst.
    assert (Hy : In y (x :: l1)).
    { eapply Permutation_in; [symmetry; exact P|]. left. reflexivity. }
    assert (Hx : In x (y :: l2)).
    { eapply Permutation_in; [exact P|]. left. reflexivity. }
    assert (Hyx : lt y x = false).
    { destruct Hy as [<-|Hy]; [apply lt_irrefl|].
      eapply Forall_forall in F1; eauto. }
    assert (Hxy : lt x y = false).
    { destruct Hx as [<-|Hx]; [apply lt_irrefl|].
      eapply Forall_forall in F2; eauto. }
    assert (E : x = y) by (apply Heq; simpl; auto).
    subst y. f_equal. apply IH; auto.
    + eapply Permutation_cons_inv; eauto.
    + intros a b Ha Hb. apply Heq; simpl; auto.
Qed.
End SortedPermutation.

(** A sort of an [int] vector has one possible result. *)
Lemma int_sort_unique (sort : list Z -> list Z) :
  sortsInts sort -> forall l, sort l = std_sort Z.ltb l.
Proof.
  intros Hs l. destruct (Hs l) as [P S].
  apply (sorted_perm_unique Z.ltb); auto.
  - intros x. apply Z.ltb_irrefl.
  - apply std_sort_sorted_le.
    + intros x y H. apply Z.ltb_lt in H. apply Z.ltb_ge. lia.
    + intros x y z H1 H2. apply Z.ltb_ge in H1, H2. apply Z.ltb_ge. lia.
  - rewrite P. symmetry. apply std_sort_perm.
  - intros x y _ _ H1 H2. apply Z.ltb_ge in H1, H2. lia.
Qed.

Lemma std_sort_sortsByPattern : sortsByPattern (std_sort binary_lt).
Proof.
  intros l. split; [apply std_sort_perm|].
  apply std_sort_sorted_le.
  - intros x y. apply string_ltb_asym.
  - intros x y z. apply string_le_trans.
Qed.

(** Another sort: it leaves implicants with equal patterns in the
    opposite order. *)
Lemma rev_sort_sortsByPattern :
  sortsByPattern (fun l => std_sort binary_lt (rev l)).
Proof.
  intros l. destruct (std_sort_sortsByPattern (rev l)) as [P S].
  split; [|exact S]. rewrite P. symmetry. apply Permutation_rev.
Qed.

Lemma sort_by_pattern_unique (sort : list Implicant.t -> list Implicant.t)
    (l : list Implicant.t) :
  sortsByPattern sort ->
  (forall x y, In x l -> In y l ->
     Implicant.binary x = Implicant.binary y -> x = y) ->
  sort l = std_sort binary_lt l.
Proof.
  intros Hs Heq. destruct (Hs l) as [P S].
  destruct (std_sort_sortsByPattern l) as [P' S'].
  apply (sorted_perm_unique binary_lt); auto.
  - intros x. apply string_ltb_irrefl.
  - rewrite P. symmetry. exact P'.
  - intros x y Hx Hy H1 H2.
    apply Heq.
    + exact (Permutation_in _ P Hx).
    + exact (Permutation_in _ P Hy).
    + unfold binary_lt in H1, H2.
      destruct (String.eqb (Implicant.binary x) (Implicant.binary y)) eqn:E.
      * apply String.eqb_eq in E. exact E.
      * pose proof (string_ltb_total _ _ H2 E). congruence.
Qed.

(** No implicant of a round is flagged essential. *)
Lemma round_flags (numVars : Z) (terms : list Z) :
  0 <= numVars -> Forall (inRange numVars) terms ->
  forall round groups,
    roundGroups numVars terms round = Some groups ->
    forall imp, In imp (flatten groups) -> Implicant.isEssential imp = false.
Proof.
  intros Hn Hr round groups H imp Himp.
  destruct round as [|[|r]]; [discriminate| |].
  - simpl in H. destruct (isEmpty terms); [discriminate|].
    injection H as <-.
    apply flatten_entries in Himp. destruct Himp as [k Himp].
    apply initialGroups_entries_from in Himp.
    destruct Himp as [[]|(t & _ & -> & _)]. reflexivity.
  - rewrite roundGroups_succ in H.
    destruct (roundGroups numVars terms (S r)) as [g|] eqn:Eg; [|discriminate].
    destruct (changed (mergeAdjacent g)); [|discriminate].
    injection H as <-.
    destruct (roundGroups_good numVars terms Hn Hr (S r) g Eg) as [G _].
    pose proof (mergeAdjacent_inv g (proj1 G)) as I.
    apply flatten_entries in Himp. destruct Himp as [k Himp].
    destruct (inv_origin _ _ I k imp Himp) as (_ & a & b & _ & _ & _ & ->).
    reflexivity.
Qed.

(** The implicants that the merge loop collects are determined by their
    patterns. *)
Lemma collected_by_pattern (numVars : Z) (terms : list Z) (fuel : nat)
    (groups : Groups) (result : list Implicant.t) :
  0 <= numVars -> Forall (inRange numVars) terms ->
  roundGroups numVars terms 1 = Some groups ->
  primeLoop fuel groups [] = Some result ->
  forall x y, In x result -> In y result ->
    Implicant.binary x = Implicant.binary y -> x = y.
Proof.
  intros Hn Hr Hround Hloop.
  assert (Hshape : forall x, In x result ->
            Implicant.isPrime x = true /\ Implicant.isEssential x = false /\
            StronglySorted Z.lt (Implicant.minterms x) /\
            forall t, In t (Implicant.minterms x) <->
                      In t terms /\
                      Implicant.covers_loop (Implicant.binary x)
                        (intToBinary t numVars) = true).
  { intros x Hx.
    destruct (primeLoop_origin numVars terms fuel 0 groups [] result
                Hround Hloop x Hx)
      as [[]|(r & g & idx & a & Hg & Ha & _ & ->)].
    apply nth_error_In in Ha.
    destruct (roundGroups_good numVars terms Hn Hr _ g Hg) as [G _].
    pose proof (goodGroups_flatten numVars terms _ g a G Ha) as Ga.
    split; [reflexivity|].
    split; [apply (round_flags numVars terms Hn Hr _ g Hg a Ha)|].
    split; [apply (round_minterms numVars terms Hn Hr _ g Hg a Ha)|].
    intros t. apply (good_minterms _ _ _ _ Ga). }
  intros x y Hx Hy E.
  destruct (Hshape x Hx) as (Px & Ex & Sx & Mx).
  destruct (Hshape y Hy) as (Py & Ey & Sy & My).
  assert (Em : Implicant.minterms x = Implicant.minterms y).
  { apply sorted_lt_ext; auto. intros t. rewrite Mx, My, E. reflexivity. }
  destruct x as [mx bx px ex], y as [my by' py ey]. simpl in *. congruence.
Qed.

Lemma NoDup_map_eq {A B : Type} (f : A -> B) (l : list A) :
  NoDup (map f l) ->
  forall x y, In x l -> In y l -> f x = f y -> x = y.
Proof.
  induction l as [|a l IH]; simpl; intros Hnd x y Hx Hy E; [destruct Hx|].
  inversion Hnd as [|? ? Hnot Hnd']; subst.
  destruct Hx as [->|Hx], Hy as [->|Hy]; auto.
  - exfalso. apply Hnot. rewrite E. apply in_map. exact Hy.
  - exfalso. apply Hnot. rewrite <- E. apply in_map. exact Hx.
Qed.

Section SortsLeaveNoTrace.
Variable sortPrimes : list Implicant.t -> list Implicant.t.
Variable sortCover : list Implicant.t -> list Implicant.t.
Hypothesis sortPrimes_sorts : sortsByPattern sortPrimes.
Hypothesis sortCover_sorts : sortsByPattern sortCover.

Lemma findPrimeImplicantsWith_eq (fuel : nat) (numVars : Z) (terms : list Z) :
  0 <= numVars -> Forall (inRange numVars) terms ->
  findPrimeImplicantsWith sortPrimes fuel numVars terms
  = findPrimeImplicants fuel numVars terms.
Proof.
  intros Hn Hr. unfold findPrimeImplicantsWith, findPrimeImplicants.
  destruct terms as [|t0 l0] eqn:Et; [reflexivity|]. rewrite <- Et in *.
  destruct (primeLoop fuel (initialGroups numVars terms) []) as [result|] eqn:EL;
    [|reflexivity].
  unfold removeDuplicatesWith, removeDuplicates.
  rewrite (sort_by_pattern_unique sortPrimes result sortPrimes_sorts);
    [reflexivity|].
  apply (collected_by_pattern numVars terms fuel
           (initialGroups numVars terms) result Hn Hr); [|exact EL].
  cbn [roundGroups]. rewrite Et. reflexivity.
Qed.

Lemma findMinimalCoverWith_eq (fuel : nat) (numVars : Z) (minterms : list Z)
    (essentialPrimes allPrimes : list Implicant.t) :
  NoDup (map Implicant.binary essentialPrimes) ->
  NoDup (map Implicant.binary allPrimes) ->
  findMinimalCoverWith sortCover fuel numVars minterms essentialPrimes allPrimes
  = findMinimalCover fuel numVars minterms essentialPrimes allPrimes.
Proof.
  intros Hess Hall. unfold findMinimalCoverWith, findMinimalCover.
  destruct (isEmpty _); [reflexivity|].
  destruct (greedyLoop fuel _ _ _ _) as [r|] eqn:Er; [|reflexivity].
  rewrite (sort_by_pattern_unique sortCover r sortCover_sorts); [reflexivity|].
  apply NoDup_map_eq.
  apply greedyLoop_distinct in Er; [apply Er|].
  rewrite map_app. apply NoDup_app; auto.
  - apply NoDup_map_filter. exact Hall.
  - intros bin Hin Hin'.
    apply in_map_iff in Hin'. destruct Hin' as (p & E & Hp).
    apply filter_In in Hp. destruct Hp as [_ Hp].
    apply negb_true_iff in Hp. apply hasBinary_false in Hp.
    rewrite E in Hp. contradiction.
Qed.

Lemma minimalCoverWith_eq (fuel : nat) (q : QuineMcCluskey) :
  0 <= numVars q ->
  Forall (inRange (numVars q)) (minterms q) ->
  Forall (inRange (numVars q)) (dontcares q) ->
  minimalCoverWith sortPrimes sortCover fuel q = minimalCover fuel q.
Proof.
  intros Hn Hm Hd. unfold minimalCoverWith, minimalCover.
  rewrite findPrimeImplicantsWith_eq
    by (auto using allTermsOf_inRange).
  destruct (findPrimeImplicants fuel _ _) as [primes|] eqn:Ep; [|reflexivity].
  apply findMinimalCoverWith_eq.
  - apply findEssentialPrimes_inv.
  - apply patternLt_NoDup. eapply findPrimeImplicants_strict; eauto.
Qed.

(** Whatever order the two sorts leave among equal patterns, the call
    does what it does with the sort of the model. *)
Lemma minimizeWith_eq (fuel : nat) (q : QuineMcCluskey) :
  0 <= numVars q ->
  minimizeWith sortPrimes sortCover fuel q = minimize fuel q.
Proof.
  intros Hn. unfold minimizeWith, minimize.
  destruct (numVars q >? 8); [reflexivity|].
  destruct (numVars q <? 0); [reflexivity|].
  rewrite maxTerm_pow by exact Hn.
  destruct (firstOutOfRange _ (minterms q)) eqn:Em; [reflexivity|].
  destruct (firstOutOfRange _ (dontcares q)) eqn:Ed; [reflexivity|].
  apply firstOutOfRange_None in Em. apply firstOutOfRange_None in Ed.
  rewrite minimalCoverWith_eq by auto. reflexivity.
Qed.
End SortsLeaveNoTrace.

(** No branch of [minimize] assigns to a field of the object. *)
Lemma minimize_state (fuel : nat) (q : QuineMcCluskey) :
  snd (minimize fuel q) = q.
Proof.
  unfold minimize.
  destruct (numVars q >? 8); [reflexivity|].
  destruct (numVars q <? 0); [reflexivity|].
  destruct (firstOutOfRange _ (minterms q)); [reflexivity|].
  destruct (firstOutOfRange _ (dontcares q)); [reflexivity|].
  destruct (minimalCover fuel q); reflexivity.
Qed.

Lemma minimize_completed (fuel : nat) (q : QuineMcCluskey) :
  0 <= numVars q ->
  fst (minimize fuel q) <> OutOfFuel ->
  (exists e, fst (minimize fuel q) = Thrown e) \/
  (exists text, fst (minimize fuel q) = Returned text).
Proof.
  intros Hn. unfold minimize.
  destruct (numVars q >? 8); [left; eexists; reflexivity|].
  destruct (Z.ltb_spec (numVars q) 0); [lia|].
  destruct (firstOutOfRange _ (minterms q)); [left; eexists; reflexivity|].
  destruct (firstOutOfRange _ (dontcares q)); [left; eexists; reflexivity|].
  destruct (minimalCover fuel q); simpl; [|congruence].
  right. eexists. reflexivity.
Qed.

Lemma minimize_same (fuel1 fuel2 : nat) (q : QuineMcCluskey) :
  fst (minimize fuel1 q) <> OutOfFuel ->
  fst (minimize fuel2 q) <> OutOfFuel ->
  minimize fuel2 q = minimize fuel1 q.
Proof.
  unfold minimize.
  destruct (numVars q >? 8); [reflexivity|].
  destruct (numVars q <? 0); [reflexivity|].
  destruct (firstOutOfRange _ (minterms q)); [reflexivity|].
  destruct (firstOutOfRange _ (dontcares q)); [reflexivity|].
  destruct (minimalCover fuel1 q) as [c1|] eqn:E1;
    destruct (minimalCover fuel2 q) as [c2|] eqn:E2; simpl; try congruence.
  intros _ _. rewrite (minimalCover_unique q _ _ _ _ E1 E2). reflexivity.
Qed.

(** With the sort of the model for both, these are [minimize] and the
    functions it calls. *)
Lemma minimizeWith_std (fuel : nat) (q : QuineMcCluskey) :
  minimizeWith (std_sort binary_lt) (std_sort binary_lt) fuel q
  = minimize fuel q.
Proof. reflexivity. Qed.

(** A negative variable count gets past the check and to the shift. *)
Lemma minimizeWith_negative
    (sortPrimes sortCover : list Implicant.t -> list Implicant.t)
    (fuel : nat) (q : QuineMcCluskey) :
  numVars q < 0 ->
  minimizeWith sortPrimes sortCover fuel q = (Undefined, q).
Proof.
  intros H. unfold minimizeWith.
  destruct (Z.gtb_spec (numVars q) 8); [lia|].
  destruct (Z.ltb_spec (numVars q) 0); [reflexivity|lia].
Qed.



(** ** Copies of a pattern multiply from round to round *)

Lemma copies_cons (s : string) (k : Z) (g : list Implicant.t) (rest : Groups) :
  copies s ((k, g) :: rest)
  = (length (filter (hasPattern s) g) + copies s rest)%nat.
Proof.
  unfold copies. rewrite flatten_cons, filter_app, length_app. reflexivity.
Qed.

Lemma push_back_at_copies (s : string) (key : Z) (imp : Implicant.t)
    (groups : Groups) :
  copies s (push_back_at key imp groups)
  = (copies s groups + (if hasPattern s imp then 1 else 0))%nat.
Proof.
  induction groups as [|[k v] rest IH]; cbn [push_back_at].
  - rewrite copies_cons. cbn [filter]. unfold copies. cbn.
    destruct (hasPattern s imp); reflexivity.
  - destruct (key <? k).
    + rewrite (copies_cons s key [imp]). cbn [filter].
      destruct (hasPattern s imp); cbn [length]; lia.
    + destruct (key =? k).
      * rewrite !copies_cons, filter_app, length_app. cbn [filter].
        destruct (hasPattern s imp); cbn [length]; lia.
      * rewrite !copies_cons, IH. lia.
Qed.

Lemma tryMerge_copies (s : string) (a b : Implicant.t)
    (markIndex size1 j k : nat) (st : MergeState) :
  copies s (newGroups (tryMerge a b markIndex size1 j k st))
  = (copies s (newGroups st) + (if acceptsAs s a b then 1 else 0))%nat.
Proof.
  unfold tryMerge, acceptsAs.
  destruct (Implicant.canMerge a b); cbn [andb newGroups].
  - apply push_back_at_copies.
  - lia.
Qed.

Lemma scanGroup2_copies (s : string) (a : Implicant.t)
    (markIndex size1 j : nat) (group2 : list Implicant.t) :
  forall k st,
    copies s (newGroups (scanGroup2 a markIndex size1 j group2 k st))
    = (copies s (newGroups st) + length (filter (acceptsAs s a) group2))%nat.
Proof.
  induction group2 as [|b rest IH]; intros k st; cbn [scanGroup2 filter].
  - cbn [length]. lia.
  - rewrite IH, tryMerge_copies.
    destruct (acceptsAs s a b); cbn [length]; lia.
Qed.

Lemma scanGroup1_copies (s : string) (markIndex size1 : nat)
    (group2 group1 : list Implicant.t) :
  forall j st,
    copies s (newGroups (scanGroup1 markIndex size1 group1 j group2 st))
    = (copies s (newGroups st) + pairCount s group1 group2)%nat.
Proof.
  induction group1 as [|a rest IH]; intros j st; cbn [scanGroup1 pairCount].
  - lia.
  - rewrite IH, scanGroup2_copies. lia.
Qed.

Lemma mergeWalk_copies (s : string) (groups : Groups) :
  forall markIndex st,
    copies s (newGroups (mergeWalk groups markIndex st))
    = (copies s (newGroups st) + walkCount s groups)%nat.
Proof.
  induction groups as [|[k1 g1] rest IH]; intros markIndex st.
  - cbn [mergeWalk walkCount]. lia.
  - destruct rest as [|[k2 g2] rest'].
    + cbn [mergeWalk walkCount]. lia.
    + change (mergeWalk ((k1, g1) :: (k2, g2) :: rest') markIndex st)
        with (mergeWalk ((k2, g2) :: rest') (markIndex + length g1)
                (if k2 - k1 =? 1
                 then scanGroup1 markIndex (length g1) g1 0 g2 st
                 else st)).
      change (walkCount s ((k1, g1) :: (k2, g2) :: rest'))
        with ((if (k2 - k1 =? 1)%Z then pairCount s g1 g2 else O)
              + walkCount s ((k2, g2) :: rest'))%nat.
      rewrite IH.
      destruct (k2 - k1 =? 1).
      * rewrite scanGroup1_copies. lia.
      * lia.
Qed.

(** The copies of a pattern after the merging half of a round are the
    accepted pairs that merge to it: none is dropped. *)
Lemma mergeAdjacent_copies (s : string) (groups : Groups) :
  keysAscending groups ->
  copies s (newGroups (mergeAdjacent groups)) = walkCount s groups.
Proof.
  intros Hk. rewrite mergeAdjacent_walk by exact Hk.
  rewrite mergeWalk_copies. reflexivity.
Qed.

Lemma walkCount_cons (s : string) (x : Z * list Implicant.t) (rest : Groups) :
  (walkCount s rest <= walkCount s (x :: rest))%nat.
Proof.
  destruct x as [k g]. destruct rest as [|[k2 g2] rest'].
  - cbn [walkCount]. lia.
  - change (walkCount s ((k, g) :: (k2, g2) :: rest'))
      with ((if (k2 - k =? 1)%Z then pairCount s g g2 else O)
            + walkCount s ((k2, g2) :: rest'))%nat.
    lia.
Qed.

Lemma walkCount_place (s : string) (pre post : Groups) (k1 k2 : Z)
    (g1 g2 : list Implicant.t) :
  k2 - k1 = 1 ->
  (pairCount s g1 g2
   <= walkCount s (pre ++ (k1, g1) :: (k2, g2) :: post))%nat.
Proof.
  intros Hadj. induction pre as [|x pre IH].
  - change (walkCount s ([] ++ (k1, g1) :: (k2, g2) :: post))
      with ((if (k2 - k1 =? 1)%Z then pairCount s g1 g2 else O)
            + walkCount s ((k2, g2) :: post))%nat.
    rewrite Hadj. change (1 =? 1) with true. lia.
  - rewrite <- app_comm_cons.
    pose proof (walkCount_cons s x (pre ++ (k1, g1) :: (k2, g2) :: post)).
    lia.
Qed.

Lemma filter_length_mono {A : Type} (f g : A -> bool) (l : list A) :
  (forall x, In x l -> f x = true -> g x = true) ->
  (length (filter f l) <= length (filter g l))%nat.
Proof.
  induction l as [|x l IH]; intros H; cbn [filter]; [lia|].
  assert (IH' : (length (filter f l) <= length (filter g l))%nat).
  { apply IH. intros y Hy. apply H. right. exact Hy. }
  destruct (f x) eqn:Ef.
  - rewrite (H x (or_introl eq_refl) Ef). cbn [length]. lia.
  - destruct (g x); cbn [length]; lia.
Qed.

Lemma filter_length_none {A : Type} (f : A -> bool) (l : list A) :
  (forall x, In x l -> f x = false) -> length (filter f l) = O.
Proof.
  induction l as [|x l IH]; intros H; cbn [filter]; [reflexivity|].
  rewrite (H x (or_introl eq_refl)). apply IH.
  intros y Hy. apply H. right. exact Hy.
Qed.

(** Two ways to split a pattern give disjoint sets of pairs. *)
Lemma pairCount_two (s s0 s1 s0' s1' : string) (g1 g2 : list Implicant.t) :
  (forall a b, hasPattern s0 a = true -> hasPattern s1 b = true ->
               acceptsAs s a b = true) ->
  (forall a b, hasPattern s0' a = true -> hasPattern s1' b = true ->
               acceptsAs s a b = true) ->
  s0 <> s0' ->
  (length (filter (hasPattern s0) g1) * length (filter (hasPattern s1) g2)
   + length (filter (hasPattern s0') g1) * length (filter (hasPattern s1') g2)
   <= pairCount s g1 g2)%nat.
Proof.
  intros H H' Hne. induction g1 as [|a g1 IH]; cbn [filter pairCount].
  - cbn [length]. lia.
  - destruct (hasPattern s0 a) eqn:E0; destruct (hasPattern s0' a) eqn:E0'.
    + exfalso. apply Hne. unfold hasPattern in E0, E0'.
      apply String.eqb_eq in E0, E0'. congruence.
    + pose proof (filter_length_mono (hasPattern s1) (acceptsAs s a) g2
                    (fun b _ Hb => H a b E0 Hb)).
      cbn [length]. nia.
    + pose proof (filter_length_mono (hasPattern s1') (acceptsAs s a) g2
                    (fun b _ Hb => H' a b E0' Hb)).
      cbn [length]. nia.
    + lia.
Qed.

(** The copies of a pattern are all in the group of its number of ones. *)
Lemma group_copies (numVars : Z) (terms : list Z) (d : nat)
    (pre post : Groups) (k : Z) (g : list Implicant.t) (s : string) :
  goodGroups numVars terms d (pre ++ (k, g) :: post) ->
  Implicant.countOnes_str s = k ->
  copies s (pre ++ (k, g) :: post) = length (filter (hasPattern s) g).
Proof.
  intros [Hk Hgood] Hs.
  assert (Hother : forall l, incl l (pre ++ post) ->
            length (filter (hasPattern s) (flatten l)) = O).
  { intros l Hl. apply filter_length_none. intros x Hx.
    destruct (hasPattern s x) eqn:E; [exfalso|reflexivity].
    unfold hasPattern in E. apply String.eqb_eq in E.
    apply flatten_entries in Hx. destruct Hx as [k' Hx].
    apply entries_groups in Hx. destruct Hx as (v & Hv & Hxv).
    assert (Hin : In (k', v) (pre ++ (k, g) :: post)).
    { apply Hl in Hv. apply in_app_or in Hv. apply in_or_app.
      destruct Hv; [left|right; right]; assumption. }
    assert (Hk' : k' = k).
    { destruct (Hgood k' x) as [Hkx _].
      - apply entries_groups. exists v. auto.
      - rewrite Hkx. unfold Implicant.countOnes. rewrite E. exact Hs. }
    subst k'.
    apply keysAscending_NoDup in Hk. rewrite map_app in Hk. cbn [map fst] in Hk.
    apply NoDup_remove_2 in Hk. apply Hk.
    rewrite <- map_app. change k with (fst (k, v)).
    apply in_map. apply Hl. exact Hv. }
  unfold copies. rewrite flatten_app, flatten_cons, !filter_app, !length_app.
  rewrite (Hother pre), (Hother post).
  - lia.
  - intros x Hx. apply in_or_app. right. exact Hx.
  - intros x Hx. apply in_or_app. left. exact Hx.
Qed.

Lemma copiesBound_step (d : nat) :
  copiesBound (S (S d)) = 2 * copiesBound (S d) * copiesBound (S d).
Proof. reflexivity. Qed.

Lemma copiesBound_pos (d : nat) : 1 <= copiesBound d.
Proof.
  induction d as [|d IH]; [reflexivity|].
  destruct d as [|d]; [reflexivity|].
  rewrite copiesBound_step. nia.
Qed.

(** Putting a digit in the place of a dash of an implicant gives an
    implicant with one dash less. *)
Lemma implicantOf_literal (numVars : Z) (terms : list Z) (pre suf : string)
    (c : ascii) :
  implicantOf numVars terms (pre +++ String "-" suf) ->
  isBit c = true ->
  implicantOf numVars terms (pre +++ String c suf) /\
  S (dashes (pre +++ String c suf)) = dashes (pre +++ String "-" suf) /\
  Implicant.countOnes_str (pre +++ String c suf)
  = Implicant.countOnes_str (pre +++ String "-" suf)
    + (if Ascii.eqb c "1" then 1 else 0).
Proof.
  intros (Hl & Ht & Hs) Hc.
  rewrite append_length in Hl. cbn [String.length] in Hl.
  rewrite ternary_append in Ht. cbn [ternary] in Ht.
  apply andb_true_iff in Ht. destruct Ht as [Tpre Tsuf].
  change (isSymbol "-") with true in Tsuf. cbn [andb] in Tsuf.
  split; [split; [|split]|split].
  - rewrite append_length. exact Hl.
  - rewrite ternary_append. cbn [ternary]. rewrite Tpre, Tsuf.
    destruct (isBit_cases c Hc) as [-> | ->]; reflexivity.
  - intros t Hrange H. apply (Hs t Hrange).
    eapply covers_loop_widen; eauto.
  - rewrite !dashes_append. cbn [dashes].
    destruct (isBit_cases c Hc) as [-> | ->];
      change (Ascii.eqb "-" "-") with true;
      change (Ascii.eqb _ "-") with false; cbv iota; lia.
  - rewrite !countOnes_append. cbn [Implicant.countOnes_str].
    change (Ascii.eqb "-" "1") with false. cbv iota. lia.
Qed.

Lemma two_dashes (s : string) :
  (2 <= dashes s)%nat ->
  exists A B C, s = A +++ String "-" (B +++ String "-" C).
Proof.
  intros H. destruct (dash_split s ltac:(lia)) as (pre & suf & ->).
  rewrite dashes_append in H. cbn [dashes] in H.
  change (Ascii.eqb "-" "-") with true in H. cbv iota in H.
  destruct (dashes suf) as [|n] eqn:Esuf.
  - destruct (dash_split pre ltac:(lia)) as (A & B & ->).
    exists A, B, suf. rewrite append_assoc. reflexivity.
  - destruct (dash_split suf ltac:(lia)) as (B & C & ->).
    exists pre, B, C. reflexivity.
Qed.

Lemma copies_In (s : string) (groups : Groups) :
  (1 <= copies s groups)%nat ->
  exists a, In a (flatten groups) /\ Implicant.binary a = s.
Proof.
  unfold copies. intros H.
  destruct (filter (hasPattern s) (flatten groups)) as [|a l] eqn:E;
    [cbn [length] in H; lia|].
  assert (Hin : In a (filter (hasPattern s) (flatten groups)))
    by (rewrite E; left; reflexivity).
  apply filter_In in Hin. destruct Hin as [Hin Hp].
  exists a. split; [exact Hin|]. apply String.eqb_eq. exact Hp.
Qed.

Lemma split_accepted (s0 s1 pre suf : string) (a b : Implicant.t) :
  s0 = pre +++ String "0" suf -> s1 = pre +++ String "1" suf ->
  hasPattern s0 a = true -> hasPattern s1 b = true ->
  acceptsAs (pre +++ String "-" suf) a b = true.
Proof.
  intros -> -> Ha Hb. unfold hasPattern in Ha, Hb.
  apply String.eqb_eq in Ha, Hb. unfold acceptsAs.
  rewrite (canMerge_differ a b pre suf "0" "1" Ha Hb) by discriminate.
  cbn [andb]. unfold hasPattern. cbn [Implicant.merged Implicant.binary].
  rewrite Ha, Hb, mergeBinary_split by discriminate.
  apply String.eqb_refl.
Qed.

(** Every implicant with [d] dashes is in the map of round [d + 1] at
    least [copiesBound d] times. *)
Lemma copies_grow (numVars : Z) (terms : list Z) :
  0 <= numVars ->
  Forall (inRange numVars) terms ->
  forall d s,
    implicantOf numVars terms s -> dashes s = d ->
    exists groups,
      roundGroups numVars terms (S d) = Some groups /\
      copiesBound d <= Z.of_nat (copies s groups).
Proof.
  intros Hn Hr.
  assert (Hone : forall d s,
            implicantOf numVars terms s -> dashes s = d ->
            exists groups,
              roundGroups numVars terms (S d) = Some groups /\
              1 <= Z.of_nat (copies s groups)).
  { intros d s Hs Hd.
    destruct (cube_in_round numVars terms Hn Hr d s Hs Hd)
      as (groups & a & Hg & Ha & Ea).
    exists groups. split; [exact Hg|].
    assert (Hin : In a (filter (hasPattern s) (flatten groups))).
    { apply filter_In. split; [exact Ha|].
      unfold hasPattern. rewrite Ea. apply String.eqb_refl. }
    unfold copies.
    destruct (filter (hasPattern s) (flatten groups)); [destruct Hin|].
    cbn [length]. lia. }
  induction d as [|d IH]; intros s Hs Hd; [apply Hone; assumption|].
  destruct d as [|d]; [apply Hone; assumption|].
  destruct (two_dashes s ltac:(lia)) as (A & B & C & Es).
  set (pre' := A +++ String "-" B).
  assert (Es' : s = pre' +++ String "-" C).
  { unfold pre'. rewrite append_assoc. exact Es. }
  assert (Hsub : forall pre suf c,
            s = pre +++ String "-" suf -> isBit c = true ->
            exists groups,
              roundGroups numVars terms (S (S d)) = Some groups /\
              copiesBound (S d)
              <= Z.of_nat (copies (pre +++ String c suf) groups) /\
              Implicant.countOnes_str (pre +++ String c suf)
              = Implicant.countOnes_str s + (if Ascii.eqb c "1" then 1 else 0)).
  { intros pre suf c E Hc. rewrite E in Hs, Hd.
    destruct (implicantOf_literal numVars terms pre suf c Hs Hc)
      as (Hi & Hdash & Hones).
    destruct (IH (pre +++ String c suf) Hi ltac:(lia)) as (groups & Hg & Hb).
    exists groups. rewrite E. auto. }
  destruct (Hsub A (B +++ String "-" C) "0"%char Es eq_refl)
    as (groups & Hg & Hb0 & Hk0).
  destruct (Hsub A (B +++ String "-" C) "1"%char Es eq_refl)
    as (groups1 & Hg1 & Hb1 & Hk1).
  destruct (Hsub pre' C "0"%char Es' eq_refl) as (groups2 & Hg2 & Hb0' & Hk0').
  destruct (Hsub pre' C "1"%char Es' eq_refl) as (groups3 & Hg3 & Hb1' & Hk1').
  rewrite Hg in Hg1, Hg2, Hg3.
  injection Hg1 as <-. injection Hg2 as <-. injection Hg3 as <-.
  change (if Ascii.eqb "0" "1" then 1 else 0) with 0 in Hk0, Hk0'.
  change (if Ascii.eqb "1" "1" then 1 else 0) with 1 in Hk1, Hk1'.
  set (s0 := A +++ String "0" (B +++ String "-" C)) in *.
  set (s1 := A +++ String "1" (B +++ String "-" C)) in *.
  set (s0' := pre' +++ String "0" C) in *.
  set (s1' := pre' +++ String "1" C) in *.
  set (k := Implicant.countOnes_str s) in *.
  pose proof (copiesBound_pos (S d)) as Hpos.
  destruct (roundGroups_good numVars terms Hn Hr _ groups Hg) as [G _].
  pose proof G as [Hkeys Hgood].
  (* the two groups *)
  destruct (copies_In s0 groups ltac:(lia)) as (a0 & Ha0 & Ea0).
  destruct (copies_In s1 groups ltac:(lia)) as (a1 & Ha1 & Ea1).
  apply flatten_entries in Ha0. destruct Ha0 as [k0 Ha0].
  apply flatten_entries in Ha1. destruct Ha1 as [k1 Ha1].
  assert (Ek0 : k0 = k).
  { destruct (Hgood k0 a0 Ha0) as [E _]. rewrite E.
    unfold Implicant.countOnes. rewrite Ea0. lia. }
  assert (Ek1 : k1 = k + 1).
  { destruct (Hgood k1 a1 Ha1) as [E _]. rewrite E.
    unfold Implicant.countOnes. rewrite Ea1. lia. }
  subst k0 k1.
  apply entries_groups in Ha0. destruct Ha0 as (g0 & Hin0 & _).
  apply entries_groups in Ha1. destruct Ha1 as (g1 & Hin1 & _).
  destruct (in_split _ _ Hin0) as (gpre & gpost & E).
  rewrite E in Hkeys, Hin1.
  destruct (next_group gpre gpost k g0 g1 Hkeys Hin1) as [post' ->].
  rewrite <- E in Hkeys.
  assert (E' : groups = (gpre ++ [(k, g0)]) ++ (k + 1, g1) :: post').
  { rewrite E, <- app_assoc. reflexivity. }
  assert (C0 : copies s0 groups = length (filter (hasPattern s0) g0)).
  { rewrite E. apply (group_copies numVars terms (S d)); [rewrite <- E; exact G|lia]. }
  assert (C0' : copies s0' groups = length (filter (hasPattern s0') g0)).
  { rewrite E. apply (group_copies numVars terms (S d)); [rewrite <- E; exact G|lia]. }
  assert (C1 : copies s1 groups = length (filter (hasPattern s1) g1)).
  { rewrite E'. apply (group_copies numVars terms (S d)); [rewrite <- E'; exact G|lia]. }
  assert (C1' : copies s1' groups = length (filter (hasPattern s1') g1)).
  { rewrite E'. apply (group_copies numVars terms (S d)); [rewrite <- E'; exact G|lia]. }
  (* the pairs *)
  assert (Hpairs : (copies s0 groups * copies s1 groups
                    + copies s0' groups * copies s1' groups
                    <= copies s (newGroups (mergeAdjacent groups)))%nat).
  { rewrite mergeAdjacent_copies by exact Hkeys.
    rewrite C0, C1, C0', C1'.
    etransitivity; [|rewrite E; apply walkCount_place; lia].
    apply pairCount_two.
    - intros a b Ha Hb. rewrite Es.
      apply (split_accepted s0 s1 A (B +++ String "-" C)); auto.
    - intros a b Ha Hb. rewrite Es'.
      apply (split_accepted s0' s1' pre' C); auto.
    - unfold s0, s0', pre'. rewrite append_assoc. intros Heq.
      apply append_inv_head in Heq. discriminate Heq. }
  assert (Hbig : copiesBound (S (S d))
                 <= Z.of_nat (copies s (newGroups (mergeAdjacent groups)))).
  { rewrite copiesBound_step.
    apply Nat2Z.inj_le in Hpairs.
    rewrite Nat2Z.inj_add, !Nat2Z.inj_mul in Hpairs. nia. }
  exists (newGroups (mergeAdjacent groups)). split; [|exact Hbig].
  rewrite roundGroups_succ, Hg.
  destruct (changed (mergeAdjacent groups)) eqn:Hch; [reflexivity|].
  pose proof (mergeAdjacent_inv groups Hkeys) as I.
  rewrite (inv_unchanged _ _ I Hch) in Hbig.
  pose proof (copiesBound_pos (S (S d))).
  change (copies s []) with O in Hbig. lia.
Qed.

Lemma copies_le_size (s : string) (groups : Groups) :
  (copies s groups <= length (flatten groups))%nat.
Proof.
  unfold copies. induction (flatten groups) as [|x l IH]; cbn [filter length].
  - lia.
  - destruct (hasPattern s x); cbn [length]; lia.
Qed.

(** X20: merged implicants are not de-duplicated between rounds, and their
    copies multiply.  The map of the next round holds one implicant for
    every accepted pair; for terms in range, every implicant of the
    function with [d] dashes is in the map of round [d + 1] at least
    [copiesBound d] times (1, 1, 2, 8, 128, 32768, 2^31, ...), and where
    that bound is above [INT_MAX] some round is larger than the [int]
    counters of the loop can count. *)
Theorem duplicates_multiply (numVars : Z) (terms : list Z) (d : nat)
    (s : string) :
  0 <= numVars ->
  Forall (inRange numVars) terms ->
  implicantOf numVars terms s ->
  dashes s = d ->
  exists groups,
    roundGroups numVars terms (S d) = Some groups /\
    (forall s', copies s' (newGroups (mergeAdjacent groups))
                = walkCount s' groups) /\
    copiesBound d <= Z.of_nat (copies s groups) /\
    (copies s groups <= length (flatten groups))%nat /\
    (INT_MAX < copiesBound d -> ~ roundsFit numVars terms).
Proof.
  intros Hn Hr Hs Hd.
  destruct (copies_grow numVars terms Hn Hr d s Hs Hd) as (groups & Hg & Hb).
  destruct (roundGroups_good numVars terms Hn Hr _ groups Hg) as [[Hk _] _].
  exists groups. split; [exact Hg|].
  split; [intros s'; apply mergeAdjacent_copies; exact Hk|].
  split; [exact Hb|]. split; [apply copies_le_size|].
  intros Hbig Hfit. specialize (Hfit (S d) groups Hg).
  unfold roundFits in Hfit.
  pose proof (copies_le_size s groups) as Hle.
  apply Nat2Z.inj_le in Hle. lia.
Qed.

Lemma duplicates_multiply_witness :
  valid (construct 6 (map Z.of_nat (seq 0 64)) []) /\
  ~ roundsFit 6 (allTermsOf (map Z.of_nat (seq 0 64)) []).
Proof.
  assert (Hall : Forall (inRange 6) (map Z.of_nat (seq 0 64))).
  { apply Forall_forall. intros t Ht. apply in_map_iff in Ht.
    destruct Ht as (n & <- & Hn). apply in_seq in Hn.
    unfold inRange. change (2 ^ 6) with 64. lia. }
  split.
  - unfold valid. cbn [numVars minterms dontcares varNames construct].
    split; [lia|]. split; [reflexivity|]. split; [exact Hall|constructor].
  - destruct (duplicates_multiply 6 (allTermsOf (map Z.of_nat (seq 0 64)) [])
                6 "------") as (groups & _ & _ & _ & _ & Hno).
    + lia.
    + apply allTermsOf_inRange; [exact Hall|constructor].
    + split; [reflexivity|]. split; [reflexivity|].
      intros t Ht _. apply allTermsOf_In. left.
      apply in_map_iff. exists (Z.to_nat t).
      unfold inRange in Ht. change (2 ^ 6) with 64 in Ht.
      split; [lia|]. apply in_seq. lia.
    + reflexivity.
    + apply Hno. reflexivity.
Defined.
